(** * STOMP matrix-profile engine ([stumpy/mstump.py]): model and properties

    The development embeds the two functions of [src/stumpy/mstump.py]:
    the row-by-row recurrence engine [_mstump] and the driver [mstump].

    - Arrays live in a store of NumPy arrays addressed by references, so that
      [QT.copy()], the aliasing [T_B = T_A] of a self-join and the in-place
      writes [QT_even[j] = ...] are what they are in the source.
    - Python exceptions are values of [error]; a computation is a function
      from the store to the store it leaves and either an error or a value.
    - [float64] scalars are any type with the arithmetic operations and a
      decidable strict total order (class [Scalar]).  No law of arithmetic
      is assumed of them, so the operations may round; arithmetic without
      rounding is the class [ExactScalar], and [round_f64] gives [float64]
      rounding on integer values.  The distance profile additionally holds
      [+inf].  NaN is not modelled.
    - The engine is compiled by Numba, which does not check array bounds.
      The model stops with [IndexError] at an access out of range; what the
      compiled code does there is not defined, and the properties of the
      engine are stated for calls in which every access is in range.
    - Functions imported from the package but defined in other files
      ([core.*], [_get_first_stump_profile], [_get_QT],
      [_calculate_squared_distance_profile]) are parameters. *)

From Stdlib Require Import ZArith Lia Ring.
From stdpp Require Import base numbers list gmap strings.

Open Scope Z_scope.

(** ** Python exceptions and the result of a call *)

Inductive error :=
  | IndexError
  | ValueError
  | TypeError
  | NameError (name : string)
  | InvalidInputError
  | DanglingReference.

Inductive result (A : Type) :=
  | Ok (a : A)
  | Err (e : error).
Arguments Ok {A} a.
Arguments Err {A} e.

Definition result_bind {A B} (r : result A) (f : A → result B) : result B :=
  match r with
  | Ok a => f a
  | Err e => Err e
  end.

#[export] Instance result_mret : MRet result := @Ok.
#[export] Instance result_mbind : MBind result := λ A B f r, result_bind r f.

(** ** Python indexing on lists

    [a[i]] with a negative [i] counts from the end; an index outside
    [-len, len) raises [IndexError]. *)

Definition py_index (len : nat) (i : Z) : result nat :=
  if bool_decide (0 ≤ i < Z.of_nat len) then Ok (Z.to_nat i)
  else if bool_decide (- Z.of_nat len ≤ i < 0) then Ok (Z.to_nat (Z.of_nat len + i))
  else Err IndexError.

Definition getitem {A} (a : list A) (i : Z) : result A :=
  n ← py_index (length a) i;
  match a !! n with
  | Some x => Ok x
  | None => Err IndexError
  end.

Definition setitem {A} (a : list A) (i : Z) (v : A) : result (list A) :=
  n ← py_index (length a) i;
  Ok (<[n:=v]> a).

(** A slice bound [x] of [a[x:y]]: negative bounds count from the end, and
    the result is clipped to [0, len]. *)
Definition slice_bound (len : nat) (x : Z) : nat :=
  if bool_decide (x < 0) then Z.to_nat (Z.max 0 (Z.of_nat len + x))
  else Z.to_nat (Z.min x (Z.of_nat len)).

(** [a[start:stop]]; [None] stands for an omitted bound. *)
Definition py_slice {A} (a : list A) (start stop : option Z) : list A :=
  let lo := from_option (slice_bound (length a)) 0%nat start in
  let hi := from_option (slice_bound (length a)) (length a) stop in
  take (hi - lo) (drop lo a).

(** [a[start:stop] = v] for a scalar [v]. *)
Definition slice_fill {A} (a : list A) (start stop : Z) (v : A) : list A :=
  let lo := slice_bound (length a) start in
  let hi := slice_bound (length a) stop in
  imap (λ n x, if bool_decide (lo ≤ n < hi)%nat then v else x) a.

(** [range(start, stop)] *)
Definition py_range (start stop : Z) : list Z := seqZ start (stop - start).

(** [np.empty((n,))]: the contents are unspecified in NumPy; every slot the
    code allocates this way is written before it is read, and the model
    fills the array with [dflt]. *)
Definition np_empty {A} (n : Z) (dflt : A) : result (list A) :=
  if bool_decide (n < 0) then Err ValueError
  else Ok (replicate (Z.to_nat n) dflt).

(** A loop whose body may raise, on values. *)
Fixpoint fold_result {S X} (f : S → X → result S) (s : S) (xs : list X)
    : result S :=
  match xs with
  | [] => Ok s
  | x :: xs' => s' ← f s x; fold_result f s' xs'
  end.

(** ** Scalars *)

(** The scalars the code computes with: the operations of lines 121 and
    124, the comparison behind [np.argmin] and [np.sqrt].  Nothing is
    assumed of the arithmetic, which in [float64] rounds. *)
Class Scalar (R : Type) := {
  r0 : R;
  r1 : R;
  radd : R → R → R;
  rmul : R → R → R;
  rsub : R → R → R;
  ropp : R → R;
  rltb : R → R → bool;
  rsqrt : R → R;
  rltb_irrefl : ∀ x, rltb x x = false;
  rltb_trans : ∀ x y z, rltb x y = true → rltb y z = true → rltb x z = true;
  rltb_total : ∀ x y, rltb x y = false → rltb y x = false → x = y;
}.

(** Scalars whose arithmetic is exact: the operations obey the laws of a
    commutative ring.  Integers and rationals are such; [float64] is not. *)
Class ExactScalar (E : Type) `{Scalar E} := {
  exact_ring : ring_theory (R:=E) r0 r1 radd rmul rsub ropp eq;
}.

Declare Scope scalar_scope.
Delimit Scope scalar_scope with S.
Infix "+" := radd : scalar_scope.
Infix "*" := rmul : scalar_scope.
Infix "-" := rsub : scalar_scope.

(** Entries of a distance profile: a scalar or [np.inf]. *)
Inductive dist (R : Type) :=
  | Fin (x : R)
  | PInf.
Arguments Fin {R} x.
Arguments PInf {R}.

Definition dist_ltb `{Scalar R} (a b : dist R) : bool :=
  match a, b with
  | Fin x, Fin y => rltb x y
  | Fin _, PInf => true
  | PInf, _ => false
  end.

(** [np.sqrt] on a profile entry. *)
Definition np_sqrt `{Scalar R} (a : dist R) : dist R :=
  match a with
  | Fin x => Fin (rsqrt x)
  | PInf => PInf
  end.

(** [np.argmin]: the index of the first occurrence of the minimum; raises
    [ValueError] on an empty array. *)
Fixpoint argmin_from `{Scalar R} (best_i : nat) (best : dist R) (cur : nat)
    (l : list (dist R)) : nat :=
  match l with
  | [] => best_i
  | x :: l' =>
      if dist_ltb x best then argmin_from cur x (S cur) l'
      else argmin_from best_i best (S cur) l'
  end.

Definition np_argmin `{Scalar R} (D : list (dist R)) : result Z :=
  match D with
  | [] => Err ValueError
  | x :: l => Ok (Z.of_nat (argmin_from 0 x 1 l))
  end.

(** ** The store of arrays

    A NumPy array is a mutable object; a Python variable holds a reference
    to it.  [arrays] maps the references in use to the contents of their
    arrays; [warnings] collects what was sent to [logger.warning]. *)

Definition ref := positive.

Record mem (R : Type) := Mem {
  arrays : gmap ref (list R);
  warnings : list string;
}.
Arguments Mem {R} arrays warnings.
Arguments arrays {R} m.
Arguments warnings {R} m.

(** A computation runs on the store; the store it leaves is observable
    whether it returns or raises. *)
Definition M (R A : Type) : Type := mem R → mem R * result A.

#[export] Instance M_mret {R} : MRet (M R) := λ A a s, (s, Ok a).
#[export] Instance M_mbind {R} : MBind (M R) := λ A B f c s,
  match c s with
  | (s', Ok a) => f a s'
  | (s', Err e) => (s', Err e)
  end.

Section Store.
Context {R : Type}.

Definition lift {A} (r : result A) : M R A := λ s, (s, r).

Definition load (l : ref) : M R (list R) := λ s,
  match arrays s !! l with
  | Some a => (s, Ok a)
  | None => (s, Err DanglingReference)
  end.

(** The store in which [l] refers to an array with contents [a]. *)
Definition update (l : ref) (a : list R) (s : mem R) : mem R :=
  Mem (<[l:=a]> (arrays s)) (warnings s).

Definition store (l : ref) (a : list R) : M R unit := λ s,
  (update l a s, Ok ()).

(** A new array object with contents [a]. *)
Definition new_array (a : list R) : M R ref := λ s,
  let l := fresh (dom (arrays s)) in
  (update l a s, Ok l).

(** [x[i]].  The engine, which Numba compiles, does not check the index:
    there the [IndexError] of an index out of range marks a run the
    compiled code leaves undefined, not an exception it raises. *)
Definition read (x : ref) (i : Z) : M R R :=
  a ← load x; lift (getitem a i).

(** [x[i] = v], with the same proviso. *)
Definition write (x : ref) (i : Z) (v : R) : M R unit :=
  a ← load x; a' ← lift (setitem a i v); store x a'.

(** [x.copy()] *)
Definition copy (x : ref) : M R ref :=
  a ← load x; new_array a.

(** [logger.warning(msg)] *)
Definition warn (msg : string) : M R unit := λ s,
  (Mem (arrays s) (warnings s ++ [msg]), Ok ()).

(** [for x in xs: s = body(s, x)] *)
Fixpoint for_loop {X S} (body : S → X → M R S) (s : S) (xs : list X) : M R S :=
  match xs with
  | [] => mret s
  | x :: xs' => s' ← body s x; for_loop body s' xs'
  end.
End Store.

(** ** The recurrence engine [_mstump] *)

Section Engine.
Context `{Scalar R}.

(** [_calculate_squared_distance_profile(m, QT, μ_Q, σ_Q, M_T, Σ_T)] is
    imported from the package and defined elsewhere: a parameter.  It
    returns a new array and has no side effect. *)
Variable _calculate_squared_distance_profile :
  Z → list R → R → R → list R → list R → list (dist R).

(** The body of the [prange] loop (source lines 115-124) for row [i] and
    [rev_j]. *)
Definition col_update (T_A T_B : ref) (m k : Z) (QT_odd QT_even : ref)
    (i rev_j : Z) : M R unit :=
  let j := k - rev_j in
  if bool_decide (i `mod` 2 = 0) then
    q ← read QT_odd (j - 1);
    b0 ← read T_B (i - 1);
    a0 ← read T_A (j - 1);
    b1 ← read T_B (i + m - 1);
    a1 ← read T_A (j + m - 1);
    write QT_even j (q - b0 * a0 + b1 * a1)%S
  else
    q ← read QT_even (j - 1);
    b0 ← read T_B (i - 1);
    a0 ← read T_A (j - 1);
    b1 ← read T_B (i + m - 1);
    a1 ← read T_A (j + m - 1);
    write QT_odd j (q - b0 * a0 + b1 * a1)%S.

(** The [prange] loop run over the values [rev_js] of [rev_j], in the
    order of the list.  The source's sequential order is
    [py_range 1 k]. *)
Definition col_loop (T_A T_B : ref) (m k : Z) (QT_odd QT_even : ref)
    (i : Z) (rev_js : list Z) : M R unit :=
  for_loop (λ _ rev_j, col_update T_A T_B m k QT_odd QT_even i rev_j) () rev_js.

(** Source lines 126-131: seed position 0 of the live buffer and call the
    distance kernel on it. *)
Definition seed_and_profile (m : Z) (M_T Σ_T QT_first μ_Q σ_Q : ref)
    (QT_odd QT_even : ref) (i : Z) : M R (list (dist R)) :=
  if bool_decide (i `mod` 2 = 0) then
    q ← read QT_first i;
    _ ← write QT_even 0 q;
    qt ← load QT_even;
    μ ← read μ_Q i;
    σ ← read σ_Q i;
    mt ← load M_T;
    st ← load Σ_T;
    mret (_calculate_squared_distance_profile m qt μ σ mt st)
  else
    q ← read QT_first i;
    _ ← write QT_odd 0 q;
    qt ← load QT_odd;
    μ ← read μ_Q i;
    σ ← read σ_Q i;
    mt ← load M_T;
    st ← load Σ_T;
    mret (_calculate_squared_distance_profile m qt μ σ mt st).

(** Source lines 141-146: the left index of row [i], from the masked
    profile [D]. *)
Definition left_index (ignore_trivial : bool) (zone_start zone_stop i : Z)
    (D : list (dist R)) : result Z :=
  if ignore_trivial && bool_decide (0 < i) then
    IL ← np_argmin (py_slice D None (Some i));
    if bool_decide (zone_start ≤ IL < zone_stop) then Ok (-1) else Ok IL
  else Ok (-1).

(** Source lines 148-153: the right index of row [i]. *)
Definition right_index (ignore_trivial : bool) (zone_start zone_stop i : Z)
    (D : list (dist R)) : result Z :=
  if ignore_trivial && bool_decide (i + 1 < Z.of_nat (length D)) then
    r ← np_argmin (py_slice D (Some (i + 1)) None);
    let IR := i + 1 + r in
    if bool_decide (zone_start ≤ IR < zone_stop) then Ok (-1) else Ok IR
  else Ok (-1).

(** Source lines 133-153: mask the exclusion zone and extract
    [P, (I, IL, IR)] from the distance profile [D] of row [i].  The first
    component of the result is the profile after masking. *)
Definition extract_row (ignore_trivial : bool) (excl_zone i : Z)
    (D : list (dist R)) : result (list (dist R) * (dist R * (Z * Z * Z))) :=
  let zone_start := Z.max 0 (i - excl_zone) in
  let zone_stop := i + excl_zone + 1 in
  let D := if ignore_trivial then slice_fill D zone_start zone_stop PInf else D in
  I ← np_argmin D;
  DI ← getitem D I;
  let P := np_sqrt DI in
  IL ← left_index ignore_trivial zone_start zone_stop i D;
  IR ← right_index ignore_trivial zone_start zone_stop i D;
  Ok (D, (P, (I, IL, IR))).

(** One iteration of the outer loop (source lines 111-157). *)
Definition row (T_A T_B : ref) (m range_stop excl_zone : Z)
    (M_T Σ_T QT_first μ_Q σ_Q : ref) (k : Z) (ignore_trivial : bool)
    (range_start : Z) (QT_odd QT_even : ref)
    (out : list (dist R) * list (Z * Z * Z)) (i : Z)
    : M R (list (dist R) * list (Z * Z * Z)) :=
  let '(profile, indices) := out in
  _ ← col_loop T_A T_B m k QT_odd QT_even i (py_range 1 k);
  D ← seed_and_profile m M_T Σ_T QT_first μ_Q σ_Q QT_odd QT_even i;
  '(_, (P, I3)) ← lift (extract_row ignore_trivial excl_zone i D);
  profile ← lift (setitem profile (i - range_start) P);
  indices ← lift (setitem indices (i - range_start) I3);
  mret (profile, indices).

Definition _mstump (T_A T_B : ref) (m range_stop excl_zone : Z)
    (M_T Σ_T QT QT_first μ_Q σ_Q : ref) (k : Z) (ignore_trivial : bool)
    (range_start : Z) : M R (list (dist R) * list (Z * Z * Z)) :=
  QT_odd ← copy QT;
  QT_even ← copy QT;
  profile ← lift (np_empty (range_stop - range_start) (Fin r0));
  indices ← lift (np_empty (range_stop - range_start) (0, 0, 0));
  for_loop
    (row T_A T_B m range_stop excl_zone M_T Σ_T QT_first μ_Q σ_Q k
         ignore_trivial range_start QT_odd QT_even)
    (profile, indices) (py_range range_start range_stop).
End Engine.

(** ** The driver [mstump] *)

(** What a global name of the module is bound to when [mstump] runs. *)
Inductive global :=
  | Imported
  | RecurrenceEngine
  | ProfileDriver.

(** The names bound at module level by [src/stumpy/mstump.py]: its imports
    (lines 1-5), [logger] (line 7) and its two [def]s (lines 10 and 161). *)
Definition module_namespace : gmap string global :=
  list_to_map [
    ("np", Imported); ("core", Imported); ("stamp", Imported);
    ("_get_first_stump_profile", Imported); ("_get_QT", Imported);
    ("_calculate_squared_distance_profile", Imported);
    ("njit", Imported); ("prange", Imported); ("logging", Imported);
    ("logger", Imported);
    ("_mstump", RecurrenceEngine); ("mstump", ProfileDriver)
  ]%string.

(** Looking up a global name; an unbound name raises [NameError]. *)
Definition resolve (ns : gmap string global) (name : string) : result global :=
  match ns !! name with
  | Some g => Ok g
  | None => Err (NameError name)
  end.

(** [int(np.ceil(m / 4))] *)
Definition ceil_quarter (m : Z) : Z := - ((- m) `div` 4).

(** [a[start:stop] = src] for an array [src]: the shapes must agree, a
    one-element [src] is broadcast. *)
Definition slice_assign {A} (a : list A) (start stop : Z) (src : list A)
    : result (list A) :=
  let lo := slice_bound (length a) start in
  let hi := slice_bound (length a) stop in
  if bool_decide (length src = hi - lo)%nat then
    Ok (take lo a ++ src ++ drop (lo + length src) a)
  else
    match src with
    | [v] => Ok (slice_fill a start stop v)
    | _ => Err ValueError
    end.

Section Driver.
Context `{Scalar R}.

Variable _calculate_squared_distance_profile :
  Z → list R → R → R → list R → list R → list (dist R).

(** The collaborators of the driver are defined in other files of the
    package ([core.py] and the package's [__init__]); each is a parameter,
    a function of the contents of the arrays it is given. *)

(** [core.check_dtype(a)]: [false] when it raises. *)
Variable check_dtype : list R → bool.
(** [core.are_arrays_equal(a, b)] *)
Variable are_arrays_equal : list R → list R → bool.
(** [core.compute_mean_std(T, m)] *)
Variable compute_mean_std : list R → Z → list R * list R.
(** [_get_first_stump_profile(start, T_A, T_B, m, excl_zone, M_T, Σ_T,
    ignore_trivial)] *)
Variable _get_first_stump_profile :
  Z → list R → list R → Z → Z → list R → list R → bool → dist R * (Z * Z * Z).
(** [_get_QT(start, T_A, T_B, m)] *)
Variable _get_QT : Z → list R → list R → Z → list R * list R.
(** [core.are_distances_too_small(a, threshold=10e-6)] *)
Variable are_distances_too_small : list (dist R) → bool.

Definition call_check_dtype (x : ref) : M R unit :=
  a ← load x;
  if check_dtype a then mret () else lift (Err InvalidInputError).

(** Calling the object a global name is bound to with the fourteen
    arguments of source lines 251-252.  Of the objects the module binds
    only the engine accepts them; calling any other raises [TypeError].  A
    binding of [_stump] to some other callable of fourteen arguments, such
    as the [_stump] of the package's [stump] module, is not represented:
    properties of the driver are stated for [_stump] unbound or bound to
    the engine. *)
Definition call_engine (g : global) (T_A T_B : ref) (m range_stop excl_zone : Z)
    (M_T Σ_T QT QT_first μ_Q σ_Q : ref) (k : Z) (ignore_trivial : bool)
    (range_start : Z) : M R (list (dist R) * list (Z * Z * Z)) :=
  match g with
  | RecurrenceEngine =>
      _mstump _calculate_squared_distance_profile T_A T_B m range_stop
        excl_zone M_T Σ_T QT QT_first μ_Q σ_Q k ignore_trivial range_start
  | ProfileDriver | Imported => lift (Err TypeError)
  end.

Definition mstump (ns : gmap string global) (T_A : ref) (m : Z)
    (T_B : option ref) (ignore_trivial : bool)
    : M R (list (dist R * (Z * Z * Z))) :=
  _ ← call_check_dtype T_A;
  let '(T_B, ignore_trivial) :=
    match T_B with
    | None => (T_A, true)
    | Some T_B => (T_B, ignore_trivial)
    end in
  _ ← call_check_dtype T_B;
  ta ← load T_A;
  tb ← load T_B;
  _ ← (if negb ignore_trivial && are_arrays_equal ta tb then
         _ ← warn "Arrays T_A, T_B are equal, which implies a self-join.";
         warn "Try setting `ignore_trivial = True`."
       else mret ());
  _ ← (if ignore_trivial && negb (are_arrays_equal ta tb) then
         _ ← warn "Arrays T_A, T_B are not equal, which implies an AB-join.";
         warn "Try setting `ignore_trivial = False`."
       else mret ());
  let n := Z.of_nat (length tb) in
  let k := Z.of_nat (length ta) - m + 1 in
  let l := n - m + 1 in
  let zone := ceil_quarter m in
  let '(mt, st) := compute_mean_std ta m in
  M_T ← new_array mt;
  Σ_T ← new_array st;
  let '(μq, σq) := compute_mean_std tb m in
  μ_Q ← new_array μq;
  σ_Q ← new_array σq;
  out ← lift (np_empty l (Fin r0, (0, 0, 0)));
  profile ← lift (np_empty l (Fin r0));
  indices ← lift (np_empty l (0, 0, 0));
  let start := 0 in
  let stop := l in
  let '(P0, I0) :=
    _get_first_stump_profile start ta tb m zone mt st ignore_trivial in
  profile ← lift (setitem profile start P0);
  indices ← lift (setitem indices start I0);
  let '(qt, qtf) := _get_QT start ta tb m in
  QT ← new_array qt;
  QT_first ← new_array qtf;
  _stump ← lift (resolve ns "_stump");
  '(profile_rest, indices_rest) ←
    call_engine _stump T_A T_B m stop zone M_T Σ_T QT QT_first μ_Q σ_Q k
      ignore_trivial (start + 1);
  profile ← lift (slice_assign profile (start + 1) stop profile_rest);
  indices ← lift (slice_assign indices (start + 1) stop indices_rest);
  let out := zip profile indices in
  _ ← (if are_distances_too_small (fst <$> out) then
         _ ← warn "A large number of values are smaller than 1e-05.";
         warn "For a self-join, try setting `ignore_trivial = True`."
       else mret ());
  mret out.
End Driver.

(** ** Instances for running the model: integer scalars

    [Z_Scalar] computes exactly on integers; its [rsqrt] is the integer
    square root, so the distances of the concrete runs below are the
    floors of those of [np.sqrt]. *)

#[export] Instance Z_Scalar : Scalar Z := {
  r0 := 0; r1 := 1;
  radd := Z.add; rmul := Z.mul; rsub := Z.sub; ropp := Z.opp;
  rltb := Z.ltb;
  rsqrt := Z.sqrt;
  rltb_irrefl := Z.ltb_irrefl;
  rltb_trans := λ x y z Hxy Hyz,
    proj2 (Z.ltb_lt x z) (Z.lt_trans _ _ _ (proj1 (Z.ltb_lt x y) Hxy) (proj1 (Z.ltb_lt y z) Hyz));
  rltb_total := λ x y Hxy Hyx,
    Z.le_antisymm _ _ (proj1 (Z.ltb_ge y x) Hyx) (proj1 (Z.ltb_ge x y) Hxy);
}.

#[export] Instance Z_Exact : ExactScalar Z := {| exact_ring := Zth |}.

(** [float64] on integer values.  A [float64] holds an integer exactly
    when 53 significant bits are enough for it, and the result of an
    operation is the exact result rounded to the nearest such number, ties
    going to the even significand.  [round_f64] is that rounding on
    integers (overflow, beyond [2^1023], is left out) and [F64] the
    scalars whose operations round with it. *)
Definition round_f64 (x : Z) : Z :=
  let a := Z.abs x in
  let e := Z.log2 a - 52 in
  if bool_decide (e ≤ 0) then x
  else
    let q := a `div` 2 ^ e in
    let r := a `mod` 2 ^ e in
    let half := 2 ^ (e - 1) in
    let q' :=
      if bool_decide (r < half) then q
      else if bool_decide (half < r) then q + 1
      else if Z.even q then q else q + 1 in
    Z.sgn x * (q' * 2 ^ e).

Definition F64 : Scalar Z := {|
  r0 := 0; r1 := 1;
  radd := λ x y, round_f64 (x + y);
  rmul := λ x y, round_f64 (x * y);
  rsub := λ x y, round_f64 (x - y);
  ropp := Z.opp;
  rltb := Z.ltb;
  rsqrt := Z.sqrt;
  rltb_irrefl := Z.ltb_irrefl;
  rltb_trans := λ x y z Hxy Hyz,
    proj2 (Z.ltb_lt x z) (Z.lt_trans _ _ _ (proj1 (Z.ltb_lt x y) Hxy) (proj1 (Z.ltb_lt y z) Hyz));
  rltb_total := λ x y Hxy Hyx,
    Z.le_antisymm _ _ (proj1 (Z.ltb_ge y x) Hyx) (proj1 (Z.ltb_ge x y) Hxy);
|}.

(** ** Vocabulary of the statements *)

Section Vocabulary.
Context `{Scalar R}.

(** [n] is the first index at which [D] takes its minimum. *)
Definition first_min (D : list (dist R)) (n : nat) : Prop :=
  ∃ d, D !! n = Some d
    ∧ (∀ j y, D !! j = Some y → dist_ltb y d = false)
    ∧ (∀ j y, (j < n)%nat → D !! j = Some y → dist_ltb d y = true).

(** [x] lies in the exclusion zone [[i - zone, i + zone]] of row [i]. *)
Definition in_zone (i zone x : Z) : Prop := i - zone ≤ x ≤ i + zone.

(** The distance profile of row [i] after source line 136. *)
Definition masked (ignore_trivial : bool) (excl_zone i : Z)
    (D : list (dist R)) : list (dist R) :=
  if ignore_trivial
  then slice_fill D (Z.max 0 (i - excl_zone)) (i + excl_zone + 1) PInf
  else D.

(** The buffer row [i] writes and the buffer it reads, among the odd and
    the even one. *)
Definition live_buffer (i : Z) (QT_odd QT_even : ref) : ref :=
  if bool_decide (i `mod` 2 = 0) then QT_even else QT_odd.
Definition prev_buffer (i : Z) (QT_odd QT_even : ref) : ref :=
  if bool_decide (i `mod` 2 = 0) then QT_odd else QT_even.

(** The right-hand side of source lines 121 and 124 for column [j] of row
    [i], on the contents [ta], [tb] of the series and [prev] of the buffer
    that is read. *)
Definition col_value (ta tb prev : list R) (m i j : Z) : result R :=
  q ← getitem prev (j - 1);
  b0 ← getitem tb (i - 1);
  a0 ← getitem ta (j - 1);
  b1 ← getitem tb (i + m - 1);
  a1 ← getitem ta (j + m - 1);
  Ok (q - b0 * a0 + b1 * a1)%S.

(** One column update, on the contents [live] of the buffer written. *)
Definition col_step (ta tb prev : list R) (m k i : Z) (live : list R)
    (rev_j : Z) : result (list R) :=
  v ← col_value ta tb prev m i (k - rev_j);
  setitem live (k - rev_j) v.

(** [a[i]] for an index known to be in range ([r0] otherwise). *)
Definition elt (a : list R) (i : Z) : R := nth (Z.to_nat i) a r0.

(** The incremental update of the specification: the buffer of row [i]
    from the buffer [prev] of row [i - 1],
    [live[j] = prev[j-1] - T_B[i-1]·T_A[j-1] + T_B[i+m-1]·T_A[j+m-1]] for
    [1 ≤ j < k], and [live[0] = QT_first[i]]. *)
Definition incremental_row (ta tb qtf prev : list R) (m k i : Z) : list R :=
  elt qtf i ::
  ((λ j, (elt prev (j - 1) - elt tb (i - 1) * elt ta (j - 1)
          + elt tb (i + m - 1) * elt ta (j + m - 1))%S)
     <$> seqZ 1 (k - 1)).

(** The buffer after the first [n] rows of a call with initial buffer
    [qt0], that is after rows [range_start, ..., range_start + n - 1]. *)
Fixpoint buffer_after (ta tb qtf : list R) (m k range_start : Z)
    (qt0 : list R) (n : nat) : list R :=
  match n with
  | O => qt0
  | S n' =>
      incremental_row ta tb qtf
        (buffer_after ta tb qtf m k range_start qt0 n') m k
        (range_start + Z.of_nat n')
  end.

(** The dot product of two windows, computed directly. *)
Definition dot (a b : list R) : R :=
  foldr (λ xy acc, (xy.1 * xy.2 + acc)%S) r0 (zip a b).

(** [a[i : i+m]] *)
Definition window (a : list R) (i m : Z) : list R :=
  take (Z.to_nat m) (drop (Z.to_nat i) a).

(** The dot product of [T_B[i..i+m-1]] with [T_A[j..j+m-1]]. *)
Definition sliding_dot (ta tb : list R) (m i j : Z) : R :=
  dot (window tb i m) (window ta j m).

(** The dot products of query window [i] with the [k] reference windows. *)
Definition direct_row (ta tb : list R) (m k i : Z) : list R :=
  sliding_dot ta tb m i <$> seqZ 0 k.

(** *** The column loop run in parallel

    Under [prange] the iterations of the column loop run concurrently.  An
    iteration first fetches its operands and computes the right-hand side
    of line 121 or 124 ([col_fetch]), and later commits the value to its
    column ([col_commit]); between the two, steps of other iterations may
    take place.  A run is a list of such steps. *)
Inductive step :=
  | Fetch (rev_j : Z)
  | Commit (rev_j : Z).

Definition col_fetch (T_A T_B : ref) (m k : Z) (QT_odd QT_even : ref)
    (i rev_j : Z) : M R R :=
  let j := k - rev_j in
  q ← read (prev_buffer i QT_odd QT_even) (j - 1);
  b0 ← read T_B (i - 1);
  a0 ← read T_A (j - 1);
  b1 ← read T_B (i + m - 1);
  a1 ← read T_A (j + m - 1);
  mret (q - b0 * a0 + b1 * a1)%S.

Definition col_commit (k : Z) (QT_odd QT_even : ref) (i rev_j : Z) (v : R)
    : M R unit :=
  write (live_buffer i QT_odd QT_even) (k - rev_j) v.

(** [pending] holds the values fetched so far.  A commit without a
    fetched value is not a run of the loop (see [interleaving]); the model
    stops there with an error. *)
Fixpoint run_interleaved (T_A T_B : ref) (m k : Z) (QT_odd QT_even : ref)
    (i : Z) (pending : gmap Z R) (steps : list step) : M R unit :=
  match steps with
  | [] => mret ()
  | Fetch rev_j :: steps' =>
      v ← col_fetch T_A T_B m k QT_odd QT_even i rev_j;
      run_interleaved T_A T_B m k QT_odd QT_even i (<[rev_j:=v]> pending) steps'
  | Commit rev_j :: steps' =>
      match pending !! rev_j with
      | Some v =>
          _ ← col_commit k QT_odd QT_even i rev_j v;
          run_interleaved T_A T_B m k QT_odd QT_even i pending steps'
      | None => lift (Err ValueError)
      end
  end.

(** The iterations that fetch, and those that commit, in their order. *)
Definition fetches (steps : list step) : list Z :=
  omap (λ st, match st with Fetch rev_j => Some rev_j | Commit _ => None end) steps.
Definition commits (steps : list step) : list Z :=
  omap (λ st, match st with Commit rev_j => Some rev_j | Fetch _ => None end) steps.

(** Every commit comes after the fetch of its iteration ([fetched] are the
    iterations that have fetched before [steps]). *)
Fixpoint fetch_first (fetched : list Z) (steps : list step) : bool :=
  match steps with
  | [] => true
  | Fetch rev_j :: steps' => fetch_first (rev_j :: fetched) steps'
  | Commit rev_j :: steps' =>
      bool_decide (rev_j ∈ fetched) && fetch_first fetched steps'
  end.

(** [steps] is a parallel run of the iterations [rev_js]: each iteration
    fetches once, commits once, and fetches before it commits. *)
Definition interleaving (rev_js : list Z) (steps : list step) : Prop :=
  fetches steps ≡ₚ rev_js
  ∧ commits steps ≡ₚ rev_js
  ∧ fetch_first [] steps = true.

(** In the store [s], the arrays of the store [s0] are as they were, the
    buffer row [i] reads holds [prev] and the buffer it writes holds
    [live]. *)
Definition buffers_at (s0 : mem R) (i : Z) (QT_odd QT_even : ref)
    (prev live : list R) (s : mem R) : Prop :=
  arrays s !! prev_buffer i QT_odd QT_even = Some prev
  ∧ arrays s !! live_buffer i QT_odd QT_even = Some live
  ∧ ∀ x, x ∈ dom (arrays s0) → arrays s !! x = arrays s0 !! x.

(** Slot [r] of the output arrays holds the row that [extract_row] gives
    for row [i] on the distance profile [D]. *)
Definition emits (ignore_trivial : bool) (excl_zone i : Z) (D : list (dist R))
    (profile : list (dist R)) (indices : list (Z * Z * Z)) (r : nat) : Prop :=
  ∃ P I3,
    extract_row ignore_trivial excl_zone i D
      = Ok (masked ignore_trivial excl_zone i D, (P, I3))
    ∧ profile !! r = Some P
    ∧ indices !! r = Some I3.

(** A call of the engine on in-range inputs: its array arguments refer to
    arrays of the store with the contents [ta], ..., [σs], and every index
    the loops form is within bounds: windows of length [m ≥ 1], rows
    [1 ≤ range_start ≤ i < range_stop] that are windows of [T_B], [k ≥ 1]
    reference windows of [T_A], a [QT] of length [k], and an entry for
    every row in [QT_first], [μ_Q] and [σ_Q]. *)
Record in_range_call (s : mem R)
    (T_A T_B M_T Σ_T QT QT_first μ_Q σ_Q : ref)
    (ta tb mt st qt0 qtf μs σs : list R)
    (m k range_start range_stop : Z) : Prop := {
  call_T_A : arrays s !! T_A = Some ta;
  call_T_B : arrays s !! T_B = Some tb;
  call_M_T : arrays s !! M_T = Some mt;
  call_Σ_T : arrays s !! Σ_T = Some st;
  call_QT : arrays s !! QT = Some qt0;
  call_QT_first : arrays s !! QT_first = Some qtf;
  call_μ_Q : arrays s !! μ_Q = Some μs;
  call_σ_Q : arrays s !! σ_Q = Some σs;
  call_m : 1 ≤ m;
  call_range : 1 ≤ range_start ≤ range_stop;
  call_rows : range_stop ≤ Z.of_nat (length tb) - m + 1;
  call_k : 1 ≤ k ≤ Z.of_nat (length ta) - m + 1;
  call_QT_length : length qt0 = Z.to_nat k;
  call_QT_first_length : range_stop ≤ Z.of_nat (length qtf);
  call_μ_Q_length : range_stop ≤ Z.of_nat (length μs);
  call_σ_Q_length : range_stop ≤ Z.of_nat (length σs);
}.

(** The live dot-product buffer of row [i] of such a call, as the
    incremental update gives it, and the distance profile the kernel [K]
    computes from it. *)
Definition row_buffer (ta tb qtf qt0 : list R) (m k range_start i : Z) : list R :=
  buffer_after ta tb qtf m k range_start qt0 (S (Z.to_nat (i - range_start))).

Definition row_profile (K : Z → list R → R → R → list R → list R → list (dist R))
    (ta tb mt st qt0 qtf μs σs : list R) (m k range_start i : Z)
    : list (dist R) :=
  K m (row_buffer ta tb qtf qt0 m k range_start i) (elt μs i) (elt σs i) mt st.

(** [c] returns on every store. *)
Definition succeeds {A} (c : M R A) : Prop :=
  ∀ s, ∃ s' a, c s = (s', Ok a).

(** [c] raises [e] on every store. *)
Definition raises {A} (e : error) (c : M R A) : Prop :=
  ∀ s, (c s).2 = Err e.

(** [c] leaves the warnings and every array outside [X] as they were,
    whether it returns or raises. *)
Definition writes_only {A} (X : list ref) (c : M R A) : Prop :=
  ∀ s s' r, c s = (s', r) →
    warnings s' = warnings s
    ∧ ∀ x, x ∉ X → arrays s' !! x = arrays s !! x.

(** Two outcomes of the engine have the same shape: both raise the same
    exception, or both return arrays of the same lengths. *)
Definition same_outcome
    (r r' : result (list (dist R) * list (Z * Z * Z))) : Prop :=
  match r, r' with
  | Ok (p, ix), Ok (p', ix') => length p = length p' ∧ length ix = length ix'
  | Err e, Err e' => e = e'
  | _, _ => False
  end.

(** [c] leaves every array that exists when it starts as it was, whether
    it returns or raises. *)
Definition keeps_existing {A} (c : M R A) : Prop :=
  ∀ s s' r, c s = (s', r) →
    ∀ x, x ∈ dom (arrays s) → arrays s' !! x = arrays s !! x.

(** [c] logs nothing. *)
Definition silent {A} (c : M R A) : Prop :=
  ∀ s, warnings (c s).1 = warnings s.

(** [c] logs nothing, or the lines [msgs] and nothing else. *)
Definition logs_at_most {A} (msgs : list string) (c : M R A) : Prop :=
  ∀ s, ∃ rest, warnings (c s).1 = warnings s ++ rest
               ∧ (rest = [] ∨ rest = msgs).
End Vocabulary.

(** The hints of source lines 221-227, for the value [ignore_trivial] has
    there and the answer [equal] of [core.are_arrays_equal]. *)
Definition mismatch_hints (ignore_trivial equal : bool) : list string :=
  if negb ignore_trivial && equal then
    ["Arrays T_A, T_B are equal, which implies a self-join.";
     "Try setting `ignore_trivial = True`."]%string
  else if ignore_trivial && negb equal then
    ["Arrays T_A, T_B are not equal, which implies an AB-join.";
     "Try setting `ignore_trivial = False`."]%string
  else [].

(** The hint of source lines 258-260. *)
Definition small_distance_hints : list string :=
  ["A large number of values are smaller than 1e-05.";
   "For a self-join, try setting `ignore_trivial = True`."]%string.

(** *** Updates without rounding error

    [val] gives the number a scalar of the code stands for, in scalars [E]
    whose arithmetic is exact. *)
Section Exactness.
Context `{Scalar R} `{Scalar E}.
Variable val : R → E.

(** The right-hand side of lines 121 and 124 on the operands [q], [b0],
    [a0], [b1], [a1] incurs no rounding error: its result stands for the
    exact result on the numbers the operands stand for. *)
Definition exact_update (q b0 a0 b1 a1 : R) : Prop :=
  val (q - b0 * a0 + b1 * a1)%S
  = (val q - val b0 * val a0 + val b1 * val a1)%S.

(** No column update of row [i] of a call incurs a rounding error. *)
Definition exact_row (ta tb qtf qt0 : list R) (m k range_start i : Z) : Prop :=
  let prev :=
    buffer_after ta tb qtf m k range_start qt0 (Z.to_nat (i - range_start)) in
  ∀ j, 1 ≤ j < k →
    exact_update (elt prev (j - 1)) (elt tb (i - 1)) (elt ta (j - 1))
      (elt tb (i + m - 1)) (elt ta (j + m - 1)).
End Exactness.

(** A call of the driver in which every access of the engine is in range:
    windows of length [m ≥ 1] that fit in both series, and collaborators
    that return [k] dot products and an entry per query window. *)
Definition driver_call_in_range {R}
    (compute_mean_std : list R → Z → list R * list R)
    (_get_QT : Z → list R → list R → Z → list R * list R)
    (s : mem R) (T_A : ref) (m : Z) (T_B : option ref) (ta tb : list R) : Prop :=
  let k := Z.of_nat (length ta) - m + 1 in
  let l := Z.of_nat (length tb) - m + 1 in
  arrays s !! T_A = Some ta
  ∧ arrays s !! default T_A T_B = Some tb
  ∧ 1 ≤ m ∧ m ≤ Z.of_nat (length ta) ∧ m ≤ Z.of_nat (length tb)
  ∧ l ≤ Z.of_nat (length (compute_mean_std tb m).1)
  ∧ l ≤ Z.of_nat (length (compute_mean_std tb m).2)
  ∧ length (_get_QT 0 ta tb m).1 = Z.to_nat k
  ∧ l ≤ Z.of_nat (length (_get_QT 0 ta tb m).2).


(** ** Concrete inputs

    The series [1, 2, ..., 8] with windows of length [m = 3], as a
    self-join.  The kernel used to run the engine on integers is the
    squared Euclidean distance [|Q|² + |T_j|² - 2·QT[j]], for which the
    caller passes the squared norms of the windows in [σ_Q] and [Σ_T]; it
    stands in for the z-normalised kernel, which needs division. *)

Definition euclid_profile (m : Z) (QT : list Z) (μ σ : Z) (M_T Σ_T : list Z)
    : list (dist Z) :=
  imap (λ j q, Fin (σ + nth j Σ_T 0 - 2 * q)) QT.

Module Demo.
Definition T : ref := 1%positive.
Definition QT : ref := 2%positive.
Definition Mu : ref := 3%positive.
Definition Sq : ref := 4%positive.

(** [T]; the dot products of window 0 with every window; the window
    means (unused by [euclid_profile]); the squared norms of the
    windows. *)
Definition store : mem Z :=
  Mem (list_to_map [
    (T, [1; 2; 3; 4; 5; 6; 7; 8]);
    (QT, [14; 20; 26; 32; 38; 44]);
    (Mu, [2; 3; 4; 5; 6; 7]);
    (Sq, [14; 29; 50; 77; 110; 149])
  ]) [].

(** [_mstump(T, T, 3, 6, 1, M_T, Σ_T, QT, QT_first, μ_Q, σ_Q, 6,
    ignore_trivial, 1)] *)
Definition run (ignore_trivial : bool) :=
  _mstump euclid_profile T T 3 6 1 Mu Sq QT QT Mu Sq 6 ignore_trivial 1 store.

(** A series of six points with [m = 4]: three windows, zone
    [ceil(4/4) = 1]. *)
Definition short_store : mem Z :=
  Mem (list_to_map [
    (T, [1; 2; 3; 4; 5; 6]);
    (QT, [30; 40; 50]);
    (Mu, [2; 3; 4]);
    (Sq, [30; 54; 86])
  ]) [].

Definition short_run :=
  _mstump euclid_profile T T 4 3 1 Mu Sq QT QT Mu Sq 3 true 1 short_store.

(** A call that starts at row 2 with the dot products of window 0 in
    [QT], as an AB-join. *)
Definition run_from_2 :=
  _mstump euclid_profile T T 3 3 1 Mu Sq QT QT Mu Sq 6 false 2 store.

(** Collaborators for running the driver on integers: window sums and
    squared norms in place of the mean and the standard deviation, row 0
    and the dot products of row 0 and of column 0 computed directly. *)
Definition int_windows (T : list Z) (m : Z) : list (list Z) :=
  (λ i, window T i m) <$> seqZ 0 (Z.of_nat (length T) - m + 1).

Definition int_mean_std (T : list Z) (m : Z) : list Z * list Z :=
  ((λ w, foldr Z.add 0 w) <$> int_windows T m,
   (λ w, dot w w) <$> int_windows T m).

Definition int_first_profile (start : Z) (ta tb : list Z) (m zone : Z)
    (mt st : list Z) (ignore_trivial : bool) : dist Z * (Z * Z * Z) :=
  let k := Z.of_nat (length ta) - m + 1 in
  let q := window tb start m in
  match extract_row ignore_trivial zone start
          (euclid_profile m (direct_row ta tb m k start)
             (foldr Z.add 0 q) (dot q q) mt st) with
  | Ok (_, row) => row
  | Err _ => (PInf, (0, -1, -1))
  end.

Definition int_get_QT (start : Z) (ta tb : list Z) (m : Z) : list Z * list Z :=
  (direct_row ta tb m (Z.of_nat (length ta) - m + 1) start,
   (λ i, sliding_dot ta tb m i 0) <$> seqZ 0 (Z.of_nat (length tb) - m + 1)).

(** A store that holds the series only. *)
Definition series_store : mem Z :=
  Mem (list_to_map [(T, [1; 2; 3; 4; 5; 6; 7; 8])]) [].

(** [mstump(T, m, T_B, ignore_trivial)] with the global names of [ns]. *)
Definition drive (ns : gmap string global) (m : Z) (T_B : option ref)
    (ignore_trivial : bool) :=
  mstump euclid_profile (λ _, true) (λ a b, bool_decide (a = b))
    int_mean_std int_first_profile int_get_QT (λ _, false)
    ns T m T_B ignore_trivial series_store.

(** The module's names with [_stump] bound to the engine in addition. *)
Definition namespace_with_stump : gmap string global :=
  <["_stump"%string := RecurrenceEngine]> module_namespace.

(** [store] after the two copies of [QT] at the start of the engine. *)
Definition QT_odd : ref := 5%positive.
Definition QT_even : ref := 6%positive.
Definition store_with_buffers : mem Z :=
  update QT_even [14; 20; 26; 32; 38; 44]
    (update QT_odd [14; 20; 26; 32; 38; 44] store).

(** [store] with one more array, the dot products of window 2 with every
    window: the [QT] of a call that starts at row 3. *)
Definition QT_row2 : ref := 7%positive.
Definition store_with_row2 : mem Z :=
  update QT_row2 [26; 38; 50; 62; 74; 86] store.

(** The call [run true] computed in [float64]. *)
Definition run_f64 :=
  @_mstump Z F64 euclid_profile T T 3 6 1 Mu Sq QT QT Mu Sq 6 true 1 store.

(** A series on which the recurrence cancels in [float64]:
    [0, 2^30, 2, 2, 2] with [m = 2], as a self-join.  [QT] holds the dot
    products of window 0 with the four windows, [Mu] the means of the
    windows and [Sq] their standard deviations, all of them integers. *)
Definition cancel_store : mem Z :=
  Mem (list_to_map [
    (T, [0; 1073741824; 2; 2; 2]);
    (QT, [1152921504606846976; 2147483648; 2147483648; 2147483648]);
    (Mu, [536870912; 536870913; 2; 2]);
    (Sq, [536870912; 536870911; 0; 0])
  ]) [].

(** [_mstump(T, T, 2, 3, 1, M_T, Σ_T, QT, QT_first, μ_Q, σ_Q, 4, True, 1)]
    on it, in [float64]: rows 1 and 2 of the call the driver makes. *)
Definition cancel_run :=
  @_mstump Z F64 euclid_profile T T 2 3 1 Mu Sq QT QT Mu Sq 4 true 1
    cancel_store.
End Demo.

(** * Properties *)

(** ** Running computations *)

Section Run.
Context {R : Type}.
Implicit Types s : mem R.

Lemma run_bind {A B} (c : M R A) (f : A → M R B) s :
  (c ≫= f) s =
    match c s with
    | (s', Ok a) => f a s'
    | (s', Err e) => (s', Err e)
    end.
Proof. reflexivity. Qed.

Lemma run_bind_ok {A B} (c : M R A) (f : A → M R B) s s1 a :
  c s = (s1, Ok a) → (c ≫= f) s = f a s1.
Proof. intros Hc. rewrite run_bind, Hc. reflexivity. Qed.

Lemma run_bind_err {A B} (c : M R A) (f : A → M R B) s s1 e :
  c s = (s1, Err e) → (c ≫= f) s = (s1, Err e).
Proof. intros Hc. rewrite run_bind, Hc. reflexivity. Qed.

Lemma bind_ok_inv {A B} (c : M R A) (f : A → M R B) s s' b :
  (c ≫= f) s = (s', Ok b) →
  ∃ s1 a, c s = (s1, Ok a) ∧ f a s1 = (s', Ok b).
Proof.
  rewrite run_bind. destruct (c s) as [s1 [a|e]]; [eauto | discriminate].
Qed.

Lemma lift_ok_inv {A} (r : result A) s s' a :
  lift r s = (s', Ok a) → s' = s ∧ r = Ok a.
Proof. unfold lift. intros [= -> ->]. auto. Qed.

Lemma mret_ok_inv {A} (x : A) s s' a :
  (mret x : M R A) s = (s', Ok a) → s' = s ∧ a = x.
Proof. intros [= -> ->]. auto. Qed.
End Run.

(** Splits a successful run of [c ≫= f] into the runs of [c] and of [f]. *)
Ltac bind_inv H :=
  let s1 := fresh "s" in
  let a := fresh "a" in
  let H1 := fresh "Hrun" in
  apply bind_ok_inv in H as (s1 & a & H1 & H).

(** ** Indexing *)

Lemma py_index_nonneg len i n :
  0 ≤ i → py_index len i = Ok n → n = Z.to_nat i ∧ (n < len)%nat.
Proof.
  unfold py_index. intros Hi.
  repeat case_bool_decide; intros [= <-]; lia.
Qed.

Lemma py_index_in_range len i :
  0 ≤ i < Z.of_nat len → py_index len i = Ok (Z.to_nat i).
Proof. intros Hi. unfold py_index. rewrite bool_decide_true; done. Qed.

Lemma getitem_in_range {A} (a : list A) i x :
  0 ≤ i → a !! Z.to_nat i = Some x → getitem a i = Ok x.
Proof.
  intros Hi Hx. unfold getitem.
  rewrite py_index_in_range by (apply lookup_lt_Some in Hx; lia).
  cbn. rewrite Hx. reflexivity.
Qed.

Lemma getitem_nonneg_inv {A} (a : list A) i x :
  0 ≤ i → getitem a i = Ok x → a !! Z.to_nat i = Some x.
Proof.
  intros Hi. unfold getitem.
  destruct (py_index (length a) i) as [n|] eqn:Hn; [|discriminate].
  apply py_index_nonneg in Hn as [-> _]; [|done]. cbn.
  destruct (a !! Z.to_nat i); [congruence|discriminate].
Qed.

Lemma setitem_in_range {A} (a : list A) i v :
  0 ≤ i < Z.of_nat (length a) → setitem a i v = Ok (<[Z.to_nat i:=v]> a).
Proof. intros Hi. unfold setitem. rewrite py_index_in_range; done. Qed.

Lemma setitem_nonneg_inv {A} (a a' : list A) i v :
  0 ≤ i → setitem a i v = Ok a' →
  a' = <[Z.to_nat i:=v]> a ∧ (Z.to_nat i < length a)%nat.
Proof.
  intros Hi. unfold setitem.
  destruct (py_index (length a) i) as [n|] eqn:Hn; [|discriminate].
  apply py_index_nonneg in Hn as [-> ?]; [|done]. cbn. intros [= <-]. done.
Qed.

Lemma slice_fill_length {A} (a : list A) lo hi v :
  length (slice_fill a lo hi v) = length a.
Proof. unfold slice_fill. apply length_imap. Qed.

Lemma slice_fill_lookup {A} (a : list A) lo hi v n :
  slice_fill a lo hi v !! n =
    (λ x, if bool_decide (slice_bound (length a) lo ≤ n
                          < slice_bound (length a) hi)%nat then v else x)
      <$> a !! n.
Proof. unfold slice_fill. apply list_lookup_imap. Qed.

(** ** The order on profile entries and [np.argmin] *)

Section Argmin.
Context `{Scalar R}.
Implicit Types (a b c : dist R) (D : list (dist R)).

Lemma dist_ltb_irrefl a : dist_ltb a a = false.
Proof. destruct a; cbn; [apply rltb_irrefl | done]. Qed.

Lemma dist_ltb_trans a b c :
  dist_ltb a b = true → dist_ltb b c = true → dist_ltb a c = true.
Proof. destruct a, b, c; cbn; try done. apply rltb_trans. Qed.

Lemma dist_ltb_total a b :
  dist_ltb a b = false → dist_ltb b a = false → a = b.
Proof.
  destruct a, b; cbn; try done.
  intros Hab Hba. f_equal. by apply rltb_total.
Qed.

(** If [a] is below [b] and [c] is not below [b], then [a] is below [c]. *)
Lemma dist_ltb_below a b c :
  dist_ltb a b = true → dist_ltb c b = false → dist_ltb a c = true.
Proof.
  intros Hab Hcb. destruct (dist_ltb a c) eqn:Hac; [done|].
  destruct (dist_ltb c a) eqn:Hca.
  - rewrite (dist_ltb_trans c a b) in Hcb; done.
  - rewrite (dist_ltb_total a c) in Hab; congruence.
Qed.

Lemma dist_ltb_not_below a b c :
  dist_ltb a b = true → dist_ltb c b = false → dist_ltb c a = false.
Proof.
  intros Hab Hcb. destruct (dist_ltb c a) eqn:Hca; [|done].
  rewrite (dist_ltb_trans c a b) in Hcb; done.
Qed.

(** The scan of [np.argmin]: [pre] has been seen, its first minimum is
    at [best_i] with value [best], and [l] is still to be seen. *)
Lemma argmin_from_spec l : ∀ pre best_i best,
  first_min pre best_i → pre !! best_i = Some best →
  first_min (pre ++ l) (argmin_from best_i best (length pre) l).
Proof.
  induction l as [|x l IH]; intros pre best_i best Hmin Hbest; cbn.
  - by rewrite app_nil_r.
  - destruct Hmin as (d & Hd & Hle & Hlt).
    assert (d = best) as -> by congruence.
    assert (best_i < length pre)%nat by by eapply lookup_lt_Some.
    replace (pre ++ x :: l) with ((pre ++ [x]) ++ l)
      by by rewrite <- app_assoc.
    replace (S (length pre)) with (length (pre ++ [x]))
      by (rewrite length_app; cbn; lia).
    destruct (dist_ltb x best) eqn:Hx.
    + apply IH; [|by rewrite lookup_app_r, Nat.sub_diag by lia].
      exists x. split; [by rewrite lookup_app_r, Nat.sub_diag by lia|].
      split.
      * intros j y Hj. apply lookup_app_Some in Hj as [Hj|[_ Hj]].
        -- eapply dist_ltb_not_below; eauto.
        -- apply list_lookup_singleton_Some in Hj as [_ <-].
           apply dist_ltb_irrefl.
      * intros j y Hlen Hj. rewrite lookup_app_l in Hj by done.
        eapply dist_ltb_below; eauto.
    + apply IH; [|by rewrite lookup_app_l].
      exists best. split; [by rewrite lookup_app_l|]. split.
      * intros j y Hj. apply lookup_app_Some in Hj as [Hj|[_ Hj]]; [eauto|].
        apply list_lookup_singleton_Some in Hj as [_ <-]. done.
      * intros j y Hlen Hj. rewrite lookup_app_l in Hj by lia. eauto.
Qed.

Lemma np_argmin_spec D I :
  np_argmin D = Ok I → ∃ n, I = Z.of_nat n ∧ first_min D n.
Proof.
  destruct D as [|x l]; [discriminate|]. cbn. intros [= <-].
  eexists; split; [reflexivity|].
  apply (argmin_from_spec l [x] 0%nat x); [|done].
  exists x. split; [done|]. split.
  - intros [|j] y [=]. subst. apply dist_ltb_irrefl.
  - intros j y Hj. lia.
Qed.

Lemma np_argmin_nonempty D :
  D ≠ [] → ∃ I, np_argmin D = Ok I.
Proof. destruct D; [done|]. cbn. eauto. Qed.

Lemma first_min_lt D n : first_min D n → (n < length D)%nat.
Proof. intros (d & Hd & _). by eapply lookup_lt_Some. Qed.

(** On a profile whose entries are all [+inf] the first minimum is at 0. *)
Lemma first_min_all_inf D n :
  (∀ j y, D !! j = Some y → y = PInf) → first_min D n → n = 0%nat.
Proof.
  intros Hall (d & Hd & _ & Hlt).
  destruct n as [|n]; [done|].
  destruct (D !! 0%nat) as [y|] eqn:Hy.
  - specialize (Hlt 0%nat y ltac:(lia) Hy).
    rewrite (Hall _ _ Hd) in Hlt. done.
  - apply lookup_ge_None in Hy. apply lookup_lt_Some in Hd. lia.
Qed.
End Argmin.

(** ** Extraction of one row from its distance profile *)

Lemma result_bind_ok_inv {A B} (r : result A) (f : A → result B) b :
  r ≫= f = Ok b → ∃ a, r = Ok a ∧ f a = Ok b.
Proof. destruct r as [a|e]; [eauto | discriminate]. Qed.

Lemma py_slice_prefix_length {A} (D : list A) i :
  0 ≤ i → Z.of_nat (length (py_slice D None (Some i))) ≤ i.
Proof.
  intros Hi. unfold py_slice, slice_bound. cbn.
  rewrite bool_decide_false by lia. rewrite length_take, length_drop. lia.
Qed.

Lemma py_slice_suffix_length {A} (D : list A) i :
  0 ≤ i →
  Z.of_nat (length (py_slice D (Some i) None))
  = Z.max 0 (Z.of_nat (length D) - i).
Proof.
  intros Hi. unfold py_slice, slice_bound. cbn.
  rewrite bool_decide_false by lia. rewrite length_take, length_drop. lia.
Qed.

Section ExtractRow.
Context `{Scalar R}.
Implicit Types (D : list (dist R)).

Lemma masked_length ign zone i D : length (masked ign zone i D) = length D.
Proof. destruct ign; cbn; [apply slice_fill_length | done]. Qed.

(** Entries of the zone are [+inf] after masking. *)
Lemma masked_zone_inf zone i D n y :
  in_zone i zone (Z.of_nat n) →
  masked true zone i D !! n = Some y → y = PInf.
Proof.
  unfold in_zone. intros Hz. cbn. rewrite slice_fill_lookup.
  destruct (D !! n) as [x|] eqn:Hx; [|discriminate]. cbn.
  apply lookup_lt_Some in Hx.
  rewrite bool_decide_true; [congruence|].
  unfold slice_bound. repeat case_bool_decide; lia.
Qed.

(** Entries outside the zone are kept by the masking. *)
Lemma masked_outside zone i D n :
  0 ≤ i + zone + 1 →
  ¬ in_zone i zone (Z.of_nat n) →
  masked true zone i D !! n = D !! n.
Proof.
  unfold in_zone. intros Hstop Hz. cbn. rewrite slice_fill_lookup.
  destruct (D !! n) as [x|] eqn:Hx; [|done]. cbn.
  apply lookup_lt_Some in Hx.
  rewrite bool_decide_false; [done|].
  unfold slice_bound. repeat case_bool_decide; lia.
Qed.

(** A finite entry of the masked profile lies outside the zone. *)
Lemma masked_finite_outside zone i D n x :
  masked true zone i D !! n = Some (Fin x) → ¬ in_zone i zone (Z.of_nat n).
Proof. intros Hn Hz. by apply masked_zone_inf in Hn. Qed.

Lemma left_index_inv ign zone i D IL :
  left_index ign (Z.max 0 (i - zone)) (i + zone + 1) i D = Ok IL →
  IL = -1
  ∨ ign = true ∧ 0 < i
    ∧ ¬ (Z.max 0 (i - zone) ≤ IL < i + zone + 1)
    ∧ ∃ n, IL = Z.of_nat n ∧ first_min (py_slice D None (Some i)) n.
Proof.
  unfold left_index.
  destruct (ign && bool_decide (0 < i)) eqn:Hc; [|left; congruence].
  apply andb_prop in Hc as [-> Hi%bool_decide_eq_true].
  intros (x & Hx & HIL)%result_bind_ok_inv.
  apply np_argmin_spec in Hx as (nl & -> & Hnl).
  revert HIL. case_bool_decide; intros [= <-]; [by left|right].
  split; [done|]. split; [lia|]. split; [done|]. by exists nl.
Qed.

Lemma right_index_inv ign zone i D IR :
  right_index ign (Z.max 0 (i - zone)) (i + zone + 1) i D = Ok IR →
  IR = -1
  ∨ ign = true ∧ i + 1 < Z.of_nat (length D)
    ∧ ¬ (Z.max 0 (i - zone) ≤ IR < i + zone + 1)
    ∧ ∃ n, IR = i + 1 + Z.of_nat n
           ∧ first_min (py_slice D (Some (i + 1)) None) n.
Proof.
  unfold right_index.
  destruct (ign && bool_decide (i + 1 < Z.of_nat (length D))) eqn:Hc;
    [|left; congruence].
  apply andb_prop in Hc as [-> Hi%bool_decide_eq_true].
  intros (x & Hx & HIR)%result_bind_ok_inv.
  apply np_argmin_spec in Hx as (nr & -> & Hnr).
  revert HIR. cbn. case_bool_decide; intros [= <-]; [by left|right].
  split; [done|]. split; [lia|]. split; [done|]. by exists nr.
Qed.

Lemma left_index_total ign zs zstop i D :
  D ≠ [] → ∃ IL, left_index ign zs zstop i D = Ok IL.
Proof.
  intros HD. unfold left_index.
  destruct (ign && bool_decide (0 < i)) eqn:Hc; [|eauto].
  apply andb_prop in Hc as [_ Hi%bool_decide_eq_true].
  destruct (np_argmin_nonempty (py_slice D None (Some i))) as [x ->].
  - intros Hnil. apply (f_equal length) in Hnil. revert Hnil.
    unfold py_slice, slice_bound. cbn.
    rewrite length_take, length_drop. destruct D; [done|].
    cbn [length]. case_bool_decide; lia.
  - cbn. case_bool_decide; eauto.
Qed.

Lemma right_index_total ign zs zstop i D :
  D ≠ [] → ∃ IR, right_index ign zs zstop i D = Ok IR.
Proof.
  intros HD. unfold right_index.
  destruct (ign && bool_decide (i + 1 < Z.of_nat (length D))) eqn:Hc; [|eauto].
  apply andb_prop in Hc as [_ Hi%bool_decide_eq_true].
  destruct (np_argmin_nonempty (py_slice D (Some (i + 1)) None)) as [x ->].
  - intros Hnil. apply (f_equal length) in Hnil. revert Hnil.
    unfold py_slice, slice_bound. cbn.
    rewrite length_take, length_drop. destruct D; [done|].
    cbn [length] in *. case_bool_decide; lia.
  - cbn. case_bool_decide; eauto.
Qed.

(** What a successful [extract_row] returns. *)
Lemma extract_row_inv ign zone i D Dm P I IL IR :
  extract_row ign zone i D = Ok (Dm, (P, (I, IL, IR))) →
  Dm = masked ign zone i D
  ∧ (∃ n d, I = Z.of_nat n ∧ first_min Dm n ∧ Dm !! n = Some d ∧ P = np_sqrt d)
  ∧ left_index ign (Z.max 0 (i - zone)) (i + zone + 1) i Dm = Ok IL
  ∧ right_index ign (Z.max 0 (i - zone)) (i + zone + 1) i Dm = Ok IR.
Proof.
  unfold extract_row. fold (masked ign zone i D).
  generalize (masked ign zone i D). intros D' Hrun.
  apply result_bind_ok_inv in Hrun as (I' & HI & Hrun).
  apply result_bind_ok_inv in Hrun as (d & Hd & Hrun).
  apply result_bind_ok_inv in Hrun as (IL' & HIL & Hrun).
  apply result_bind_ok_inv in Hrun as (IR' & HIR & Hrun).
  injection Hrun as <- <- <- <- <-.
  split; [done|].
  apply np_argmin_spec in HI as (n & -> & Hn).
  split; [|done].
  exists n, d. split; [done|]. split; [done|]. split; [|done].
  apply getitem_nonneg_inv in Hd; [|lia]. by rewrite Nat2Z.id in Hd.
Qed.

(** [extract_row] succeeds on a non-empty profile. *)
Lemma extract_row_total ign zone i D :
  D ≠ [] → ∃ P I3, extract_row ign zone i D = Ok (masked ign zone i D, (P, I3)).
Proof.
  intros HD. unfold extract_row. fold (masked ign zone i D).
  assert (masked ign zone i D ≠ []) as HD'.
  { intros Hnil. apply (f_equal length) in Hnil.
    rewrite masked_length in Hnil. by destruct D. }
  revert HD'. generalize (masked ign zone i D). intros D' HD'.
  destruct (np_argmin_nonempty D' HD') as [I HI]. rewrite HI.
  apply np_argmin_spec in HI as Hn. destruct Hn as (n & -> & Hn).
  destruct Hn as (d & Hd & _).
  destruct (left_index_total ign (Z.max 0 (i - zone)) (i + zone + 1) i D' HD')
    as [IL HIL].
  destruct (right_index_total ign (Z.max 0 (i - zone)) (i + zone + 1) i D' HD')
    as [IR HIR].
  exists (np_sqrt d), (Z.of_nat n, IL, IR). cbn.
  rewrite (getitem_in_range D' (Z.of_nat n) d) by (rewrite ?Nat2Z.id; done || lia).
  cbn. rewrite HIL. cbn. rewrite HIR. reflexivity.
Qed.
End ExtractRow.

(** ** The rows the engine emits, whatever the store holds *)

Section EngineRows.
Context `{Scalar R}.
Variable K : Z → list R → R → R → list R → list R → list (dist R).

Lemma seed_and_profile_inv m M_T Σ_T QT_first μ_Q σ_Q o e i (s s' : mem R) D :
  seed_and_profile K m M_T Σ_T QT_first μ_Q σ_Q o e i s = (s', Ok D) →
  ∃ qt μ σ mt st, D = K m qt μ σ mt st.
Proof.
  unfold seed_and_profile. intros Hrun.
  case_bool_decide; repeat bind_inv Hrun;
    apply mret_ok_inv in Hrun as [_ ->]; eauto 10.
Qed.

(** A successful iteration writes slot [i - range_start] of both output
    arrays with a row extracted from a kernel output, and no other slot. *)
Lemma row_inv T_A T_B m rstop zone M_T Σ_T QT_first μ_Q σ_Q k ign rs o e
    profile indices i (s s' : mem R) profile' indices' :
  rs ≤ i →
  row K T_A T_B m rstop zone M_T Σ_T QT_first μ_Q σ_Q k ign rs o e
    (profile, indices) i s = (s', Ok (profile', indices')) →
  ∃ qt μ σ mt st P I3,
    extract_row ign zone i (K m qt μ σ mt st)
      = Ok (masked ign zone i (K m qt μ σ mt st), (P, I3))
    ∧ (Z.to_nat (i - rs) < length profile)%nat
    ∧ (Z.to_nat (i - rs) < length indices)%nat
    ∧ profile' = <[Z.to_nat (i - rs) := P]> profile
    ∧ indices' = <[Z.to_nat (i - rs) := I3]> indices.
Proof.
  intros Hi Hrun. unfold row in Hrun.
  bind_inv Hrun. bind_inv Hrun. bind_inv Hrun.
  destruct a1 as [Dm [P I3]].
  bind_inv Hrun. bind_inv Hrun.
  apply mret_ok_inv in Hrun as [_ [= -> ->]].
  apply seed_and_profile_inv in Hrun1 as (qt & μ & σ & mt & st & ->).
  apply lift_ok_inv in Hrun2 as [_ Hex].
  apply lift_ok_inv in Hrun3 as [_ Hp].
  apply lift_ok_inv in Hrun4 as [_ Hix].
  apply setitem_nonneg_inv in Hp as [-> ?]; [|lia].
  apply setitem_nonneg_inv in Hix as [-> ?]; [|lia].
  destruct I3 as [[I IL] IR].
  apply extract_row_inv in Hex as Hm. destruct Hm as [-> _].
  exists qt, μ, σ, mt, st, P, (I, IL, IR). done.
Qed.

Lemma rows_loop T_A T_B m rstop zone M_T Σ_T QT_first μ_Q σ_Q k ign rs o e :
  ∀ (xs : list Z) profile indices (s s' : mem R) profile' indices',
    NoDup xs → (∀ i, i ∈ xs → rs ≤ i) →
    for_loop
      (row K T_A T_B m rstop zone M_T Σ_T QT_first μ_Q σ_Q k ign rs o e)
      (profile, indices) xs s = (s', Ok (profile', indices')) →
    length profile' = length profile
    ∧ length indices' = length indices
    ∧ (∀ n, (∀ i, i ∈ xs → Z.to_nat (i - rs) ≠ n) →
            profile' !! n = profile !! n ∧ indices' !! n = indices !! n)
    ∧ (∀ i, i ∈ xs →
         ∃ qt μ σ mt st P I3,
           extract_row ign zone i (K m qt μ σ mt st)
             = Ok (masked ign zone i (K m qt μ σ mt st), (P, I3))
           ∧ profile' !! Z.to_nat (i - rs) = Some P
           ∧ indices' !! Z.to_nat (i - rs) = Some I3).
Proof.
  induction xs as [|x xs IH];
    intros profile indices s s' profile' indices' Hnd Hge Hrun.
  - apply mret_ok_inv in Hrun as [_ [= -> ->]].
    repeat split; try done. intros i Hi. by apply elem_of_nil in Hi.
  - cbn [for_loop] in Hrun. bind_inv Hrun. destruct a as [p1 i1].
    apply NoDup_cons in Hnd as [Hx Hnd].
    apply row_inv in Hrun0 as (qt & μ & σ & mt & st & P & I3 & Hex & Hlp & Hli & -> & ->);
      [|apply Hge; left].
    apply IH in Hrun as (Hl1 & Hl2 & Hkeep & Hrows);
      [|done|intros i Hi; apply Hge; by right].
    rewrite length_insert in Hl1. rewrite length_insert in Hl2.
    split; [done|]. split; [done|]. split.
    + intros n Hn.
      destruct (Hkeep n) as [-> ->]; [intros i Hi; apply Hn; by right|].
      rewrite !list_lookup_insert_ne; [done| |]; apply Hn; left.
    + intros i [->|Hi]%elem_of_cons; [|by apply Hrows].
      exists qt, μ, σ, mt, st, P, I3. split; [done|].
      destruct (Hkeep (Z.to_nat (x - rs))) as [-> ->].
      * intros i Hi Heq.
        assert (rs ≤ i) by (apply Hge; by right).
        assert (rs ≤ x) by (apply Hge; left).
        assert (i = x) as -> by lia. done.
      * by rewrite !list_lookup_insert_eq.
Qed.

(** Every row of a successful call is extracted, by [extract_row], from
    an output of the distance kernel. *)
Lemma _mstump_rows T_A T_B m rstop zone M_T Σ_T QT QT_first μ_Q σ_Q k ign rs
    (s s' : mem R) profile indices :
  _mstump K T_A T_B m rstop zone M_T Σ_T QT QT_first μ_Q σ_Q k ign rs s
    = (s', Ok (profile, indices)) →
  length profile = Z.to_nat (rstop - rs)
  ∧ length indices = Z.to_nat (rstop - rs)
  ∧ ∀ i, rs ≤ i < rstop →
      ∃ qt μ σ mt st P I3,
        extract_row ign zone i (K m qt μ σ mt st)
          = Ok (masked ign zone i (K m qt μ σ mt st), (P, I3))
        ∧ profile !! Z.to_nat (i - rs) = Some P
        ∧ indices !! Z.to_nat (i - rs) = Some I3.
Proof.
  unfold _mstump. intros Hrun.
  bind_inv Hrun. bind_inv Hrun. bind_inv Hrun. bind_inv Hrun.
  apply lift_ok_inv in Hrun2 as [_ Hp]. apply lift_ok_inv in Hrun3 as [_ Hi].
  unfold np_empty in Hp, Hi.
  case_bool_decide; [discriminate|].
  injection Hp as <-. injection Hi as <-.
  apply rows_loop in Hrun as (Hl1 & Hl2 & _ & Hrows).
  - rewrite length_replicate in Hl1. rewrite length_replicate in Hl2. split; [done|]. split; [done|].
    intros i Hi. apply Hrows. unfold py_range. apply elem_of_seqZ. lia.
  - apply NoDup_seqZ.
  - intros i Hi%elem_of_seqZ. lia.
Qed.
End EngineRows.

(** ** Left and right indices *)

(** C5: in every row [i] the engine emits, the left index is [-1] or
    smaller than [i], the right index is [-1] or greater than [i], and both
    are [-1] when [ignore_trivial] is false (AB-join). *)
Theorem left_right_consistency `{Scalar R}
    (K : Z → list R → R → R → list R → list R → list (dist R))
    T_A T_B m range_stop excl_zone M_T Σ_T QT QT_first μ_Q σ_Q k
    ignore_trivial range_start (s : mem R) profile indices :
  (_mstump K T_A T_B m range_stop excl_zone M_T Σ_T QT QT_first μ_Q σ_Q k
     ignore_trivial range_start s).2 = Ok (profile, indices) →
  ∀ i, range_start ≤ i < range_stop →
    ∃ I IL IR,
      indices !! Z.to_nat (i - range_start) = Some (I, IL, IR)
      ∧ (IL ≠ -1 → IL < i)
      ∧ (IR ≠ -1 → i < IR)
      ∧ (ignore_trivial = false → IL = -1 ∧ IR = -1).
Proof.
  intros Hrun i Hi.
  destruct (_mstump _ _ _ _ _ _ _ _ _ _ _ _ _ _ _ s) as [s' r] eqn:Hs.
  cbn in Hrun. subst r.
  apply _mstump_rows in Hs as (_ & _ & Hrows).
  destruct (Hrows i Hi) as (qt & μ & σ & mt & st & P & [[I IL] IR] & Hex & _ & Hix).
  exists I, IL, IR. split; [done|].
  apply extract_row_inv in Hex as (_ & _ & HIL & HIR).
  apply left_index_inv in HIL. apply right_index_inv in HIR.
  split; [|split].
  - intros Hne. destruct HIL as [?|(_ & Hpos & _ & n & -> & Hn)]; [done|].
    apply first_min_lt in Hn.
    pose proof (py_slice_prefix_length
      (masked ignore_trivial excl_zone i (K m qt μ σ mt st)) i). lia.
  - intros Hne. destruct HIR as [?|(_ & _ & _ & n & -> & _)]; [done|]. lia.
  - intros ->. split.
    + by destruct HIL as [?|(? & _)].
    + by destruct HIR as [?|(? & _)].
Qed.

Lemma left_right_consistency_witness :
  (Demo.run true).2
    = Ok ([Fin 3; Fin 3; Fin 3; Fin 3; Fin 3],
          [(3, -1, 3); (0, 0, 4); (1, 1, 5); (2, 2, -1); (3, 3, -1)])
  ∧ ∀ i, 1 ≤ i < 6 →
      ∃ I IL IR,
        [(3, -1, 3); (0, 0, 4); (1, 1, 5); (2, 2, -1); (3, 3, -1)]
          !! Z.to_nat (i - 1) = Some (I, IL, IR)
        ∧ (IL ≠ -1 → IL < i)
        ∧ (IR ≠ -1 → i < IR)
        ∧ (true = false → IL = -1 ∧ IR = -1).
Proof.
  split; [vm_compute; reflexivity|].
  apply (left_right_consistency euclid_profile Demo.T Demo.T 3 6 1 Demo.Mu
           Demo.Sq Demo.QT Demo.QT Demo.Mu Demo.Sq 6 true 1 Demo.store
           [Fin 3; Fin 3; Fin 3; Fin 3; Fin 3]).
  vm_compute; reflexivity.
Defined.

(** ** Frame: what a computation can write *)

Section Frame.
Context {R : Type}.
Implicit Types (s : mem R) (X : list ref).

Lemma writes_only_mono {A} X Y (c : M R A) :
  X ⊆ Y → writes_only X c → writes_only Y c.
Proof.
  intros HXY Hc s s' r Hrun. destruct (Hc s s' r Hrun) as [Hw Ha].
  split; [done|]. intros x Hx. apply Ha. intros Hin. apply Hx, HXY, Hin.
Qed.

Lemma writes_only_mret {A} X (a : A) : writes_only X (mret a : M R A).
Proof. intros s s' r [= <- <-]. done. Qed.

Lemma writes_only_lift {A} X (r : result A) : writes_only (R:=R) X (lift r).
Proof. intros s s' r' [= <- <-]. done. Qed.

Lemma writes_only_bind {A B} X (c : M R A) (f : A → M R B) :
  writes_only X c → (∀ a, writes_only X (f a)) → writes_only X (c ≫= f).
Proof.
  intros Hc Hf s s' r. rewrite run_bind.
  destruct (c s) as [s1 [a|e]] eqn:Hcs.
  - intros Hrun. destruct (Hc _ _ _ Hcs) as [Hw1 Ha1].
    destruct (Hf a _ _ _ Hrun) as [Hw2 Ha2]. split; [congruence|].
    intros x Hx. rewrite Ha2, Ha1; done.
  - intros [= <- <-]. by apply (Hc _ _ _ Hcs).
Qed.

Lemma writes_only_load X x : writes_only (R:=R) X (load x).
Proof.
  intros s s' r. unfold load.
  destruct (arrays s !! x); intros [= <- <-]; done.
Qed.

Lemma writes_only_store x a : writes_only (R:=R) [x] (store x a).
Proof.
  intros s s' r [= <- <-]. split; [done|].
  intros y Hy. cbn. apply lookup_insert_ne. set_solver.
Qed.

Lemma writes_only_read X x i : writes_only (R:=R) X (read x i).
Proof.
  apply writes_only_bind; [apply writes_only_load|].
  intros a. apply writes_only_lift.
Qed.

Lemma writes_only_write x i v : writes_only (R:=R) [x] (write x i v).
Proof.
  apply writes_only_bind; [apply writes_only_load|]. intros a.
  apply writes_only_bind; [apply writes_only_lift|]. intros a'.
  apply writes_only_store.
Qed.

Lemma writes_only_for_loop {E S} X (body : S → E → M R S) (xs : list E) :
  (∀ st x, writes_only X (body st x)) → ∀ st, writes_only X (for_loop body st xs).
Proof.
  intros Hbody. induction xs as [|x xs IH]; intros st; cbn.
  - apply writes_only_mret.
  - apply writes_only_bind; [apply Hbody | apply IH].
Qed.

(** A new array gets a reference that was not in use. *)
Lemma new_array_fresh a s s' r :
  new_array (R:=R) a s = (s', r) →
  ∃ l, r = Ok l ∧ (l ∉ dom (arrays s)) ∧ s' = update l a s.
Proof.
  intros [= <- <-]. eexists. split; [done|]. split; [|done]. apply is_fresh.
Qed.
End Frame.

Lemma writes_only_write_fst {R} (x y : ref) i (v : R) :
  writes_only [x; y] (write x i v).
Proof.
  eapply writes_only_mono; [|apply writes_only_write].
  intros z ->%list_elem_of_singleton. left.
Qed.

Lemma writes_only_write_snd {R} (x y : ref) i (v : R) :
  writes_only [x; y] (write y i v).
Proof.
  eapply writes_only_mono; [|apply writes_only_write].
  intros z ->%list_elem_of_singleton. right. left.
Qed.

Create HintDb frame.
#[local] Hint Resolve writes_only_mret writes_only_lift writes_only_load
  writes_only_read writes_only_write_fst writes_only_write_snd : frame.

Section EngineFrame.
Context `{Scalar R}.
Variable K : Z → list R → R → R → list R → list R → list (dist R).

Lemma writes_only_col_update T_A T_B m k o e i rev_j :
  writes_only [o; e] (col_update T_A T_B m k o e i rev_j).
Proof.
  unfold col_update. case_bool_decide;
    do 5 (apply writes_only_bind; [auto with frame|]; intros ?);
    auto with frame.
Qed.

Lemma writes_only_col_loop T_A T_B m k o e i rev_js :
  writes_only [o; e] (col_loop T_A T_B m k o e i rev_js).
Proof.
  unfold col_loop. apply writes_only_for_loop.
  intros _ rev_j. apply writes_only_col_update.
Qed.

Lemma writes_only_seed_and_profile m M_T Σ_T QT_first μ_Q σ_Q o e i :
  writes_only [o; e] (seed_and_profile K m M_T Σ_T QT_first μ_Q σ_Q o e i).
Proof.
  unfold seed_and_profile. case_bool_decide.
  all: apply writes_only_bind; [auto with frame|]; intros ?.
  all: apply writes_only_bind; [auto with frame|]; intros ?.
  all: do 5 (apply writes_only_bind; [auto with frame|]; intros ?).
  all: apply writes_only_mret.
Qed.

Lemma writes_only_row T_A T_B m rstop zone M_T Σ_T QT_first μ_Q σ_Q k ign rs
    o e out i :
  writes_only [o; e]
    (row K T_A T_B m rstop zone M_T Σ_T QT_first μ_Q σ_Q k ign rs o e out i).
Proof.
  unfold row. destruct out as [profile indices].
  apply writes_only_bind; [apply writes_only_col_loop|]. intros ?.
  apply writes_only_bind; [apply writes_only_seed_and_profile|]. intros ?.
  apply writes_only_bind; [auto with frame|]. intros [? [? ?]].
  do 2 (apply writes_only_bind; [auto with frame|]; intros ?).
  apply writes_only_mret.
Qed.
End EngineFrame.

(** ** The copies of [QT] and the frame of the engine *)

Lemma copy_run {R} (x : ref) (s s' : mem R) r :
  copy x s = (s', r) →
  (s' = s ∧ ∃ e, r = Err e)
  ∨ ∃ a l, arrays s !! x = Some a ∧ (l ∉ dom (arrays s))
           ∧ s' = update l a s ∧ r = Ok l.
Proof.
  unfold copy. rewrite run_bind. unfold load.
  destruct (arrays s !! x) as [a|] eqn:Hx.
  - intros (l & -> & Hl & ->)%new_array_fresh. right. eauto 10.
  - intros [= <- <-]. left. eauto.
Qed.

Lemma update_lookup_ne {R} (l x : ref) (a : list R) (s : mem R) :
  x ≠ l → arrays (update l a s) !! x = arrays s !! x.
Proof. intros Hne. cbn. by apply lookup_insert_ne. Qed.

(** The two buffers of the engine are new arrays: distinct from each other
    and from every array of the caller, in particular from both series. *)
Lemma copies_are_private {R} (QT : ref) (s s1 s2 : mem R) QT_odd QT_even :
  copy QT s = (s1, Ok QT_odd) → copy QT s1 = (s2, Ok QT_even) →
  QT_odd ≠ QT_even
  ∧ (QT_odd ∉ dom (arrays s))
  ∧ (QT_even ∉ dom (arrays s)).
Proof.
  intros H1 H2.
  apply copy_run in H1 as [[_ [? [=]]]|(a1 & l1 & _ & Hl1 & -> & [= <-])].
  apply copy_run in H2 as [[_ [? [=]]]|(a2 & l2 & _ & Hl2 & -> & [= <-])].
  cbn in Hl2. rewrite dom_insert_L in Hl2. split; [|split; [done|]].
  - intros ->. apply Hl2, elem_of_union. left. by apply elem_of_singleton.
  - intros Hin. apply Hl2, elem_of_union. by right.
Qed.

(** In the model a call of the engine, whether it returns or raises,
    leaves the warnings and every array that existed before the call as
    they were: what it writes are the two copies of [QT] it makes.  (Where
    the model raises [IndexError] the compiled code is not defined; see
    [engine_leaves_inputs_unchanged] for the calls in range.) *)
Lemma _mstump_frame `{Scalar R}
    (K : Z → list R → R → R → list R → list R → list (dist R))
    T_A T_B m range_stop excl_zone M_T Σ_T QT QT_first μ_Q σ_Q
    k ignore_trivial range_start (s s' : mem R) r :
  _mstump K T_A T_B m range_stop excl_zone M_T Σ_T QT QT_first μ_Q σ_Q k
    ignore_trivial range_start s = (s', r) →
  warnings s' = warnings s
  ∧ ∀ x, x ∈ dom (arrays s) → arrays s' !! x = arrays s !! x.
Proof.
  intros Hrun. unfold _mstump in Hrun. rewrite run_bind in Hrun.
  destruct (copy QT s) as [s1 r1] eqn:Hc1.
  apply copy_run in Hc1 as [[-> [e1 ->]]|(a1 & o & Ha1 & Ho & -> & ->)].
  { by injection Hrun as <- _. }
  rewrite run_bind in Hrun.
  destruct (copy QT (update o a1 s)) as [s2 r2] eqn:Hc2.
  assert (∀ x, x ∈ dom (arrays s) → x ≠ o) as Hneo by congruence.
  apply copy_run in Hc2 as [[-> [e2 ->]]|(a2 & e & Ha2 & He & -> & ->)].
  { injection Hrun as <- _. split; [done|].
    intros x Hx. by apply update_lookup_ne, Hneo. }
  assert (∀ x, x ∈ dom (arrays s) → x ≠ e) as Hnee.
  { intros x Hx ->. apply He. cbn. rewrite dom_insert_L.
    apply elem_of_union. by right. }
  rewrite run_bind in Hrun. unfold lift at 1 in Hrun.
  destruct (np_empty (range_stop - range_start) (Fin r0)) as [profile|];
    [|injection Hrun as <- _; split; [done|];
      intros x Hx; rewrite !update_lookup_ne; auto].
  rewrite run_bind in Hrun. unfold lift at 1 in Hrun.
  destruct (np_empty (range_stop - range_start) (0, 0, 0)) as [indices|];
    [|injection Hrun as <- _; split; [done|];
      intros x Hx; rewrite !update_lookup_ne; auto].
  apply (writes_only_for_loop [o; e]) in Hrun as [Hw Ha];
    [|intros; apply writes_only_row].
  split; [by rewrite Hw|].
  intros x Hx. rewrite Ha; [rewrite !update_lookup_ne; auto|].
  intros [->|[->|[]%elem_of_nil]%elem_of_cons]%elem_of_cons.
  - by apply (Hneo o).
  - by apply (Hnee e).
Qed.

(** ** Reads and writes on a known store *)

Section StoreRun.
Context {R : Type}.
Implicit Types (s : mem R) (a : list R).

Lemma load_run x a s : arrays s !! x = Some a → load x s = (s, Ok a).
Proof. intros Hx. unfold load. by rewrite Hx. Qed.

Lemma read_run x a i s : arrays s !! x = Some a → read x i s = (s, getitem a i).
Proof. intros Hx. unfold read. by rewrite (run_bind_ok _ _ _ _ _ (load_run _ _ _ Hx)). Qed.

Lemma write_run x a i v s :
  arrays s !! x = Some a →
  write x i v s =
    match setitem a i v with
    | Ok a' => (update x a' s, Ok ())
    | Err e => (s, Err e)
    end.
Proof.
  intros Hx. unfold write.
  rewrite (run_bind_ok _ _ _ _ _ (load_run _ _ _ Hx)).
  rewrite run_bind. unfold lift. by destruct (setitem a i v).
Qed.

Lemma update_id x a s : arrays s !! x = Some a → update x a s = s.
Proof. intros Hx. destruct s as [arr w]. unfold update. cbn in *. by rewrite insert_id. Qed.

Lemma update_update x a a' s : update x a' (update x a s) = update x a' s.
Proof. unfold update. cbn. by rewrite insert_insert_eq. Qed.

Lemma update_lookup_eq x a s : arrays (update x a s) !! x = Some a.
Proof. cbn. apply lookup_insert_eq. Qed.
End StoreRun.

(** ** The column loop *)

Section Columns.
Context `{Scalar R}.
Implicit Types (s : mem R) (ta tb prev live : list R).

Lemma col_update_buffers T_A T_B m k o e i rev_j :
  col_update T_A T_B m k o e i rev_j =
    (let j := k - rev_j in
     q ← read (prev_buffer i o e) (j - 1);
     b0 ← read T_B (i - 1);
     a0 ← read T_A (j - 1);
     b1 ← read T_B (i + m - 1);
     a1 ← read T_A (j + m - 1);
     write (live_buffer i o e) j (q - b0 * a0 + b1 * a1)%S).
Proof. unfold col_update, prev_buffer, live_buffer. by case_bool_decide. Qed.

(** A column update on a store whose arrays are known: it reads [prev],
    [ta], [tb] and writes one entry of [live]. *)
Lemma col_update_run T_A T_B m k o e i rev_j s ta tb prev live :
  arrays s !! T_A = Some ta → arrays s !! T_B = Some tb →
  arrays s !! prev_buffer i o e = Some prev →
  arrays s !! live_buffer i o e = Some live →
  col_update T_A T_B m k o e i rev_j s =
    match col_step ta tb prev m k i live rev_j with
    | Ok live' => (update (live_buffer i o e) live' s, Ok ())
    | Err er => (s, Err er)
    end.
Proof.
  intros HA HB Hp Hl. rewrite col_update_buffers. cbv zeta.
  unfold col_step, col_value.
  rewrite run_bind, (read_run _ _ _ _ Hp).
  destruct (getitem prev _) as [q|]; [|done]. cbn [mbind result_mbind result_bind].
  rewrite run_bind, (read_run _ _ _ _ HB).
  destruct (getitem tb (i - 1)) as [b0|]; [|done]. cbn [mbind result_mbind result_bind].
  rewrite run_bind, (read_run _ _ _ _ HA).
  destruct (getitem ta (k - rev_j - 1)) as [a0|]; [|done]. cbn [mbind result_mbind result_bind].
  rewrite run_bind, (read_run _ _ _ _ HB).
  destruct (getitem tb (i + m - 1)) as [b1|]; [|done]. cbn [mbind result_mbind result_bind].
  rewrite run_bind, (read_run _ _ _ _ HA).
  destruct (getitem ta (k - rev_j + m - 1)) as [a1|]; [|done]. cbn [mbind result_mbind result_bind].
  by rewrite (write_run _ _ _ _ _ Hl).
Qed.

(** The loop on a known store, when the buffer written is none of the
    arrays read. *)
Lemma col_loop_run T_A T_B m k o e i ta tb prev (rev_js : list Z) :
  live_buffer i o e ≠ T_A → live_buffer i o e ≠ T_B →
  live_buffer i o e ≠ prev_buffer i o e →
  ∀ s live,
    arrays s !! T_A = Some ta → arrays s !! T_B = Some tb →
    arrays s !! prev_buffer i o e = Some prev →
    arrays s !! live_buffer i o e = Some live →
    ∀ s1, col_loop T_A T_B m k o e i rev_js s = (s1, Ok ()) ↔
          ∃ live1, fold_result (col_step ta tb prev m k i) live rev_js = Ok live1
                   ∧ s1 = update (live_buffer i o e) live1 s.
Proof.
  intros HnA HnB Hnp. unfold col_loop.
  induction rev_js as [|rev_j rev_js IH]; intros s live HA HB Hp Hl s1.
  - cbn. split.
    + intros [= <-]. exists live. by rewrite update_id.
    + intros (live1 & [= <-] & ->). by rewrite update_id.
  - cbn [for_loop fold_result]. rewrite run_bind.
    rewrite (col_update_run _ _ _ _ _ _ _ _ _ ta tb prev live) by done.
    destruct (col_step ta tb prev m k i live rev_j) as [live'|er].
    + cbn [mbind result_mbind result_bind].
      rewrite (IH (update (live_buffer i o e) live' s) live');
        [|by rewrite update_lookup_ne..|apply update_lookup_eq].
      by setoid_rewrite update_update.
    + split; [done|]. by intros (live1 & [=] & _).
Qed.

(** Two column updates can be exchanged. *)
Lemma col_step_swap ta tb prev m k i live x y live2 :
  0 ≤ k - x → 0 ≤ k - y →
  col_step ta tb prev m k i live x ≫= (λ l, col_step ta tb prev m k i l y)
    = Ok live2 →
  col_step ta tb prev m k i live y ≫= (λ l, col_step ta tb prev m k i l x)
    = Ok live2.
Proof.
  intros Hx Hy. unfold col_step.
  destruct (col_value ta tb prev m i (k - x)) as [vx|] eqn:Hvx; [|done].
  cbn [mbind result_mbind result_bind].
  destruct (setitem live (k - x) vx) as [l1|] eqn:H1; [|done].
  cbn [mbind result_mbind result_bind].
  destruct (col_value ta tb prev m i (k - y)) as [vy|] eqn:Hvy; [|done].
  cbn [mbind result_mbind result_bind]. intros H2.
  apply setitem_nonneg_inv in H1 as [-> H1]; [|done].
  apply setitem_nonneg_inv in H2 as [-> H2]; [|done].
  rewrite length_insert in H2.
  rewrite (setitem_in_range live (k - y)) by lia.
  cbn [mbind result_mbind result_bind].
  rewrite (setitem_in_range _ (k - x)) by (rewrite length_insert; lia).
  f_equal. destruct (decide (k - x = k - y)) as [Heq|Hne].
  - assert (x = y) as -> by lia. congruence.
  - apply list_insert_insert_ne. lia.
Qed.

Lemma col_steps_permutation ta tb prev m k i (xs ys : list Z) :
  xs ≡ₚ ys → Forall (λ rev_j, 0 ≤ k - rev_j) xs →
  ∀ live live1,
    fold_result (col_step ta tb prev m k i) live xs = Ok live1 →
    fold_result (col_step ta tb prev m k i) live ys = Ok live1.
Proof.
  induction 1 as [|x xs ys Hp IH|x y xs|xs ys zs Hp1 IH1 Hp2 IH2];
    intros Hpos live live1.
  - done.
  - cbn. destruct (col_step ta tb prev m k i live x); [|done].
    cbn [mbind result_mbind result_bind].
    apply IH. by apply Forall_cons in Hpos as [_ ?].
  - apply Forall_cons in Hpos as [Hy [Hx _]%Forall_cons].
    cbn [fold_result]. intros Hrun.
    destruct (col_step ta tb prev m k i live y) as [l1|] eqn:H1; [|done].
    cbn [mbind result_mbind result_bind] in Hrun.
    destruct (col_step ta tb prev m k i l1 x) as [l2|] eqn:H2; [|done].
    cbn [mbind result_mbind result_bind] in Hrun.
    pose proof (col_step_swap ta tb prev m k i live y x l2 Hy Hx) as Hswap.
    rewrite H1 in Hswap. cbn [mbind result_mbind result_bind] in Hswap.
    specialize (Hswap H2).
    destruct (col_step ta tb prev m k i live x) as [l1'|]; [|done].
    cbn [mbind result_mbind result_bind] in Hswap |- *.
    rewrite Hswap. done.
  - intros Hrun. apply IH2; [by rewrite <- Hp1|]. by apply IH1.
Qed.
End Columns.

Section ColumnValues.
Context `{Scalar R}.

(** What a successful run of column updates leaves in the buffer written:
    each column holds the value computed from the buffer read, the other
    entries are as before. *)
Lemma col_steps_values (ta tb prev : list R) m k i (xs : list Z) :
  Forall (λ rev_j, 0 ≤ k - rev_j) xs →
  ∀ live live1,
    fold_result (col_step ta tb prev m k i) live xs = Ok live1 →
    length live1 = length live
    ∧ (∀ rev_j, rev_j ∈ xs →
         ∃ v, col_value ta tb prev m i (k - rev_j) = Ok v
              ∧ live1 !! Z.to_nat (k - rev_j) = Some v)
    ∧ (∀ n, (∀ rev_j, rev_j ∈ xs → Z.to_nat (k - rev_j) ≠ n) →
            live1 !! n = live !! n).
Proof.
  induction xs as [|x xs IH]; intros Hpos live live1 Hrun.
  - injection Hrun as <-. split; [done|]. split; [|done].
    intros ? []%elem_of_nil.
  - apply Forall_cons in Hpos as [Hx Hpos]. cbn [fold_result] in Hrun.
    apply result_bind_ok_inv in Hrun as (l1 & Hstep & Hrun).
    unfold col_step in Hstep.
    apply result_bind_ok_inv in Hstep as (v & Hv & Hset).
    apply setitem_nonneg_inv in Hset as [-> Hlen]; [|done].
    destruct (IH Hpos _ _ Hrun) as (Hl & Hvals & Hkeep).
    rewrite length_insert in Hl. split; [done|]. split.
    + intros rev_j [->|Hin]%elem_of_cons; [|by apply Hvals].
      exists v. split; [done|].
      destruct (decide (x ∈ xs)) as [Hin|Hnin].
      * destruct (Hvals x Hin) as (v' & Hv' & ->). congruence.
      * rewrite Hkeep; [by apply list_lookup_insert_eq|].
        intros rev_j Hin Heq.
        apply Forall_forall with (x:=rev_j) in Hpos; [|done].
        assert (rev_j = x) as -> by lia. done.
    + intros n Hn. rewrite Hkeep; [|intros ? ?; apply Hn; by right].
      apply list_lookup_insert_ne, Hn. left.
Qed.
End ColumnValues.

(** ** Parallel runs of the column loop *)

Section Interleaved.
Context `{Scalar R}.
Implicit Types (s : mem R) (ta tb prev live : list R).

Lemma bind_assoc_run {A B C} (c : M R A) (f : A → M R B) (g : B → M R C) s :
  ((c ≫= f) ≫= g) s = (c ≫= (λ a, f a ≫= g)) s.
Proof. rewrite !run_bind. by destruct (c s) as [s1 [a|e]]. Qed.

Lemma bind_ext_run {A B} (c : M R A) (f g : A → M R B) s :
  (∀ a s', f a s' = g a s') → (c ≫= f) s = (c ≫= g) s.
Proof. intros Hfg. rewrite !run_bind. destruct (c s) as [s1 [a|e]]; auto. Qed.

(** A column update is a fetch followed at once by its commit. *)
Lemma col_update_split T_A T_B m k o e i rev_j s :
  col_update T_A T_B m k o e i rev_j s
  = (v ← col_fetch T_A T_B m k o e i rev_j; col_commit k o e i rev_j v) s.
Proof.
  rewrite col_update_buffers. unfold col_fetch, col_commit. cbv zeta.
  rewrite bind_assoc_run. apply bind_ext_run. intros q s1.
  rewrite bind_assoc_run. apply bind_ext_run. intros b0 s2.
  rewrite bind_assoc_run. apply bind_ext_run. intros a0 s3.
  rewrite bind_assoc_run. apply bind_ext_run. intros b1 s4.
  rewrite bind_assoc_run. apply bind_ext_run. intros a1 s5.
  reflexivity.
Qed.

Lemma col_fetch_run T_A T_B m k o e i rev_j s ta tb prev :
  arrays s !! T_A = Some ta → arrays s !! T_B = Some tb →
  arrays s !! prev_buffer i o e = Some prev →
  col_fetch T_A T_B m k o e i rev_j s
  = (s, col_value ta tb prev m i (k - rev_j)).
Proof.
  intros HA HB Hp. unfold col_fetch, col_value. cbv zeta.
  rewrite run_bind, (read_run _ _ _ _ Hp).
  destruct (getitem prev _) as [q|]; [|done]. cbn [mbind result_mbind result_bind].
  rewrite run_bind, (read_run _ _ _ _ HB).
  destruct (getitem tb (i - 1)) as [b0|]; [|done]. cbn [mbind result_mbind result_bind].
  rewrite run_bind, (read_run _ _ _ _ HA).
  destruct (getitem ta (k - rev_j - 1)) as [a0|]; [|done]. cbn [mbind result_mbind result_bind].
  rewrite run_bind, (read_run _ _ _ _ HB).
  destruct (getitem tb (i + m - 1)) as [b1|]; [|done]. cbn [mbind result_mbind result_bind].
  rewrite run_bind, (read_run _ _ _ _ HA).
  by destruct (getitem ta (k - rev_j + m - 1)) as [a1|].
Qed.

(** A parallel run on a known store: it succeeds when every fetch
    succeeds and the commits, taken in their order, succeed as a
    sequential run of column steps; it leaves what that sequential run
    leaves. *)
Lemma run_interleaved_run T_A T_B m k o e i ta tb prev (steps : list step) :
  live_buffer i o e ≠ T_A → live_buffer i o e ≠ T_B →
  live_buffer i o e ≠ prev_buffer i o e →
  ∀ (pending : gmap Z R) fetched s live,
    arrays s !! T_A = Some ta → arrays s !! T_B = Some tb →
    arrays s !! prev_buffer i o e = Some prev →
    arrays s !! live_buffer i o e = Some live →
    (∀ rev_j v, pending !! rev_j = Some v →
                col_value ta tb prev m i (k - rev_j) = Ok v) →
    (∀ rev_j, rev_j ∈ fetched → is_Some (pending !! rev_j)) →
    fetch_first fetched steps = true →
    ∀ s1, run_interleaved T_A T_B m k o e i pending steps s = (s1, Ok ()) ↔
          ∃ live1,
            fold_result (col_step ta tb prev m k i) live (commits steps)
              = Ok live1
            ∧ s1 = update (live_buffer i o e) live1 s
            ∧ Forall (λ rev_j, ∃ v, col_value ta tb prev m i (k - rev_j) = Ok v)
                (fetches steps).
Proof.
  intros HnA HnB Hnp.
  induction steps as [|[rev_j|rev_j] steps IH];
    intros pending fetched s live HA HB Hp Hl Hpend Hfetched Hord s1.
  - cbn. split.
    + intros [= <-]. exists live. by rewrite update_id.
    + intros (live1 & [= <-] & -> & _). by rewrite update_id.
  - cbn [run_interleaved fetches commits omap list_omap fetch_first] in *.
    rewrite run_bind, (col_fetch_run _ _ _ _ _ _ _ _ _ ta tb prev) by done.
    destruct (col_value ta tb prev m i (k - rev_j)) as [v|er] eqn:Hv.
    + rewrite (IH (<[rev_j:=v]> pending) (rev_j :: fetched) s live); try done.
      * split; intros (live1 & Hrun & -> & Hf); exists live1;
          (split; [done|split; [done|]]).
        -- apply Forall_cons. eauto.
        -- by apply Forall_cons in Hf as [_ ?].
      * intros rj w. destruct (decide (rj = rev_j)) as [->|Hne].
        -- rewrite lookup_insert_eq. congruence.
        -- rewrite lookup_insert_ne by done. apply Hpend.
      * intros rj [->|Hin]%elem_of_cons.
        -- rewrite lookup_insert_eq. eauto.
        -- destruct (decide (rj = rev_j)) as [->|Hne].
           ++ rewrite lookup_insert_eq. eauto.
           ++ rewrite lookup_insert_ne by done. by apply Hfetched.
    + split; [done|]. intros (live1 & _ & _ & Hf).
      apply Forall_cons in Hf as [[v Hv'] _]. congruence.
  - cbn [run_interleaved fetches commits omap list_omap fetch_first fold_result] in *.
    apply andb_prop in Hord as [Hin%bool_decide_eq_true Hord].
    destruct (Hfetched _ Hin) as [v Hpv]. rewrite Hpv.
    pose proof (Hpend _ _ Hpv) as Hv.
    rewrite run_bind. unfold col_commit. rewrite (write_run _ _ _ _ _ Hl).
    unfold col_step at 2. rewrite Hv. cbn [mbind result_mbind result_bind].
    destruct (setitem live (k - rev_j) v) as [live'|er].
    + cbn [mbind result_mbind result_bind].
      rewrite (IH pending fetched (update (live_buffer i o e) live' s) live');
        try done;
        try first [by rewrite update_lookup_ne | apply update_lookup_eq].
      by setoid_rewrite update_update.
    + split; [done|]. by intros (live1 & [=] & _).
Qed.
End Interleaved.

(** C4: on a store where the two buffers are distinct arrays, distinct
    from both series, the [k - 1] column updates of row [i] can be run in
    any order and in parallel: a permutation of the iterations, and any
    parallel run of them in which iterations fetch their operands and
    commit their writes at different times, succeeds exactly when the
    source's sequential order does, and leaves the same store.  That store
    differs from the initial one in the buffer of the parity of [i] only,
    and column [j] of that buffer holds the value computed from column
    [j - 1] of the other buffer as it was before the loop. *)
Theorem column_updates_order_independent `{Scalar R}
    T_A T_B m k QT_odd QT_even i (s : mem R) ta tb prev live :
  arrays s !! T_A = Some ta → arrays s !! T_B = Some tb →
  arrays s !! prev_buffer i QT_odd QT_even = Some prev →
  arrays s !! live_buffer i QT_odd QT_even = Some live →
  QT_odd ≠ QT_even →
  T_A ≠ QT_odd → T_A ≠ QT_even → T_B ≠ QT_odd → T_B ≠ QT_even →
  ∀ s1,
    (∀ rev_js, rev_js ≡ₚ py_range 1 k →
       col_loop T_A T_B m k QT_odd QT_even i rev_js s = (s1, Ok ())
       ↔ col_loop T_A T_B m k QT_odd QT_even i (py_range 1 k) s = (s1, Ok ()))
    ∧ (∀ steps, interleaving (py_range 1 k) steps →
         run_interleaved T_A T_B m k QT_odd QT_even i ∅ steps s = (s1, Ok ())
         ↔ col_loop T_A T_B m k QT_odd QT_even i (py_range 1 k) s = (s1, Ok ()))
    ∧ (col_loop T_A T_B m k QT_odd QT_even i (py_range 1 k) s = (s1, Ok ()) →
       ∃ live1,
         s1 = update (live_buffer i QT_odd QT_even) live1 s
         ∧ length live1 = length live
         ∧ live1 !! 0%nat = live !! 0%nat
         ∧ ∀ j, 1 ≤ j < k →
             ∃ v, col_value ta tb prev m i j = Ok v
                  ∧ live1 !! Z.to_nat j = Some v).
Proof.
  intros HA HB Hp Hl Hoe HAo HAe HBo HBe s1.
  assert (live_buffer i QT_odd QT_even ≠ T_A
          ∧ live_buffer i QT_odd QT_even ≠ T_B
          ∧ live_buffer i QT_odd QT_even ≠ prev_buffer i QT_odd QT_even)
    as (HnA & HnB & Hnp).
  { unfold live_buffer, prev_buffer. case_bool_decide; auto. }
  assert (Forall (λ rev_j, 0 ≤ k - rev_j) (py_range 1 k)) as Hpos.
  { apply Forall_forall. intros x Hx%elem_of_seqZ. lia. }
  pose proof (col_loop_run T_A T_B m k QT_odd QT_even i ta tb prev
                (py_range 1 k) HnA HnB Hnp s live HA HB Hp Hl s1) as Hseq.
  split; [|split].
  - intros rev_js Hperm. rewrite Hseq.
    rewrite (col_loop_run T_A T_B m k QT_odd QT_even i ta tb prev rev_js
               HnA HnB Hnp s live HA HB Hp Hl).
    split; intros (live1 & Hrun & ->); exists live1; (split; [|done]).
    + eapply col_steps_permutation; [exact Hperm| |exact Hrun].
      by rewrite Hperm.
    + eapply col_steps_permutation; [symmetry; exact Hperm|done|exact Hrun].
  - intros steps (Hfetch & Hcommit & Hord). rewrite Hseq.
    rewrite (run_interleaved_run T_A T_B m k QT_odd QT_even i ta tb prev steps
               HnA HnB Hnp ∅ [] s live HA HB Hp Hl); [|done| |done].
    2: { intros ? []%elem_of_nil. }
    split.
    + intros (live1 & Hrun & -> & _). exists live1. split; [|done].
      eapply col_steps_permutation; [exact Hcommit| |exact Hrun].
      by rewrite Hcommit.
    + intros (live1 & Hrun & ->). exists live1.
      split; [|split; [done|]].
      * eapply col_steps_permutation; [symmetry; exact Hcommit|done|exact Hrun].
      * apply col_steps_values in Hrun as (_ & Hvals & _); [|done].
        apply Forall_forall. intros rev_j Hin. rewrite Hfetch in Hin.
        destruct (Hvals rev_j Hin) as (v & Hv & _). eauto.
  - rewrite Hseq. intros (live1 & Hrun & ->). exists live1. split; [done|].
    apply col_steps_values in Hrun as (Hlen & Hvals & Hkeep); [|done].
    split; [done|]. split.
    + apply Hkeep. intros rev_j Hin%elem_of_seqZ. lia.
    + intros j Hj. destruct (Hvals (k - j)) as (v & Hv & Hlk).
      * apply elem_of_seqZ. lia.
      * replace (k - (k - j)) with j in * by lia. eauto.
Qed.

Lemma column_updates_order_independent_witness :
  let s1 := update Demo.QT_odd [14; 29; 38; 47; 56; 65] Demo.store_with_buffers in
  col_loop Demo.T Demo.T 3 6 Demo.QT_odd Demo.QT_even 1 (py_range 1 6)
    Demo.store_with_buffers = (s1, Ok ())
  ∧ col_loop Demo.T Demo.T 3 6 Demo.QT_odd Demo.QT_even 1 [5; 4; 3; 2; 1]
      Demo.store_with_buffers = (s1, Ok ())
  ∧ run_interleaved Demo.T Demo.T 3 6 Demo.QT_odd Demo.QT_even 1 ∅
      [Fetch 1; Fetch 2; Fetch 3; Fetch 4; Fetch 5;
       Commit 5; Commit 4; Commit 3; Commit 2; Commit 1]
      Demo.store_with_buffers = (s1, Ok ()).
Proof.
  intros s1.
  assert (col_loop Demo.T Demo.T 3 6 Demo.QT_odd Demo.QT_even 1 (py_range 1 6)
            Demo.store_with_buffers = (s1, Ok ())) as Hcode
    by (vm_compute; reflexivity).
  destruct (column_updates_order_independent Demo.T Demo.T 3 6 Demo.QT_odd
              Demo.QT_even 1 Demo.store_with_buffers
              [1; 2; 3; 4; 5; 6; 7; 8] [1; 2; 3; 4; 5; 6; 7; 8]
              [14; 20; 26; 32; 38; 44] [14; 20; 26; 32; 38; 44]
              eq_refl eq_refl eq_refl eq_refl
              ltac:(discriminate) ltac:(discriminate) ltac:(discriminate)
              ltac:(discriminate) ltac:(discriminate) s1)
    as (Hperm & Hpar & _).
  split; [exact Hcode|]. split.
  - apply Hperm; [|exact Hcode]. apply (reverse_Permutation (py_range 1 6)).
  - apply Hpar; [|exact Hcode]. split; [|split].
    + reflexivity.
    + apply (reverse_Permutation (py_range 1 6)).
    + reflexivity.
Defined.

(** ** The sliding dot product *)

Section SlidingDot.
Context `{Scalar R}.
Implicit Types (a b : list R).

Lemma dot_cons x y a b : dot (x :: a) (y :: b) = (x * y + dot a b)%S.
Proof. reflexivity. Qed.

Lemma elt_lookup a i x : 0 ≤ i → a !! Z.to_nat i = Some x → elt a i = x.
Proof. intros _ Hx. unfold elt. by apply nth_lookup_Some with (d:=r0) in Hx. Qed.

Lemma lookup_elt a i :
  0 ≤ i < Z.of_nat (length a) → a !! Z.to_nat i = Some (elt a i).
Proof.
  intros Hi. unfold elt.
  destruct (lookup_lt_is_Some_2 a (Z.to_nat i)) as [x Hx]; [lia|].
  rewrite Hx. f_equal. symmetry. by apply nth_lookup_Some.
Qed.

Lemma getitem_elt a i :
  0 ≤ i < Z.of_nat (length a) → getitem a i = Ok (elt a i).
Proof. intros Hi. apply getitem_in_range; [lia|]. by apply lookup_elt. Qed.

Lemma window_length a i m :
  0 ≤ i → 0 ≤ m → i + m ≤ Z.of_nat (length a) →
  length (window a i m) = Z.to_nat m.
Proof. intros. unfold window. rewrite length_take, length_drop. lia. Qed.

(** A window of length [m + 1] is its first element followed by the next
    window of length [m] ... *)
Lemma window_head a i m :
  0 ≤ i → 0 ≤ m → i + m + 1 ≤ Z.of_nat (length a) →
  window a i (m + 1) = elt a i :: window a (i + 1) m.
Proof.
  intros Hi Hm Hlen. unfold window.
  rewrite (drop_S a (elt a i) (Z.to_nat i)) by (apply lookup_elt; lia).
  replace (Z.to_nat (m + 1)) with (S (Z.to_nat m)) by lia.
  replace (Z.to_nat (i + 1)) with (S (Z.to_nat i)) by lia.
  reflexivity.
Qed.

(** ... and the window of length [m] followed by its last element. *)
Lemma window_last a i m :
  0 ≤ i → 0 ≤ m → i + m + 1 ≤ Z.of_nat (length a) →
  window a i (m + 1) = window a i m ++ [elt a (i + m)].
Proof.
  intros Hi Hm Hlen. unfold window.
  replace (Z.to_nat (m + 1)) with (S (Z.to_nat m)) by lia.
  rewrite (take_S_r _ _ (elt a (i + m))); [done|].
  rewrite lookup_drop.
  replace (Z.to_nat i + Z.to_nat m)%nat with (Z.to_nat (i + m)) by lia.
  apply lookup_elt. lia.
Qed.

Lemma incremental_row_length ta tb qtf prev m k i :
  1 ≤ k → length (incremental_row ta tb qtf prev m k i) = Z.to_nat k.
Proof.
  intros Hk. unfold incremental_row. cbn. rewrite length_fmap, length_seqZ. lia.
Qed.

Lemma buffer_after_length ta tb qtf m k range_start qt0 n :
  1 ≤ k → length qt0 = Z.to_nat k →
  length (buffer_after ta tb qtf m k range_start qt0 n) = Z.to_nat k.
Proof.
  intros Hk Hqt0. destruct n as [|n]; [done|]. cbn [buffer_after].
  by apply incremental_row_length.
Qed.

Lemma direct_row_length ta tb m k i :
  length (direct_row ta tb m k i) = Z.to_nat k.
Proof. unfold direct_row. by rewrite length_fmap, length_seqZ. Qed.

Lemma direct_row_elt ta tb m k i j :
  0 ≤ j < k → elt (direct_row ta tb m k i) j = sliding_dot ta tb m i j.
Proof.
  intros Hj. apply elt_lookup; [lia|]. unfold direct_row.
  rewrite list_lookup_fmap, lookup_seqZ_lt by lia. cbn.
  by replace (0 + Z.of_nat (Z.to_nat j)) with j by lia.
Qed.

End SlidingDot.

(** ** The sliding dot product in exact arithmetic *)

Section ExactSlidingDot.
Context `{ExactScalar E}.
Add Ring exact_ring_inst : exact_ring.
Implicit Types (a b : list E).

Lemma dot_snoc a b x y :
  length a = length b →
  dot (a ++ [x]) (b ++ [y]) = (dot a b + x * y)%S.
Proof.
  revert b. induction a as [|u a IH]; intros [|v b] Hlen; try done.
  - cbn. ring.
  - cbn [app]. rewrite !dot_cons, IH by (cbn in Hlen; lia). ring.
Qed.

(** The sliding-window identity behind the recurrence. *)
Lemma sliding_dot_step ta tb m i j :
  0 ≤ m → 1 ≤ i → 1 ≤ j →
  i + m ≤ Z.of_nat (length tb) → j + m ≤ Z.of_nat (length ta) →
  sliding_dot ta tb m i j =
    (sliding_dot ta tb m (i - 1) (j - 1) - elt tb (i - 1) * elt ta (j - 1)
     + elt tb (i + m - 1) * elt ta (j + m - 1))%S.
Proof.
  intros Hm Hi Hj Hb Ha. unfold sliding_dot.
  assert (dot (window tb (i - 1) (m + 1)) (window ta (j - 1) (m + 1))
          = (elt tb (i - 1) * elt ta (j - 1)
             + dot (window tb i m) (window ta j m))%S) as Hhead.
  { rewrite !window_head by lia.
    by replace (i - 1 + 1) with i by lia; replace (j - 1 + 1) with j by lia. }
  assert (dot (window tb (i - 1) (m + 1)) (window ta (j - 1) (m + 1))
          = (dot (window tb (i - 1) m) (window ta (j - 1) m)
             + elt tb (i + m - 1) * elt ta (j + m - 1))%S) as Hlast.
  { rewrite !window_last by lia.
    rewrite dot_snoc by (rewrite !window_length; lia).
    by replace (i - 1 + m) with (i + m - 1) by lia;
       replace (j - 1 + m) with (j + m - 1) by lia. }
  rewrite Hhead in Hlast.
  set (d := dot (window tb i m) (window ta j m)) in *.
  set (d' := dot (window tb (i - 1) m) (window ta (j - 1) m)) in *.
  assert (d = (elt tb (i - 1) * elt ta (j - 1) + d
               - elt tb (i - 1) * elt ta (j - 1))%S) as -> by ring.
  rewrite Hlast. ring.
Qed.

(** The incremental update of a directly computed row is the next
    directly computed row. *)
Lemma incremental_row_direct ta tb qtf m k i :
  1 ≤ m → 1 ≤ i → 1 ≤ k →
  i + m ≤ Z.of_nat (length tb) → k + m - 1 ≤ Z.of_nat (length ta) →
  elt qtf i = sliding_dot ta tb m i 0 →
  incremental_row ta tb qtf (direct_row ta tb m k (i - 1)) m k i
    = direct_row ta tb m k i.
Proof.
  intros Hm Hi Hk Hb Ha Hfirst. unfold incremental_row.
  rewrite Hfirst. unfold direct_row at 2.
  rewrite (seqZ_cons 0 k) by lia.
  replace (Z.succ 0) with 1 by lia. replace (Z.pred k) with (k - 1) by lia.
  rewrite fmap_cons.
  f_equal. apply list_fmap_ext. intros n j Hj.
  apply lookup_seqZ in Hj as [-> Hn].
  rewrite direct_row_elt by lia.
  symmetry. apply sliding_dot_step; lia.
Qed.
(** From the directly computed row [range_start - 1], the incremental
    update gives the directly computed rows. *)
Lemma buffer_after_direct (ta tb qtf : list E) m k range_start n :
  1 ≤ m → 1 ≤ range_start → 1 ≤ k →
  range_start + Z.of_nat n ≤ Z.of_nat (length tb) - m + 1 →
  k + m - 1 ≤ Z.of_nat (length ta) →
  (∀ i, range_start ≤ i < range_start + Z.of_nat n →
        elt qtf i = sliding_dot ta tb m i 0) →
  buffer_after ta tb qtf m k range_start
    (direct_row ta tb m k (range_start - 1)) n
  = direct_row ta tb m k (range_start + Z.of_nat n - 1).
Proof.
  intros Hm Hrs Hk Hb Ha Hfirst. induction n as [|n IH].
  - cbn. f_equal. lia.
  - cbn [buffer_after]. rewrite IH by (intros; try apply Hfirst; lia).
    replace (range_start + Z.of_nat n - 1)
      with (range_start + Z.of_nat n - 1 + 1 - 1) at 1 by lia.
    replace (range_start + Z.of_nat (S n) - 1)
      with (range_start + Z.of_nat n) by lia.
    replace (range_start + Z.of_nat n - 1 + 1)
      with (range_start + Z.of_nat n) by lia.
    apply incremental_row_direct; try lia. apply Hfirst. lia.
Qed.
End ExactSlidingDot.

(** ** One row of the recurrence on in-range inputs *)

Section RowValues.
Context `{Scalar R}.
Variables (ta tb prev : list R) (m k i : Z).
Hypothesis Hm : 1 ≤ m.
Hypothesis Hi : 1 ≤ i.
Hypothesis Hk : 1 ≤ k.
Hypothesis Hb : i + m ≤ Z.of_nat (length tb).
Hypothesis Ha : k + m - 1 ≤ Z.of_nat (length ta).
Hypothesis Hprev : length prev = Z.to_nat k.

Lemma col_value_in_range j :
  1 ≤ j < k →
  col_value ta tb prev m i j =
    Ok (elt prev (j - 1) - elt tb (i - 1) * elt ta (j - 1)
        + elt tb (i + m - 1) * elt ta (j + m - 1))%S.
Proof.
  intros Hj. unfold col_value.
  rewrite (getitem_elt prev (j - 1)) by lia. cbn [mbind result_mbind result_bind].
  rewrite (getitem_elt tb (i - 1)) by lia. cbn [mbind result_mbind result_bind].
  rewrite (getitem_elt ta (j - 1)) by lia. cbn [mbind result_mbind result_bind].
  rewrite (getitem_elt tb (i + m - 1)) by lia. cbn [mbind result_mbind result_bind].
  rewrite (getitem_elt ta (j + m - 1)) by lia. reflexivity.
Qed.

Lemma col_steps_total (xs : list Z) :
  Forall (λ rev_j, 1 ≤ k - rev_j < k) xs →
  ∀ live, length live = Z.to_nat k →
    ∃ live1, fold_result (col_step ta tb prev m k i) live xs = Ok live1.
Proof.
  induction xs as [|x xs IH]; intros Hxs live Hlive; [by exists live|].
  apply Forall_cons in Hxs as [Hx Hxs]. cbn [fold_result]. unfold col_step at 2.
  rewrite col_value_in_range by done. cbn [mbind result_mbind result_bind].
  rewrite setitem_in_range by lia. cbn [mbind result_mbind result_bind].
  apply IH; [done|]. by rewrite length_insert.
Qed.

(** The column loop followed by the seeding of position 0 computes the
    incremental update of the specification. *)
Lemma col_steps_incremental (qtf live : list R) :
  length live = Z.to_nat k →
  ∃ live1,
    fold_result (col_step ta tb prev m k i) live (py_range 1 k) = Ok live1
    ∧ setitem live1 0 (elt qtf i) = Ok (incremental_row ta tb qtf prev m k i).
Proof.
  intros Hlive.
  assert (Forall (λ rev_j, 1 ≤ k - rev_j < k) (py_range 1 k)) as Hxs.
  { apply Forall_forall. intros x Hx%elem_of_seqZ. lia. }
  destruct (col_steps_total _ Hxs live Hlive) as [live1 Hrun].
  exists live1. split; [done|].
  apply col_steps_values in Hrun as (Hlen & Hvals & _).
  2: { eapply Forall_impl; [exact Hxs|]. cbn. lia. }
  rewrite setitem_in_range by lia. f_equal.
  apply list_eq. intros n. unfold incremental_row.
  destruct n as [|n].
  - rewrite list_lookup_insert_eq by lia. done.
  - rewrite list_lookup_insert_ne by done. rewrite lookup_cons.
    rewrite list_lookup_fmap.
    destruct (decide (Z.of_nat n < k - 1)) as [Hn|Hn].
    + rewrite lookup_seqZ_lt by lia. cbn.
      destruct (Hvals (k - (1 + Z.of_nat n))) as (v & Hv & Hlk).
      { apply elem_of_seqZ. lia. }
      replace (k - (k - (1 + Z.of_nat n))) with (1 + Z.of_nat n) in * by lia.
      rewrite col_value_in_range in Hv by lia. injection Hv as <-.
      by replace (Z.to_nat (1 + Z.of_nat n)) with (S n) in Hlk by lia.
    + rewrite lookup_seqZ_ge by lia. cbn.
      apply lookup_ge_None. lia.
Qed.
End RowValues.

(** ** The engine on in-range inputs *)

Lemma buffers_flip (i : Z) (o e : ref) :
  prev_buffer (i + 1) o e = live_buffer i o e
  ∧ live_buffer (i + 1) o e = prev_buffer i o e.
Proof.
  unfold prev_buffer, live_buffer.
  pose proof (Z.div_mod i 2 ltac:(lia)).
  pose proof (Z.div_mod (i + 1) 2 ltac:(lia)).
  pose proof (Z.mod_pos_bound i 2 ltac:(lia)).
  pose proof (Z.mod_pos_bound (i + 1) 2 ltac:(lia)).
  repeat case_bool_decide; try done; lia.
Qed.

Section EngineRun.
Context `{Scalar R}.
Variable K : Z → list R → R → R → list R → list R → list (dist R).
Hypothesis K_length : ∀ m qt μ σ mt st, length (K m qt μ σ mt st) = length qt.

Variables (s0 : mem R) (T_A T_B M_T Σ_T QT_first μ_Q σ_Q : ref).
Variables (ta tb mt st qtf μs σs : list R).
Variables (m k range_start range_stop excl_zone : Z) (ignore_trivial : bool).
Variables (o e : ref).

Hypothesis H_T_A : arrays s0 !! T_A = Some ta.
Hypothesis H_T_B : arrays s0 !! T_B = Some tb.
Hypothesis H_M_T : arrays s0 !! M_T = Some mt.
Hypothesis H_Σ_T : arrays s0 !! Σ_T = Some st.
Hypothesis H_QT_first : arrays s0 !! QT_first = Some qtf.
Hypothesis H_μ_Q : arrays s0 !! μ_Q = Some μs.
Hypothesis H_σ_Q : arrays s0 !! σ_Q = Some σs.
Hypothesis Ho : o ∉ dom (arrays s0).
Hypothesis He : e ∉ dom (arrays s0).
Hypothesis Hoe : o ≠ e.

Hypothesis Hm : 1 ≤ m.
Hypothesis Hstart : 1 ≤ range_start.
Hypothesis Hstop : range_stop ≤ Z.of_nat (length tb) - m + 1.
Hypothesis Hk : 1 ≤ k ≤ Z.of_nat (length ta) - m + 1.
Hypothesis Hqtf : range_stop ≤ Z.of_nat (length qtf).
Hypothesis Hμs : range_stop ≤ Z.of_nat (length μs).
Hypothesis Hσs : range_stop ≤ Z.of_nat (length σs).

Lemma buffers_at_input i prev live s x a :
  buffers_at s0 i o e prev live s →
  arrays s0 !! x = Some a →
  arrays s !! x = Some a ∧ x ≠ live_buffer i o e.
Proof.
  intros (_ & _ & Hsame) Hx.
  assert (x ∈ dom (arrays s0)) as Hdom by by eapply elem_of_dom_2.
  split; [by rewrite Hsame|].
  unfold live_buffer. case_bool_decide; congruence.
Qed.

Lemma buffers_at_ne i : live_buffer i o e ≠ prev_buffer i o e.
Proof. unfold live_buffer, prev_buffer. case_bool_decide; congruence. Qed.

Lemma buffers_at_update i prev live live' s :
  buffers_at s0 i o e prev live s →
  buffers_at s0 i o e prev live' (update (live_buffer i o e) live' s).
Proof.
  intros (Hp & Hl & Hsame). split; [|split].
  - rewrite update_lookup_ne; [done|]. apply not_eq_sym, buffers_at_ne.
  - apply update_lookup_eq.
  - intros x Hx. rewrite update_lookup_ne; [by apply Hsame|].
    unfold live_buffer. case_bool_decide; congruence.
Qed.

Lemma buffers_at_next i prev live s :
  buffers_at s0 i o e prev live s → buffers_at s0 (i + 1) o e live prev s.
Proof.
  intros (Hp & Hl & Hsame). destruct (buffers_flip i o e) as [Hf1 Hf2].
  unfold buffers_at. by rewrite Hf1, Hf2.
Qed.

Lemma seed_and_profile_buffers i :
  seed_and_profile K m M_T Σ_T QT_first μ_Q σ_Q o e i =
    (q ← read QT_first i;
     _ ← write (live_buffer i o e) 0 q;
     qt ← load (live_buffer i o e);
     μ ← read μ_Q i;
     σ ← read σ_Q i;
     mt ← load M_T;
     st ← load Σ_T;
     mret (K m qt μ σ mt st)).
Proof. unfold seed_and_profile, live_buffer. by case_bool_decide. Qed.

(** Row [i] on a store in which its buffers hold [prev] and [live]: the
    buffer written ends up holding the incremental update of [prev], and
    slot [i - range_start] of the output holds the row extracted from the
    distance profile of that buffer. *)
Lemma row_run i prev live s profile indices :
  range_start ≤ i < range_stop →
  buffers_at s0 i o e prev live s →
  length prev = Z.to_nat k → length live = Z.to_nat k →
  (Z.to_nat (i - range_start) < length profile)%nat →
  (Z.to_nat (i - range_start) < length indices)%nat →
  let live' := incremental_row ta tb qtf prev m k i in
  let D := K m live' (elt μs i) (elt σs i) mt st in
  ∃ P I3,
    extract_row ignore_trivial excl_zone i D
      = Ok (masked ignore_trivial excl_zone i D, (P, I3))
    ∧ row K T_A T_B m range_stop excl_zone M_T Σ_T QT_first μ_Q σ_Q k
        ignore_trivial range_start o e (profile, indices) i s
      = (update (live_buffer i o e) live' s,
         Ok (<[Z.to_nat (i - range_start) := P]> profile,
             <[Z.to_nat (i - range_start) := I3]> indices)).
Proof.
  intros Hi Hbuf Hprev Hlive Hlp Hli live' D.
  destruct (extract_row_total ignore_trivial excl_zone i D) as (P & I3 & Hex).
  { intros HD. apply (f_equal length) in HD. unfold D in HD.
    rewrite K_length in HD. unfold live' in HD.
    rewrite incremental_row_length in HD by lia. cbn in HD. lia. }
  exists P, I3. split; [done|].
  destruct (buffers_at_input _ _ _ _ _ _ Hbuf H_T_A) as [HA HAne].
  destruct (buffers_at_input _ _ _ _ _ _ Hbuf H_T_B) as [HB HBne].
  destruct (col_steps_incremental ta tb prev m k i
              ltac:(lia) ltac:(lia) ltac:(lia) ltac:(lia) ltac:(lia) Hprev
              qtf live Hlive) as (live1 & Hfold & Hseed).
  destruct Hbuf as (Hp & Hl & Hsame).
  assert (col_loop T_A T_B m k o e i (py_range 1 k) s
          = (update (live_buffer i o e) live1 s, Ok ())) as Hloop.
  { eapply col_loop_run; eauto using buffers_at_ne. }
  pose proof (buffers_at_update i prev live live1 s
                (conj Hp (conj Hl Hsame))) as Hbuf1.
  set (s1 := update (live_buffer i o e) live1 s) in *.
  destruct (buffers_at_input _ _ _ _ _ _ Hbuf1 H_QT_first) as [HF _].
  assert (seed_and_profile K m M_T Σ_T QT_first μ_Q σ_Q o e i s1
          = (update (live_buffer i o e) live' s, Ok D)) as Hprof.
  { rewrite seed_and_profile_buffers.
    rewrite (run_bind_ok _ _ s1 s1 (elt qtf i)).
    2: { rewrite (read_run _ _ _ _ HF). by rewrite getitem_elt by lia. }
    pose proof (buffers_at_update i prev live1 live' s1 Hbuf1) as Hbuf2.
    unfold s1 in Hbuf2. rewrite update_update in Hbuf2.
    set (s2 := update (live_buffer i o e) live' s) in *.
    rewrite (run_bind_ok _ _ s1 s2 ()).
    2: { destruct Hbuf1 as (_ & Hl1 & _).
         rewrite (write_run _ _ _ _ _ Hl1), Hseed.
         unfold s1, s2. by rewrite update_update. }
    destruct (buffers_at_input _ _ _ _ _ _ Hbuf2 H_μ_Q) as [Hμ _].
    destruct (buffers_at_input _ _ _ _ _ _ Hbuf2 H_σ_Q) as [Hσ _].
    destruct (buffers_at_input _ _ _ _ _ _ Hbuf2 H_M_T) as [HM _].
    destruct (buffers_at_input _ _ _ _ _ _ Hbuf2 H_Σ_T) as [HS _].
    rewrite (run_bind_ok _ _ s2 s2 live').
    2: { apply load_run. by destruct Hbuf2 as (_ & ? & _). }
    rewrite (run_bind_ok _ _ s2 s2 (elt μs i)).
    2: { rewrite (read_run _ _ _ _ Hμ). by rewrite getitem_elt by lia. }
    rewrite (run_bind_ok _ _ s2 s2 (elt σs i)).
    2: { rewrite (read_run _ _ _ _ Hσ). by rewrite getitem_elt by lia. }
    rewrite (run_bind_ok _ _ _ _ _ (load_run _ _ _ HM)).
    rewrite (run_bind_ok _ _ _ _ _ (load_run _ _ _ HS)).
    reflexivity. }
  unfold row.
  rewrite (run_bind_ok _ _ _ _ _ Hloop).
  rewrite (run_bind_ok _ _ _ _ _ Hprof).
  rewrite run_bind. unfold lift at 1. rewrite Hex.
  rewrite run_bind. unfold lift at 1.
  rewrite setitem_in_range by lia.
  rewrite run_bind. unfold lift at 1.
  rewrite setitem_in_range by lia.
  reflexivity.
Qed.

(** The distance profile of the [r]-th row of the call, from the buffer
    the incremental update gives for it. *)
Let profile_of (qt0 : list R) (r : nat) : list (dist R) :=
  K m (buffer_after ta tb qtf m k range_start qt0 (S r))
    (elt μs (range_start + Z.of_nat r)) (elt σs (range_start + Z.of_nat r))
    mt st.

Lemma rows_run (qt0 : list R) (n d : nat) :
  length qt0 = Z.to_nat k →
  range_start + Z.of_nat n ≤ range_stop →
  ∀ (t : nat) s live profile indices,
    (t + d = n)%nat →
    buffers_at s0 (range_start + Z.of_nat t) o e
      (buffer_after ta tb qtf m k range_start qt0 t) live s →
    length live = Z.to_nat k →
    length profile = n → length indices = n →
    (∀ r, (r < t)%nat →
       emits ignore_trivial excl_zone (range_start + Z.of_nat r)
         (profile_of qt0 r) profile indices r) →
    ∃ s' live' profile' indices',
      for_loop
        (row K T_A T_B m range_stop excl_zone M_T Σ_T QT_first μ_Q σ_Q k
           ignore_trivial range_start o e)
        (profile, indices) (seqZ (range_start + Z.of_nat t) (Z.of_nat d)) s
        = (s', Ok (profile', indices'))
      ∧ buffers_at s0 (range_start + Z.of_nat n) o e
          (buffer_after ta tb qtf m k range_start qt0 n) live' s'
      ∧ length profile' = n ∧ length indices' = n
      ∧ ∀ r, (r < n)%nat →
          emits ignore_trivial excl_zone (range_start + Z.of_nat r)
            (profile_of qt0 r) profile' indices' r.
Proof.
  intros Hqt0 Hn. induction d as [|d IH];
    intros t s live profile indices Htd Hbuf Hlive Hlp Hli Hdone.
  - assert (t = n) as -> by lia. cbn.
    exists s, live, profile, indices. done.
  - rewrite seqZ_cons by lia. cbn [for_loop].
    set (i := range_start + Z.of_nat t) in *.
    destruct (row_run i _ live s profile indices
                ltac:(lia) Hbuf
                (buffer_after_length ta tb qtf m k range_start qt0 t
                   ltac:(lia) Hqt0) Hlive
                ltac:(lia) ltac:(lia)) as (P & I3 & Hex & Hrow).
    rewrite (run_bind_ok _ _ _ _ _ Hrow).
    replace (Z.to_nat (i - range_start)) with t in * by lia.
    replace (Z.succ i) with (range_start + Z.of_nat (S t)) by lia.
    replace (Z.pred (Z.of_nat (S d))) with (Z.of_nat d) by lia.
    apply (IH (S t) _ (buffer_after ta tb qtf m k range_start qt0 t)).
    + lia.
    + replace (range_start + Z.of_nat (S t)) with (i + 1) by lia.
      apply buffers_at_next.
      cbn [buffer_after]. fold i. eapply buffers_at_update, Hbuf.
    + apply buffer_after_length; [lia|exact Hqt0].
    + by rewrite length_insert.
    + by rewrite length_insert.
    + intros r Hr. destruct (decide (r = t)) as [->|Hne].
      * exists P, I3. split; [exact Hex|].
        by rewrite !list_lookup_insert_eq by lia.
      * destruct (Hdone r ltac:(lia)) as (P' & I3' & Hex' & Hp' & Hi').
        exists P', I3'. split; [done|].
        by rewrite !list_lookup_insert_ne by done.
Qed.
End EngineRun.

(** The engine on in-range inputs: it returns, and row [i] of its output
    is extracted from the distance profile of the buffer the incremental
    update gives for row [i]. *)
Lemma _mstump_run `{Scalar R}
    (K : Z → list R → R → R → list R → list R → list (dist R))
    (s : mem R) T_A T_B M_T Σ_T QT QT_first μ_Q σ_Q
    ta tb mt st qt0 qtf μs σs m k range_start range_stop excl_zone
    ignore_trivial :
  (∀ m qt μ σ mt st, length (K m qt μ σ mt st) = length qt) →
  arrays s !! T_A = Some ta → arrays s !! T_B = Some tb →
  arrays s !! M_T = Some mt → arrays s !! Σ_T = Some st →
  arrays s !! QT = Some qt0 → arrays s !! QT_first = Some qtf →
  arrays s !! μ_Q = Some μs → arrays s !! σ_Q = Some σs →
  1 ≤ m → 1 ≤ range_start ≤ range_stop →
  range_stop ≤ Z.of_nat (length tb) - m + 1 →
  1 ≤ k ≤ Z.of_nat (length ta) - m + 1 →
  length qt0 = Z.to_nat k →
  range_stop ≤ Z.of_nat (length qtf) →
  range_stop ≤ Z.of_nat (length μs) →
  range_stop ≤ Z.of_nat (length σs) →
  ∃ s' profile indices,
    _mstump K T_A T_B m range_stop excl_zone M_T Σ_T QT QT_first μ_Q σ_Q k
      ignore_trivial range_start s = (s', Ok (profile, indices))
    ∧ length profile = Z.to_nat (range_stop - range_start)
    ∧ length indices = Z.to_nat (range_stop - range_start)
    ∧ (∃ live_ref,
         (live_ref ∉ dom (arrays s))
         ∧ arrays s' !! live_ref
           = Some (buffer_after ta tb qtf m k range_start qt0
                     (Z.to_nat (range_stop - range_start))))
    ∧ ∀ r, (r < Z.to_nat (range_stop - range_start))%nat →
        emits ignore_trivial excl_zone (range_start + Z.of_nat r)
          (K m (buffer_after ta tb qtf m k range_start qt0 (S r))
             (elt μs (range_start + Z.of_nat r))
             (elt σs (range_start + Z.of_nat r)) mt st)
          profile indices r.
Proof.
  intros HK HA HB HM HS HQ HF Hμ Hσ Hm Hrs Hstop Hk Hqt0 Hqtf Hμs Hσs.
  set (n := Z.to_nat (range_stop - range_start)).
  set (o := fresh (dom (arrays s))).
  set (s1 := update o qt0 s).
  set (e := fresh (dom (arrays s1))).
  set (s2 := update e qt0 s1).
  assert (o ∉ dom (arrays s)) as Ho by apply is_fresh.
  assert (e ∉ dom (arrays s1)) as He1 by apply is_fresh.
  assert ((e ∉ dom (arrays s)) ∧ o ≠ e) as [He Hoe].
  { unfold s1 in He1. cbn in He1. rewrite dom_insert_L in He1. split.
    - intros Hin. apply He1, elem_of_union. by right.
    - intros Heq. apply He1, elem_of_union. left. by apply elem_of_singleton. }
  assert (arrays s1 !! QT = Some qt0) as HQ1.
  { unfold s1. rewrite update_lookup_ne; [done|].
    intros Heq. apply Ho. rewrite <- Heq. by eapply elem_of_dom_2. }
  assert (buffers_at s (range_start + Z.of_nat 0) o e qt0 qt0 s2) as Hbuf.
  { assert (arrays s2 !! o = Some qt0 ∧ arrays s2 !! e = Some qt0) as [Hso Hse].
    { unfold s2, s1. split; [|apply update_lookup_eq].
      rewrite update_lookup_ne by done. apply update_lookup_eq. }
    split; [|split].
    - unfold prev_buffer. by case_bool_decide.
    - unfold live_buffer. by case_bool_decide.
    - intros x Hx. unfold s2, s1.
      rewrite !update_lookup_ne; [done|congruence|congruence]. }
  destruct (rows_run K HK s T_A T_B M_T Σ_T QT_first μ_Q σ_Q
              ta tb mt st qtf μs σs m k range_start range_stop excl_zone
              ignore_trivial o e HA HB HM HS HF Hμ Hσ Ho He Hoe
              Hm ltac:(lia) Hstop Hk Hqtf Hμs Hσs qt0 n n Hqt0 ltac:(lia)
              0%nat s2 qt0 (replicate n (Fin r0)) (replicate n (0, 0, 0))
              ltac:(lia) Hbuf Hqt0
              ltac:(by rewrite length_replicate)
              ltac:(by rewrite length_replicate)
              ltac:(intros; lia))
    as (s' & live' & profile' & indices' & Hloop & Hfinal & Hlp & Hli & Hrows).
  exists s', profile', indices'.
  split; [|split; [done|split; [done|split; [|exact Hrows]]]].
  - unfold _mstump.
    rewrite (run_bind_ok _ _ s s1 o).
    2: { unfold copy. by rewrite (run_bind_ok _ _ _ _ _ (load_run _ _ _ HQ)). }
    rewrite (run_bind_ok _ _ s1 s2 e).
    2: { unfold copy. by rewrite (run_bind_ok _ _ _ _ _ (load_run _ _ _ HQ1)). }
    unfold np_empty. rewrite !bool_decide_false by lia.
    rewrite run_bind. unfold lift at 1. rewrite run_bind. unfold lift at 1.
    unfold py_range.
    replace (range_stop - range_start) with (Z.of_nat n) at 3 by lia.
    replace range_start with (range_start + Z.of_nat 0) at 4 by lia.
    exact Hloop.
  - destruct Hfinal as (Hp & _ & _).
    exists (prev_buffer (range_start + Z.of_nat n) o e). split; [|done].
    unfold prev_buffer. by case_bool_decide.
Qed.

(** ** The rows of a call on in-range inputs *)

(** On in-range inputs the engine returns, and row [i] of its output is
    the row [extract_row] gives on the distance profile of the live buffer
    of row [i]. *)
Lemma _mstump_in_range `{Scalar R}
    (K : Z → list R → R → R → list R → list R → list (dist R))
    (s : mem R) T_A T_B M_T Σ_T QT QT_first μ_Q σ_Q
    ta tb mt st qt0 qtf μs σs m k range_start range_stop excl_zone
    ignore_trivial :
  (∀ m qt μ σ mt st, length (K m qt μ σ mt st) = length qt) →
  in_range_call s T_A T_B M_T Σ_T QT QT_first μ_Q σ_Q
    ta tb mt st qt0 qtf μs σs m k range_start range_stop →
  ∃ s' profile indices,
    _mstump K T_A T_B m range_stop excl_zone M_T Σ_T QT QT_first μ_Q σ_Q k
      ignore_trivial range_start s = (s', Ok (profile, indices))
    ∧ length profile = Z.to_nat (range_stop - range_start)
    ∧ length indices = Z.to_nat (range_stop - range_start)
    ∧ (∃ live_ref,
         (live_ref ∉ dom (arrays s))
         ∧ arrays s' !! live_ref
           = Some (buffer_after ta tb qtf m k range_start qt0
                     (Z.to_nat (range_stop - range_start))))
    ∧ ∀ i, range_start ≤ i < range_stop →
        length (row_profile K ta tb mt st qt0 qtf μs σs m k range_start i)
        = Z.to_nat k
        ∧ emits ignore_trivial excl_zone i
            (row_profile K ta tb mt st qt0 qtf μs σs m k range_start i)
            profile indices (Z.to_nat (i - range_start)).
Proof.
  intros HK [HA HB HM HS HQ HF Hμ Hσ Hm Hrs Hstop Hk Hqt0 Hqtf Hμs Hσs].
  destruct (_mstump_run K s T_A T_B M_T Σ_T QT QT_first μ_Q σ_Q
              ta tb mt st qt0 qtf μs σs m k range_start range_stop excl_zone
              ignore_trivial HK HA HB HM HS HQ HF Hμ Hσ Hm Hrs Hstop Hk Hqt0
              Hqtf Hμs Hσs)
    as (s' & profile & indices & Hrun & Hlp & Hli & Hbuf & Hrows).
  exists s', profile, indices. repeat (split; [done|]).
  intros i Hi. unfold row_profile, row_buffer. split.
  - rewrite HK. apply buffer_after_length; [lia|done].
  - specialize (Hrows (Z.to_nat (i - range_start)) ltac:(lia)).
    by replace (range_start + Z.of_nat (Z.to_nat (i - range_start))) with i
      in Hrows by lia.
Qed.

Lemma euclid_profile_length m qt μ σ mt st :
  length (euclid_profile m qt μ σ mt st) = length qt.
Proof. unfold euclid_profile. apply length_imap. Qed.

Lemma demo_in_range_call :
  in_range_call Demo.store
    Demo.T Demo.T Demo.Mu Demo.Sq Demo.QT Demo.QT Demo.Mu Demo.Sq
    [1; 2; 3; 4; 5; 6; 7; 8] [1; 2; 3; 4; 5; 6; 7; 8]
    [2; 3; 4; 5; 6; 7] [14; 29; 50; 77; 110; 149]
    [14; 20; 26; 32; 38; 44] [14; 20; 26; 32; 38; 44]
    [2; 3; 4; 5; 6; 7] [14; 29; 50; 77; 110; 149] 3 6 1 6.
Proof. split; try reflexivity; cbn; lia. Qed.

Lemma demo_short_in_range_call :
  in_range_call Demo.short_store
    Demo.T Demo.T Demo.Mu Demo.Sq Demo.QT Demo.QT Demo.Mu Demo.Sq
    [1; 2; 3; 4; 5; 6] [1; 2; 3; 4; 5; 6] [2; 3; 4] [30; 54; 86]
    [30; 40; 50] [30; 40; 50] [2; 3; 4] [30; 54; 86] 4 3 1 3.
Proof. split; try reflexivity; cbn; lia. Qed.

(** ** The engine leaves its inputs alone *)

(** C9: on in-range inputs a call of the engine returns and leaves every
    array that existed before the call as it was, hence [T_A], [T_B],
    [M_T], [Σ_T], [QT], [QT_first], [μ_Q] and [σ_Q]; what it writes are the
    two copies of [QT] it makes.  It logs no warning. *)
Theorem engine_leaves_inputs_unchanged `{Scalar R}
    (K : Z → list R → R → R → list R → list R → list (dist R))
    (s : mem R) T_A T_B M_T Σ_T QT QT_first μ_Q σ_Q
    ta tb mt st qt0 qtf μs σs m k range_start range_stop excl_zone
    ignore_trivial :
  (∀ m qt μ σ mt st, length (K m qt μ σ mt st) = length qt) →
  in_range_call s T_A T_B M_T Σ_T QT QT_first μ_Q σ_Q
    ta tb mt st qt0 qtf μs σs m k range_start range_stop →
  ∃ s' out,
    _mstump K T_A T_B m range_stop excl_zone M_T Σ_T QT QT_first μ_Q σ_Q k
      ignore_trivial range_start s = (s', Ok out)
    ∧ warnings s' = warnings s
    ∧ (∀ x, x ∈ dom (arrays s) → arrays s' !! x = arrays s !! x)
    ∧ arrays s' !! T_A = Some ta ∧ arrays s' !! T_B = Some tb
    ∧ arrays s' !! M_T = Some mt ∧ arrays s' !! Σ_T = Some st
    ∧ arrays s' !! QT = Some qt0 ∧ arrays s' !! QT_first = Some qtf
    ∧ arrays s' !! μ_Q = Some μs ∧ arrays s' !! σ_Q = Some σs.
Proof.
  intros HK Hcall.
  destruct (_mstump_in_range K s T_A T_B M_T Σ_T QT QT_first μ_Q σ_Q
              ta tb mt st qt0 qtf μs σs m k range_start range_stop excl_zone
              ignore_trivial HK Hcall)
    as (s' & profile & indices & Hrun & _).
  destruct (_mstump_frame K _ _ _ _ _ _ _ _ _ _ _ _ _ _ _ _ _ Hrun)
    as [Hw Hsame].
  assert (∀ x a, arrays s !! x = Some a → arrays s' !! x = Some a) as Hin.
  { intros x a Hx. rewrite Hsame; [done|]. by eapply elem_of_dom_2. }
  destruct Hcall as [HA HB HM HS HQ HF Hμ Hσ _ _ _ _ _ _ _ _].
  exists s', (profile, indices). repeat split; auto.
Qed.

Lemma engine_leaves_inputs_unchanged_witness :
  ∃ s' out,
    Demo.run true = (s', Ok out)
    ∧ warnings s' = warnings Demo.store
    ∧ (∀ x, x ∈ dom (arrays Demo.store) →
            arrays s' !! x = arrays Demo.store !! x)
    ∧ arrays s' !! Demo.T = Some [1; 2; 3; 4; 5; 6; 7; 8]
    ∧ arrays s' !! Demo.T = Some [1; 2; 3; 4; 5; 6; 7; 8]
    ∧ arrays s' !! Demo.Mu = Some [2; 3; 4; 5; 6; 7]
    ∧ arrays s' !! Demo.Sq = Some [14; 29; 50; 77; 110; 149]
    ∧ arrays s' !! Demo.QT = Some [14; 20; 26; 32; 38; 44]
    ∧ arrays s' !! Demo.QT = Some [14; 20; 26; 32; 38; 44]
    ∧ arrays s' !! Demo.Mu = Some [2; 3; 4; 5; 6; 7]
    ∧ arrays s' !! Demo.Sq = Some [14; 29; 50; 77; 110; 149].
Proof.
  exact (engine_leaves_inputs_unchanged euclid_profile Demo.store
           Demo.T Demo.T Demo.Mu Demo.Sq Demo.QT Demo.QT Demo.Mu Demo.Sq
           _ _ _ _ _ _ _ _ 3 6 1 6 1 true
           euclid_profile_length demo_in_range_call).
Defined.

(** ** Best match *)

(** C8: on in-range inputs the engine returns, and in every row [i] the
    best-match index is the first index at which the masked distance
    profile [D] of the row takes its minimum (ties go to the lowest index)
    and the distance is [sqrt(D[I])]. *)
Theorem best_match_is_first_minimum `{Scalar R}
    (K : Z → list R → R → R → list R → list R → list (dist R))
    (s : mem R) T_A T_B M_T Σ_T QT QT_first μ_Q σ_Q
    ta tb mt st qt0 qtf μs σs m k range_start range_stop excl_zone
    ignore_trivial :
  (∀ m qt μ σ mt st, length (K m qt μ σ mt st) = length qt) →
  in_range_call s T_A T_B M_T Σ_T QT QT_first μ_Q σ_Q
    ta tb mt st qt0 qtf μs σs m k range_start range_stop →
  ∃ s' profile indices,
    _mstump K T_A T_B m range_stop excl_zone M_T Σ_T QT QT_first μ_Q σ_Q k
      ignore_trivial range_start s = (s', Ok (profile, indices))
    ∧ ∀ i, range_start ≤ i < range_stop →
        let D := masked ignore_trivial excl_zone i
                   (row_profile K ta tb mt st qt0 qtf μs σs m k range_start i) in
        ∃ n d IL IR,
          indices !! Z.to_nat (i - range_start) = Some (Z.of_nat n, IL, IR)
          ∧ profile !! Z.to_nat (i - range_start) = Some (np_sqrt d)
          ∧ D !! n = Some d
          ∧ (∀ j y, D !! j = Some y → dist_ltb y d = false)
          ∧ (∀ j y, (j < n)%nat → D !! j = Some y → dist_ltb d y = true).
Proof.
  intros HK Hcall.
  destruct (_mstump_in_range K s T_A T_B M_T Σ_T QT QT_first μ_Q σ_Q
              ta tb mt st qt0 qtf μs σs m k range_start range_stop excl_zone
              ignore_trivial HK Hcall)
    as (s' & profile & indices & Hrun & _ & _ & _ & Hrows).
  exists s', profile, indices. split; [done|]. intros i Hi D.
  destruct (Hrows i Hi) as (_ & P & [[I IL] IR] & Hex & Hp & Hix).
  apply extract_row_inv in Hex as (_ & (n & d & -> & Hmin & Hd & ->) & _).
  destruct Hmin as (d' & Hd' & Hle & Hlt).
  assert (d' = d) as -> by congruence.
  exists n, d, IL, IR. done.
Qed.

Lemma best_match_is_first_minimum_witness :
  ∃ s' profile indices,
    Demo.run true = (s', Ok (profile, indices))
    ∧ ∀ i, 1 ≤ i < 6 →
        let D := masked true 1 i
                   (row_profile euclid_profile
                      [1; 2; 3; 4; 5; 6; 7; 8] [1; 2; 3; 4; 5; 6; 7; 8]
                      [2; 3; 4; 5; 6; 7] [14; 29; 50; 77; 110; 149]
                      [14; 20; 26; 32; 38; 44] [14; 20; 26; 32; 38; 44]
                      [2; 3; 4; 5; 6; 7] [14; 29; 50; 77; 110; 149] 3 6 1 i) in
        ∃ n d IL IR,
          indices !! Z.to_nat (i - 1) = Some (Z.of_nat n, IL, IR)
          ∧ profile !! Z.to_nat (i - 1) = Some (np_sqrt d)
          ∧ D !! n = Some d
          ∧ (∀ j y, D !! j = Some y → dist_ltb y d = false)
          ∧ (∀ j y, (j < n)%nat → D !! j = Some y → dist_ltb d y = true).
Proof.
  exact (best_match_is_first_minimum euclid_profile Demo.store
           Demo.T Demo.T Demo.Mu Demo.Sq Demo.QT Demo.QT Demo.Mu Demo.Sq
           _ _ _ _ _ _ _ _ 3 6 1 6 1 true
           euclid_profile_length demo_in_range_call).
Defined.

(** ** Exclusion zone *)

Lemma ceil_quarter_spec m :
  4 * (ceil_quarter m - 1) < m ≤ 4 * ceil_quarter m.
Proof.
  unfold ceil_quarter.
  pose proof (Z.div_mod (- m) 4 ltac:(lia)).
  pose proof (Z.mod_pos_bound (- m) 4 ltac:(lia)). lia.
Qed.

(** C2, as the code has it: the driver's half-width is [ceil(m/4)]; on
    in-range inputs of a self-join the engine returns, and in every row
    [i] every entry of the distance profile whose index lies in
    [[i - zone, i + zone]] is [+inf] when the argmin is taken, the left and
    the right index are [-1] or lie outside the zone, and the best index
    lies outside the zone whenever the masked profile has a finite
    entry. *)
Theorem exclusion_zone_masked `{Scalar R}
    (K : Z → list R → R → R → list R → list R → list (dist R))
    (s : mem R) T_A T_B M_T Σ_T QT QT_first μ_Q σ_Q
    ta tb mt st qt0 qtf μs σs m k range_start range_stop excl_zone :
  (∀ m qt μ σ mt st, length (K m qt μ σ mt st) = length qt) →
  in_range_call s T_A T_B M_T Σ_T QT QT_first μ_Q σ_Q
    ta tb mt st qt0 qtf μs σs m k range_start range_stop →
  4 * (ceil_quarter m - 1) < m ≤ 4 * ceil_quarter m
  ∧ ∃ s' profile indices,
      _mstump K T_A T_B m range_stop excl_zone M_T Σ_T QT QT_first μ_Q σ_Q k
        true range_start s = (s', Ok (profile, indices))
      ∧ ∀ i, range_start ≤ i < range_stop →
          let D := masked true excl_zone i
                     (row_profile K ta tb mt st qt0 qtf μs σs m k range_start i) in
          ∃ I IL IR,
            indices !! Z.to_nat (i - range_start) = Some (I, IL, IR)
            ∧ (∀ n y, in_zone i excl_zone (Z.of_nat n) →
                      D !! n = Some y → y = PInf)
            ∧ (∃ n, I = Z.of_nat n ∧ first_min D n)
            ∧ (IL = -1 ∨ ¬ in_zone i excl_zone IL)
            ∧ (IR = -1 ∨ ¬ in_zone i excl_zone IR)
            ∧ ((∃ n x, D !! n = Some (Fin x)) → ¬ in_zone i excl_zone I).
Proof.
  intros HK Hcall. split; [apply ceil_quarter_spec|].
  destruct (_mstump_in_range K s T_A T_B M_T Σ_T QT QT_first μ_Q σ_Q
              ta tb mt st qt0 qtf μs σs m k range_start range_stop excl_zone
              true HK Hcall)
    as (s' & profile & indices & Hrun & _ & _ & _ & Hrows).
  pose proof (call_range _ _ _ _ _ _ _ _ _ _ _ _ _ _ _ _ _ _ _ _ _ Hcall) as Hrs.
  exists s', profile, indices. split; [done|]. intros i Hi D.
  destruct (Hrows i Hi) as (_ & P & [[I IL] IR] & Hex & Hp & Hix).
  apply extract_row_inv in Hex as (_ & (n & d & -> & Hmin & Hd & ->) & HIL & HIR).
  apply left_index_inv in HIL. apply right_index_inv in HIR.
  exists (Z.of_nat n), IL, IR.
  split; [done|]. split; [intros ? ?; apply masked_zone_inf|].
  split; [eauto|]. split; [|split].
  - destruct HIL as [?|(_ & _ & Hout & nl & -> & _)]; [by left|right].
    unfold in_zone. lia.
  - destruct HIR as [?|(_ & _ & Hout & nr & -> & _)]; [by left|right].
    unfold in_zone. lia.
  - intros (n' & x & Hx).
    destruct Hmin as (d' & Hd' & Hle & _).
    assert (d' = d) as -> by congruence.
    specialize (Hle _ _ Hx). destruct d as [y|]; [|done].
    by eapply masked_finite_outside.
Qed.

Lemma exclusion_zone_masked_witness :
  4 * (ceil_quarter 3 - 1) < 3 ≤ 4 * ceil_quarter 3
  ∧ ∃ s' profile indices,
      Demo.run true = (s', Ok (profile, indices))
      ∧ ∀ i, 1 ≤ i < 6 →
          let D := masked true 1 i
                     (row_profile euclid_profile
                        [1; 2; 3; 4; 5; 6; 7; 8] [1; 2; 3; 4; 5; 6; 7; 8]
                        [2; 3; 4; 5; 6; 7] [14; 29; 50; 77; 110; 149]
                        [14; 20; 26; 32; 38; 44] [14; 20; 26; 32; 38; 44]
                        [2; 3; 4; 5; 6; 7] [14; 29; 50; 77; 110; 149] 3 6 1 i) in
          ∃ I IL IR,
            indices !! Z.to_nat (i - 1) = Some (I, IL, IR)
            ∧ (∀ n y, in_zone i 1 (Z.of_nat n) → D !! n = Some y → y = PInf)
            ∧ (∃ n, I = Z.of_nat n ∧ first_min D n)
            ∧ (IL = -1 ∨ ¬ in_zone i 1 IL)
            ∧ (IR = -1 ∨ ¬ in_zone i 1 IR)
            ∧ ((∃ n x, D !! n = Some (Fin x)) → ¬ in_zone i 1 I).
Proof.
  exact (exclusion_zone_masked euclid_profile Demo.store
           Demo.T Demo.T Demo.Mu Demo.Sq Demo.QT Demo.QT Demo.Mu Demo.Sq
           _ _ _ _ _ _ _ _ 3 6 1 6 1
           euclid_profile_length demo_in_range_call).
Defined.

(** C2, as stated, fails: on six points with [m = 4] the zone of row 1 is
    [[0, 2]] and covers all three windows; the engine returns best index 0
    for that row, inside the zone. *)
Lemma exclusion_zone_best_index_counterexample :
  ceil_quarter 4 = 1
  ∧ Demo.short_run.2 = Ok ([PInf; Fin 4], [(0, -1, -1); (0, 0, -1)])
  ∧ in_zone 1 1 0.
Proof.
  split; [reflexivity|]. split; [vm_compute; reflexivity|].
  unfold in_zone. lia.
Qed.

(** ** The recurrence against the direct computation *)

(** [round_f64] leaves the integers of at most 53 bits alone and rounds
    the others to the nearest representable one, ties to even. *)
Lemma round_f64_small x : Z.abs x < 2 ^ 53 → round_f64 x = x.
Proof.
  intros Hx. unfold round_f64. rewrite bool_decide_true; [done|].
  destruct (decide (Z.abs x = 0)) as [->|Hne]; [done|].
  assert (Z.log2 (Z.abs x) < 53); [|lia].
  apply Z.log2_lt_pow2; lia.
Qed.

Example round_f64_rounds :
  round_f64 (2 ^ 60 + 4) = 2 ^ 60
  ∧ round_f64 (2 ^ 53 + 1) = 2 ^ 53
  ∧ round_f64 (2 ^ 53 + 3) = 2 ^ 53 + 4
  ∧ round_f64 (- (2 ^ 53 + 1)) = - 2 ^ 53.
Proof. repeat split; vm_compute; reflexivity. Qed.

Section RecurrenceValues.
Context `{Scalar R} `{ExactScalar E}.
Variable val : R → E.

Lemma elt_fmap (a : list R) i :
  0 ≤ i < Z.of_nat (length a) → elt (val <$> a) i = val (elt a i).
Proof.
  intros Hi. apply elt_lookup; [lia|].
  by rewrite list_lookup_fmap, lookup_elt by lia.
Qed.

(** When no column update of the row rounds, the numbers the updated
    buffer stands for are the incremental update, in exact arithmetic, of
    the numbers the previous buffer stands for. *)
Lemma incremental_row_val (ta tb qtf prev : list R) m k i :
  1 ≤ m → 1 ≤ i → 1 ≤ k →
  i + m ≤ Z.of_nat (length tb) → k + m - 1 ≤ Z.of_nat (length ta) →
  i < Z.of_nat (length qtf) → length prev = Z.to_nat k →
  (∀ j, 1 ≤ j < k →
     exact_update val (elt prev (j - 1)) (elt tb (i - 1)) (elt ta (j - 1))
       (elt tb (i + m - 1)) (elt ta (j + m - 1))) →
  val <$> incremental_row ta tb qtf prev m k i
  = incremental_row (val <$> ta) (val <$> tb) (val <$> qtf) (val <$> prev) m k i.
Proof.
  intros Hm Hi Hk Hb Ha Hf Hprev Hexact. unfold incremental_row.
  rewrite fmap_cons, elt_fmap by lia. f_equal.
  rewrite <- list_fmap_compose. apply list_fmap_ext. intros n j Hj.
  apply lookup_seqZ in Hj as [-> Hn]. cbn.
  rewrite !elt_fmap by lia. apply Hexact. lia.
Qed.

(** From a [QT] that stands for the dot products of row
    [range_start - 1], rows whose updates do not round leave buffers that
    stand for the dot products of their rows. *)
Lemma buffer_after_val (ta tb qtf qt0 : list R) m k range_start n :
  1 ≤ m → 1 ≤ range_start → 1 ≤ k →
  range_start + Z.of_nat n ≤ Z.of_nat (length tb) - m + 1 →
  k + m - 1 ≤ Z.of_nat (length ta) →
  range_start + Z.of_nat n ≤ Z.of_nat (length qtf) →
  length qt0 = Z.to_nat k →
  val <$> qt0 = direct_row (val <$> ta) (val <$> tb) m k (range_start - 1) →
  (∀ i, range_start ≤ i < range_start + Z.of_nat n →
        val (elt qtf i) = sliding_dot (val <$> ta) (val <$> tb) m i 0) →
  (∀ i, range_start ≤ i < range_start + Z.of_nat n →
        exact_row val ta tb qtf qt0 m k range_start i) →
  val <$> buffer_after ta tb qtf m k range_start qt0 n
  = direct_row (val <$> ta) (val <$> tb) m k (range_start + Z.of_nat n - 1).
Proof.
  intros Hm Hrs Hk Hb Ha Hf Hqt0 Hqt Hfirst Hexact. induction n as [|n IH].
  - cbn. rewrite Hqt. f_equal. lia.
  - cbn [buffer_after]. set (i := range_start + Z.of_nat n).
    rewrite incremental_row_val; try lia.
    + rewrite IH by (intros; try apply Hfirst; try apply Hexact; lia).
      replace (range_start + Z.of_nat n - 1) with (i - 1) by lia.
      replace (range_start + Z.of_nat (S n) - 1) with i by lia.
      apply incremental_row_direct; rewrite ?length_fmap; try lia.
      rewrite elt_fmap by lia. apply Hfirst. lia.
    + apply buffer_after_length; [lia|done].
    + specialize (Hexact i ltac:(lia)). unfold exact_row in Hexact.
      by replace (Z.to_nat (i - range_start)) with n in Hexact by lia.
Qed.
End RecurrenceValues.

(** C1, as the code has it.  [val] gives the number each scalar stands
    for.  On in-range inputs, when [QT] stands for the dot products of
    query window [range_start - 1] (window 0 for the driver, which passes
    [range_start = 1]), [QT_first[i]] for the dot product of query window
    [i] with reference window 0, and no column update of lines 121 and 124
    incurs a rounding error, the engine returns, the buffer the
    incremental update produces for every row [i] stands for the directly
    computed dot products of the row, and row [i] of the output is the one
    extracted from the distance profile of that buffer.  The arithmetic of
    the code itself is arbitrary: it may round elsewhere. *)
Theorem recurrence_equals_direct `{Scalar R} `{ExactScalar E} (val : R → E)
    (K : Z → list R → R → R → list R → list R → list (dist R))
    (s : mem R) T_A T_B M_T Σ_T QT QT_first μ_Q σ_Q
    ta tb mt st qt0 qtf μs σs m k range_start range_stop excl_zone
    ignore_trivial :
  (∀ m qt μ σ mt st, length (K m qt μ σ mt st) = length qt) →
  in_range_call s T_A T_B M_T Σ_T QT QT_first μ_Q σ_Q
    ta tb mt st qt0 qtf μs σs m k range_start range_stop →
  val <$> qt0 = direct_row (val <$> ta) (val <$> tb) m k (range_start - 1) →
  (∀ i, range_start ≤ i < range_stop →
        val (elt qtf i) = sliding_dot (val <$> ta) (val <$> tb) m i 0) →
  (∀ i, range_start ≤ i < range_stop →
        exact_row val ta tb qtf qt0 m k range_start i) →
  ∃ s' profile indices,
    _mstump K T_A T_B m range_stop excl_zone M_T Σ_T QT QT_first μ_Q σ_Q k
      ignore_trivial range_start s = (s', Ok (profile, indices))
    ∧ (∃ live_ref live,
         (live_ref ∉ dom (arrays s))
         ∧ arrays s' !! live_ref = Some live
         ∧ val <$> live
           = direct_row (val <$> ta) (val <$> tb) m k (range_stop - 1))
    ∧ ∀ i, range_start ≤ i < range_stop →
        val <$> row_buffer ta tb qtf qt0 m k range_start i
        = direct_row (val <$> ta) (val <$> tb) m k i
        ∧ emits ignore_trivial excl_zone i
            (row_profile K ta tb mt st qt0 qtf μs σs m k range_start i)
            profile indices (Z.to_nat (i - range_start)).
Proof.
  intros HK Hcall Hqt Hfirst Hexact.
  destruct (_mstump_in_range K s T_A T_B M_T Σ_T QT QT_first μ_Q σ_Q
              ta tb mt st _ qtf μs σs m k range_start range_stop excl_zone
              ignore_trivial HK Hcall)
    as (s' & profile & indices & Hrun & _ & _ & (l & Hl & Hbuf) & Hrows).
  destruct Hcall as [_ _ _ _ _ _ _ _ Hm Hrs Hstop Hk Hqt0 Hqtf _ _].
  assert (∀ n, range_start + Z.of_nat n ≤ range_stop →
            val <$> buffer_after ta tb qtf m k range_start qt0 n
            = direct_row (val <$> ta) (val <$> tb) m k
                (range_start + Z.of_nat n - 1)) as Hdirect.
  { intros n Hn. apply buffer_after_val; try lia; try done.
    - intros i Hi. apply Hfirst. lia.
    - intros i Hi. apply Hexact. lia. }
  exists s', profile, indices. split; [done|]. split.
  - exists l, (buffer_after ta tb qtf m k range_start qt0
                 (Z.to_nat (range_stop - range_start))).
    split; [done|]. split; [done|]. rewrite Hdirect by lia. f_equal. lia.
  - intros i Hi. split; [|by destruct (Hrows i Hi)].
    unfold row_buffer. rewrite Hdirect by lia. f_equal. lia.
Qed.

(** The theorem at work in [float64]: on the series [1, ..., 8] no
    operation of the call rounds. *)
Lemma recurrence_equals_direct_witness :
  ∃ s' profile indices,
    Demo.run_f64 = (s', Ok (profile, indices))
    ∧ (∃ live_ref live,
         (live_ref ∉ dom (arrays Demo.store))
         ∧ arrays s' !! live_ref = Some live
         ∧ id <$> live
           = direct_row (id <$> [1; 2; 3; 4; 5; 6; 7; 8])
               (id <$> [1; 2; 3; 4; 5; 6; 7; 8]) 3 6 (6 - 1))
    ∧ ∀ i, 1 ≤ i < 6 →
        id <$> @row_buffer Z F64 [1; 2; 3; 4; 5; 6; 7; 8] [1; 2; 3; 4; 5; 6; 7; 8]
                 [14; 20; 26; 32; 38; 44] [14; 20; 26; 32; 38; 44] 3 6 1 i
        = direct_row (id <$> [1; 2; 3; 4; 5; 6; 7; 8])
            (id <$> [1; 2; 3; 4; 5; 6; 7; 8]) 3 6 i
        ∧ @emits Z F64 true 1 i
            (@row_profile Z F64 euclid_profile
               [1; 2; 3; 4; 5; 6; 7; 8] [1; 2; 3; 4; 5; 6; 7; 8]
               [2; 3; 4; 5; 6; 7] [14; 29; 50; 77; 110; 149]
               [14; 20; 26; 32; 38; 44] [14; 20; 26; 32; 38; 44]
               [2; 3; 4; 5; 6; 7] [14; 29; 50; 77; 110; 149] 3 6 1 i)
            profile indices (Z.to_nat (i - 1)).
Proof.
  apply (@recurrence_equals_direct Z F64 Z Z_Scalar Z_Exact id
           euclid_profile Demo.store
           Demo.T Demo.T Demo.Mu Demo.Sq Demo.QT Demo.QT Demo.Mu Demo.Sq
           _ _ _ _ _ _ _ _ 3 6 1 6 1 true
           euclid_profile_length demo_in_range_call).
  - vm_compute; reflexivity.
  - intros i Hi.
    assert (i = 1 ∨ i = 2 ∨ i = 3 ∨ i = 4 ∨ i = 5) as Hcases by lia.
    destruct Hcases as [->|[->|[->|[->| ->]]]]; vm_compute; reflexivity.
  - intros i Hi j Hj.
    assert (i = 1 ∨ i = 2 ∨ i = 3 ∨ i = 4 ∨ i = 5) as Hi' by lia.
    assert (j = 1 ∨ j = 2 ∨ j = 3 ∨ j = 4 ∨ j = 5) as Hj' by lia.
    destruct Hi' as [->|[->|[->|[->| ->]]]];
      destruct Hj' as [->|[->|[->|[->| ->]]]]; vm_compute; reflexivity.
Defined.

(** C1, as stated, fails on the code, whose arithmetic is [float64].  On
    the series [0, 2^30, 2, 2, 2] with [m = 2], called as the driver calls
    the engine ([range_start = 1], [QT] and [QT_first] the exact dot
    products with window 0, the tables the exact means and standard
    deviations of the windows), the update of column 1 of row 1 rounds
    [2^60 + 4] to [2^60]; row 2 subtracts [2^60] from it and leaves 4 in
    column 2, where the dot product of window 2 with itself is 8, computed
    exactly as well as in [float64]. *)
Lemma recurrence_cancellation_counterexample :
  in_range_call Demo.cancel_store
    Demo.T Demo.T Demo.Mu Demo.Sq Demo.QT Demo.QT Demo.Mu Demo.Sq
    [0; 1073741824; 2; 2; 2] [0; 1073741824; 2; 2; 2]
    [536870912; 536870913; 2; 2] [536870912; 536870911; 0; 0]
    [1152921504606846976; 2147483648; 2147483648; 2147483648]
    [1152921504606846976; 2147483648; 2147483648; 2147483648]
    [536870912; 536870913; 2; 2] [536870912; 536870911; 0; 0] 2 4 1 3
  ∧ [1152921504606846976; 2147483648; 2147483648; 2147483648]
    = direct_row [0; 1073741824; 2; 2; 2] [0; 1073741824; 2; 2; 2] 2 4 0
  ∧ [1152921504606846976; 2147483648; 2147483648; 2147483648]
    = (λ i, sliding_dot [0; 1073741824; 2; 2; 2] [0; 1073741824; 2; 2; 2] 2 i 0)
        <$> seqZ 0 4
  ∧ (∃ profile indices, Demo.cancel_run.2 = Ok (profile, indices))
  ∧ arrays Demo.cancel_run.1 !! 6%positive
    = Some [2147483648; 2147483652; 4; 8]
  ∧ @row_buffer Z F64 [0; 1073741824; 2; 2; 2] [0; 1073741824; 2; 2; 2]
      [1152921504606846976; 2147483648; 2147483648; 2147483648]
      [1152921504606846976; 2147483648; 2147483648; 2147483648] 2 4 1 2
    = [2147483648; 2147483652; 4; 8]
  ∧ direct_row [0; 1073741824; 2; 2; 2] [0; 1073741824; 2; 2; 2] 2 4 2
    = [2147483648; 2147483652; 8; 8]
  ∧ @direct_row Z F64 [0; 1073741824; 2; 2; 2] [0; 1073741824; 2; 2; 2] 2 4 2
    = [2147483648; 2147483652; 8; 8].
Proof.
  split; [split; try reflexivity; cbn; lia|].
  repeat split; try (vm_compute; reflexivity).
  eexists _, _. vm_compute. reflexivity.
Qed.

(** The claim also fails in exact arithmetic when [QT] is not the row
    before [range_start]: with [range_start = 2] and the dot products of
    query window 0 in [QT], the buffer the engine writes for row 2 is not
    the directly computed one, and the row it emits is not the one the
    directly computed dot products give. *)
Example recurrence_from_window_0 :
  arrays Demo.store !! Demo.QT
    = Some (direct_row [1; 2; 3; 4; 5; 6; 7; 8] [1; 2; 3; 4; 5; 6; 7; 8] 3 6 0)
  ∧ elt [14; 20; 26; 32; 38; 44] 2
    = sliding_dot [1; 2; 3; 4; 5; 6; 7; 8] [1; 2; 3; 4; 5; 6; 7; 8] 3 2 0
  ∧ arrays Demo.run_from_2.1 !! 6%positive = Some [26; 32; 41; 50; 59; 68]
  ∧ direct_row [1; 2; 3; 4; 5; 6; 7; 8] [1; 2; 3; 4; 5; 6; 7; 8] 3 6 2
    = [26; 38; 50; 62; 74; 86]
  ∧ Demo.run_from_2.2 = Ok ([Fin 3], [(0, -1, -1)])
  ∧ extract_row false 1 2
      (euclid_profile 3
         (direct_row [1; 2; 3; 4; 5; 6; 7; 8] [1; 2; 3; 4; 5; 6; 7; 8] 3 6 2)
         4 50 [2; 3; 4; 5; 6; 7] [14; 29; 50; 77; 110; 149])
    = Ok ([Fin 12; Fin 3; Fin 0; Fin 3; Fin 12; Fin 27], (Fin 0, (2, -1, -1))).
Proof. repeat split; vm_compute; reflexivity. Qed.

(** ** A row whose zone covers every window *)

(** C10: in a self-join on in-range inputs, when the exclusion zone of row
    [i] covers all [k] reference windows ([i ≤ zone] and
    [k ≤ i + zone + 1]), every entry of the masked distance profile of the
    row is [+inf], and the engine emits distance [+inf], best index 0,
    which lies in the zone, and [-1] for the left and the right index. *)
Theorem fully_masked_row `{Scalar R}
    (K : Z → list R → R → R → list R → list R → list (dist R))
    (s : mem R) T_A T_B M_T Σ_T QT QT_first μ_Q σ_Q
    ta tb mt st qt0 qtf μs σs m k range_start range_stop excl_zone i :
  (∀ m qt μ σ mt st, length (K m qt μ σ mt st) = length qt) →
  in_range_call s T_A T_B M_T Σ_T QT QT_first μ_Q σ_Q
    ta tb mt st qt0 qtf μs σs m k range_start range_stop →
  range_start ≤ i < range_stop →
  i ≤ excl_zone → k ≤ i + excl_zone + 1 →
  ∃ s' profile indices,
    _mstump K T_A T_B m range_stop excl_zone M_T Σ_T QT QT_first μ_Q σ_Q k
      true range_start s = (s', Ok (profile, indices))
    ∧ (let D := masked true excl_zone i
                  (row_profile K ta tb mt st qt0 qtf μs σs m k range_start i) in
       length D = Z.to_nat k
       ∧ ∀ n y, D !! n = Some y → y = PInf)
    ∧ profile !! Z.to_nat (i - range_start) = Some PInf
    ∧ indices !! Z.to_nat (i - range_start) = Some (0, -1, -1)
    ∧ in_zone i excl_zone 0.
Proof.
  intros HK Hcall Hi Hiz Hkz.
  destruct (_mstump_in_range K s T_A T_B M_T Σ_T QT QT_first μ_Q σ_Q
              ta tb mt st qt0 qtf μs σs m k range_start range_stop excl_zone
              true HK Hcall)
    as (s' & profile & indices & Hrun & _ & _ & _ & Hrows).
  destruct Hcall as [_ _ _ _ _ _ _ _ Hm Hrs Hstop Hk _ _ _ _].
  destruct (Hrows i Hi) as (HlenK & Hemit).
  set (D := masked true excl_zone i
              (row_profile K ta tb mt st qt0 qtf μs σs m k range_start i)).
  assert (length D = Z.to_nat k) as HlenD.
  { unfold D. by rewrite masked_length. }
  assert (∀ n y, D !! n = Some y → y = PInf) as Hinf.
  { intros n y Hn. pose proof (lookup_lt_Some _ _ _ Hn) as Hlt.
    rewrite HlenD in Hlt. eapply masked_zone_inf; [|exact Hn].
    unfold in_zone. lia. }
  exists s', profile, indices. split; [done|]. split; [done|].
  destruct Hemit as (P & [[I IL] IR] & Hex & Hp & Hix).
  apply extract_row_inv in Hex as (_ & (n & d & -> & Hmin & Hd & ->) & HIL & HIR).
  fold D in Hmin, Hd, HIL, HIR.
  apply first_min_all_inf in Hmin as ->; [|done].
  rewrite (Hinf _ _ Hd) in *.
  apply left_index_inv in HIL. apply right_index_inv in HIR.
  assert (IL = -1) as ->.
  { destruct HIL as [?|(_ & Hpos & Hout & nl & -> & Hnl)]; [done|].
    apply first_min_lt in Hnl.
    pose proof (py_slice_prefix_length D i ltac:(lia)). lia. }
  assert (IR = -1) as ->.
  { destruct HIR as [?|(_ & Hpos & Hout & nr & -> & Hnr)]; [done|].
    apply first_min_lt in Hnr.
    pose proof (py_slice_suffix_length D (i + 1) ltac:(lia)). lia. }
  split; [done|]. split; [done|]. unfold in_zone. lia.
Qed.

Lemma fully_masked_row_witness :
  ∃ s' profile indices,
    Demo.short_run = (s', Ok (profile, indices))
    ∧ (let D := masked true 1 1
                  (row_profile euclid_profile
                     [1; 2; 3; 4; 5; 6] [1; 2; 3; 4; 5; 6] [2; 3; 4] [30; 54; 86]
                     [30; 40; 50] [30; 40; 50] [2; 3; 4] [30; 54; 86] 4 3 1 1) in
       length D = Z.to_nat 3
       ∧ ∀ n y, D !! n = Some y → y = PInf)
    ∧ profile !! Z.to_nat (1 - 1) = Some PInf
    ∧ indices !! Z.to_nat (1 - 1) = Some (0, -1, -1)
    ∧ in_zone 1 1 0.
Proof.
  apply (fully_masked_row euclid_profile Demo.short_store
           Demo.T Demo.T Demo.Mu Demo.Sq Demo.QT Demo.QT Demo.Mu Demo.Sq
           _ _ _ _ _ _ _ _ 4 3 1 3 1 1
           euclid_profile_length demo_short_in_range_call); lia.
Defined.

(** ** The driver *)

Section DriverProperties.
Context `{Scalar R}.
Variable K : Z → list R → R → R → list R → list R → list (dist R).
Variable check_dtype : list R → bool.
Variable are_arrays_equal : list R → list R → bool.
Variable compute_mean_std : list R → Z → list R * list R.
Variable _get_first_stump_profile :
  Z → list R → list R → Z → Z → list R → list R → bool → dist R * (Z * Z * Z).
Variable _get_QT : Z → list R → list R → Z → list R * list R.
Variable are_distances_too_small : list (dist R) → bool.

Abbreviation driver :=
  (mstump K check_dtype are_arrays_equal compute_mean_std
     _get_first_stump_profile _get_QT are_distances_too_small).

Lemma call_check_dtype_run x a (s : mem R) :
  arrays s !! x = Some a →
  call_check_dtype check_dtype x s
  = (s, if check_dtype a then Ok () else Err InvalidInputError).
Proof.
  intros Hx. unfold call_check_dtype.
  rewrite (run_bind_ok _ _ _ _ _ (load_run _ _ _ Hx)).
  by destruct (check_dtype a).
Qed.

Lemma raises_after {A B} e (c : M R A) (f : A → M R B) :
  succeeds c → (∀ a, raises e (f a)) → raises e (c ≫= f).
Proof.
  intros Hc Hf s. destruct (Hc s) as (s' & a & Hrun).
  rewrite (run_bind_ok _ _ _ _ _ Hrun). apply Hf.
Qed.

Lemma raises_lift {A B} e (f : A → M R B) :
  raises (R:=R) e (lift (Err e) ≫= f).
Proof. intros s. reflexivity. Qed.

Lemma raises_lift_ok {A B} e (a : A) (f : A → M R B) :
  raises e (f a) → raises e (lift (Ok a) ≫= f).
Proof. intros Hf s. apply Hf. Qed.

Lemma succeeds_mret {A} (a : A) : succeeds (mret a : M R A).
Proof. intros s. by exists s, a. Qed.

Lemma succeeds_warn msg : succeeds (R:=R) (warn msg).
Proof. intros s. by eexists _, (). Qed.

Lemma succeeds_new_array a : succeeds (R:=R) (new_array a).
Proof. intros s. by eexists _, _. Qed.

Lemma succeeds_bind {A B} (c : M R A) (f : A → M R B) :
  succeeds c → (∀ a, succeeds (f a)) → succeeds (c ≫= f).
Proof.
  intros Hc Hf s. destruct (Hc s) as (s1 & a & Hrun).
  rewrite (run_bind_ok _ _ _ _ _ Hrun). apply Hf.
Qed.

Lemma succeeds_warn_if (b : bool) msg1 msg2 :
  succeeds (R:=R) (if b then _ ← warn msg1; warn msg2 else mret ()).
Proof.
  destruct b; [|apply succeeds_mret].
  apply succeeds_bind; [|intros _]; apply succeeds_warn.
Qed.

(** C6 fails on the code: the driver calls [_stump], a name the module
    neither defines nor imports (its engine is [_mstump]).  With the
    global names the module binds, on series of a supported element type
    with at least one window, the call raises [NameError] once row 0 and
    the dot products of row 0 have been computed, and returns no rows. *)
Theorem entry_point_raises_name_error T_A m T_B ignore_trivial (s : mem R) ta tb :
  arrays s !! T_A = Some ta →
  arrays s !! default T_A T_B = Some tb →
  check_dtype ta = true → check_dtype tb = true →
  m ≤ Z.of_nat (length tb) →
  (driver module_namespace T_A m T_B ignore_trivial s).2
  = Err (NameError "_stump").
Proof.
  intros HA HB Hca Hcb Hl. unfold mstump.
  rewrite (run_bind_ok _ _ s s ()) by by rewrite (call_check_dtype_run _ ta), Hca.
  set (b := default T_A T_B) in *.
  set (ign := match T_B with None => true | Some _ => ignore_trivial end).
  replace (match T_B with None => (T_A, true) | Some T_B0 => (T_B0, ignore_trivial) end)
    with (b, ign) by by destruct T_B.
  rewrite (run_bind_ok _ _ s s ()) by by rewrite (call_check_dtype_run _ tb), Hcb.
  rewrite (run_bind_ok _ _ _ _ _ (load_run _ _ _ HA)).
  rewrite (run_bind_ok _ _ _ _ _ (load_run _ _ _ HB)).
  apply raises_after; [apply succeeds_warn_if|intros _].
  apply raises_after; [apply succeeds_warn_if|intros _].
  destruct (compute_mean_std ta m) as [mt st].
  apply raises_after; [apply succeeds_new_array|intros M_T].
  apply raises_after; [apply succeeds_new_array|intros Σ_T].
  destruct (compute_mean_std tb m) as [μq σq].
  apply raises_after; [apply succeeds_new_array|intros μ_Q].
  apply raises_after; [apply succeeds_new_array|intros σ_Q].
  unfold np_empty. rewrite !bool_decide_false by lia.
  do 3 apply raises_lift_ok.
  destruct (_get_first_stump_profile _ _ _ _ _ _ _ _) as [P0 I0].
  rewrite !setitem_in_range by (rewrite length_replicate; lia).
  do 2 apply raises_lift_ok.
  destruct (_get_QT 0 ta tb m) as [qt qtf].
  apply raises_after; [apply succeeds_new_array|intros QT].
  apply raises_after; [apply succeeds_new_array|intros QT_first].
  apply raises_lift.
Qed.

(** C7: a call with [T_B] omitted is the call with [T_B] the same array as
    [T_A] and [ignore_trivial] true, whatever value of [ignore_trivial]
    was supplied: same result, same store, same warnings. *)
Theorem omitted_T_B_is_self_join ns T_A m ignore_trivial (s : mem R) :
  driver ns T_A m None ignore_trivial s = driver ns T_A m (Some T_A) true s.
Proof. reflexivity. Qed.

(** C3, as the code has it: when [core.check_dtype] rejects [T_A] or [T_B],
    the driver raises the validation error at once, with the store and the
    warnings as they were; it makes no check on [m]. *)
Theorem unsupported_dtype_rejected ns T_A m T_B ignore_trivial (s : mem R) ta tb :
  arrays s !! T_A = Some ta →
  arrays s !! default T_A T_B = Some tb →
  check_dtype ta = false ∨ check_dtype tb = false →
  driver ns T_A m T_B ignore_trivial s = (s, Err InvalidInputError).
Proof.
  intros HA HB Hbad. unfold mstump.
  destruct (check_dtype ta) eqn:Hca.
  - destruct Hbad as [?|Hcb]; [done|].
    rewrite (run_bind_ok _ _ s s ())
      by by rewrite (call_check_dtype_run _ ta), Hca.
    replace (match T_B with
             | None => (T_A, true)
             | Some T_B0 => (T_B0, ignore_trivial)
             end)
      with (default T_A T_B,
            match T_B with None => true | Some _ => ignore_trivial end)
      by by destruct T_B.
    apply run_bind_err. by rewrite (call_check_dtype_run _ tb), Hcb.
  - apply run_bind_err. by rewrite (call_check_dtype_run _ ta), Hca.
Qed.
End DriverProperties.

Lemma unsupported_dtype_rejected_witness :
  mstump euclid_profile (λ _, false) (λ a b, bool_decide (a = b))
    Demo.int_mean_std Demo.int_first_profile Demo.int_get_QT (λ _, false)
    module_namespace Demo.T 3 None true Demo.series_store
  = (Demo.series_store, Err InvalidInputError).
Proof.
  apply (unsupported_dtype_rejected euclid_profile (λ _, false)
           (λ a b, bool_decide (a = b))
           Demo.int_mean_std Demo.int_first_profile Demo.int_get_QT (λ _, false)
           module_namespace Demo.T 3 None true Demo.series_store
           [1; 2; 3; 4; 5; 6; 7; 8] [1; 2; 3; 4; 5; 6; 7; 8]);
    [reflexivity | reflexivity | left; reflexivity].
Defined.

(** C3, as stated, fails: with [m = 1] and with [m = 8 = len(T_A)] no
    validation error is raised.  With the module's global names the mean
    table is computed and stored before the call ends in the [NameError]
    of [_stump]; with [_stump] bound to the engine the driver returns rows
    for both values of [m]. *)
Lemma window_size_not_validated_counterexample :
  (Demo.drive module_namespace 1 None true).2 = Err (NameError "_stump")
  ∧ arrays (Demo.drive module_namespace 1 None true).1 !! 2%positive
    = Some [1; 2; 3; 4; 5; 6; 7; 8]
  ∧ arrays Demo.series_store !! 2%positive = None
  ∧ (Demo.drive module_namespace 8 None true).2 = Err (NameError "_stump")
  ∧ (Demo.drive Demo.namespace_with_stump 1 None true).2
    = Ok [(Fin 2, (2, -1, 2)); (Fin 2, (3, -1, 3)); (Fin 2, (0, 0, 4));
          (Fin 2, (1, 1, 5)); (Fin 2, (2, 2, 6)); (Fin 2, (3, 3, 7));
          (Fin 2, (4, 4, -1)); (Fin 2, (5, 5, -1))]
  ∧ (Demo.drive Demo.namespace_with_stump 8 None true).2
    = Ok [(PInf, (0, -1, -1))].
Proof. repeat split; vm_compute; reflexivity. Qed.

Lemma entry_point_raises_name_error_witness :
  (Demo.drive module_namespace 3 None true).2 = Err (NameError "_stump").
Proof.
  apply (entry_point_raises_name_error euclid_profile (λ _, true)
           (λ a b, bool_decide (a = b))
           Demo.int_mean_std Demo.int_first_profile Demo.int_get_QT (λ _, false)
           Demo.T 3 None true Demo.series_store
           [1; 2; 3; 4; 5; 6; 7; 8] [1; 2; 3; 4; 5; 6; 7; 8]);
    try reflexivity.
  cbn. lia.
Defined.

(** Were [_stump] bound to the engine [_mstump], the same call would
    return the six rows. *)
Example entry_point_with_stump_bound :
  (Demo.drive Demo.namespace_with_stump 3 None true).2
  = Ok [(Fin 3, (2, -1, 2)); (Fin 3, (3, -1, 3)); (Fin 3, (0, 0, 4));
        (Fin 3, (1, 1, 5)); (Fin 3, (2, 2, -1)); (Fin 3, (3, 3, -1))].
Proof. vm_compute; reflexivity. Qed.

(** Were a single buffer updated in place, the result would depend on the
    order of the column updates: the ascending order reads entries the
    loop has already overwritten. *)
Example in_place_update_depends_on_order :
  arrays
    (col_loop Demo.T Demo.T 3 6 Demo.QT_odd Demo.QT_odd 1 (py_range 1 6)
       Demo.store_with_buffers).1 !! Demo.QT_odd
  = Some [14; 29; 38; 47; 56; 65]
  ∧ arrays
      (col_loop Demo.T Demo.T 3 6 Demo.QT_odd Demo.QT_odd 1 [5; 4; 3; 2; 1]
         Demo.store_with_buffers).1 !! Demo.QT_odd
    = Some [14; 29; 47; 68; 92; 119].
Proof. split; vm_compute; reflexivity. Qed.

(** ** Left and right neighbours *)

Lemma py_slice_prefix {A} (D : list A) i :
  0 ≤ i → py_slice D None (Some i) = take (Z.to_nat i) D.
Proof.
  intros Hi. unfold py_slice, slice_bound. cbn [from_option].
  rewrite bool_decide_false by lia. rewrite drop_0, Nat.sub_0_r.
  destruct (decide (i ≤ Z.of_nat (length D))).
  - by rewrite Z.min_l by lia.
  - rewrite Z.min_r by lia. rewrite Nat2Z.id.
    rewrite !take_ge by lia. done.
Qed.

Lemma py_slice_suffix {A} (D : list A) i :
  0 ≤ i → py_slice D (Some i) None = drop (Z.to_nat i) D.
Proof.
  intros Hi. unfold py_slice, slice_bound. cbn [from_option].
  rewrite bool_decide_false by lia.
  rewrite take_ge by (rewrite length_drop; lia).
  destruct (decide (i ≤ Z.of_nat (length D))).
  - by rewrite Z.min_l by lia.
  - rewrite Z.min_r by lia. rewrite Nat2Z.id.
    rewrite !drop_ge by lia. done.
Qed.

Section Neighbours.
Context `{Scalar R}.
Implicit Types D : list (dist R).

(** The first minimum of a prefix, read on the whole list. *)
Lemma first_min_take D (c n : nat) :
  first_min (take c D) n →
  (n < c)%nat
  ∧ ∃ d, D !! n = Some d
      ∧ (∀ j y, (j < c)%nat → D !! j = Some y → dist_ltb y d = false)
      ∧ (∀ j y, (j < n)%nat → D !! j = Some y → dist_ltb d y = true).
Proof.
  intros Hmin. pose proof (first_min_lt _ _ Hmin) as Hlt.
  rewrite length_take in Hlt.
  destruct Hmin as (d & Hd & Hle & Hfirst).
  split; [lia|]. exists d. rewrite lookup_take_lt in Hd by lia.
  split; [done|split].
  - intros j y Hj Hy. apply (Hle j). by rewrite lookup_take_lt by lia.
  - intros j y Hj Hy. apply (Hfirst j); [done|]. by rewrite lookup_take_lt by lia.
Qed.

(** The first minimum of a suffix, read on the whole list. *)
Lemma first_min_drop D (c n : nat) :
  first_min (drop c D) n →
  ∃ d, D !! (c + n)%nat = Some d
    ∧ (∀ j y, (c ≤ j)%nat → D !! j = Some y → dist_ltb y d = false)
    ∧ (∀ j y, (c ≤ j < c + n)%nat → D !! j = Some y → dist_ltb d y = true).
Proof.
  intros (d & Hd & Hle & Hfirst). exists d. rewrite lookup_drop in Hd.
  split; [done|split].
  - intros j y Hj Hy. apply (Hle (j - c)%nat). rewrite lookup_drop.
    by replace (c + (j - c))%nat with j by lia.
  - intros j y Hj Hy. apply (Hfirst (j - c)%nat); [lia|]. rewrite lookup_drop.
    by replace (c + (j - c))%nat with j by lia.
Qed.

Lemma left_index_self zone i D IL :
  0 < i →
  left_index true (Z.max 0 (i - zone)) (i + zone + 1) i (masked true zone i D)
    = Ok IL →
  (i ≤ zone → IL = -1)
  ∧ (zone < i →
     ∃ n d, IL = Z.of_nat n ∧ Z.of_nat n < i - zone
       ∧ masked true zone i D !! n = Some d
       ∧ (∀ j y, Z.of_nat j < i → masked true zone i D !! j = Some y →
                 dist_ltb y d = false)
       ∧ (∀ j y, (j < n)%nat → masked true zone i D !! j = Some y →
                 dist_ltb d y = true)).
Proof.
  intros Hi. unfold left_index. cbn [andb]. rewrite bool_decide_true by lia.
  intros (I & HI & Hguard)%result_bind_ok_inv.
  apply np_argmin_spec in HI as (n & -> & Hmin).
  rewrite py_slice_prefix in Hmin by lia.
  apply first_min_take in Hmin as (Hn & d & Hd & Hle & Hfirst).
  split.
  - intros Hz. rewrite bool_decide_true in Hguard by lia. congruence.
  - intros Hz.
    assert (Z.of_nat n < i - zone) as Hout.
    { destruct (decide (Z.of_nat n < i - zone)) as [|Hin]; [done|exfalso].
      assert (d = PInf) as ->.
      { eapply (masked_zone_inf zone i D n); [|done]. unfold in_zone. lia. }
      assert (is_Some (masked true zone i D !! 0%nat)) as [y Hy].
      { apply lookup_lt_is_Some. apply lookup_lt_Some in Hd. lia. }
      specialize (Hfirst 0%nat y ltac:(lia) Hy). done. }
    rewrite bool_decide_false in Hguard by lia.
    injection Hguard as <-. exists n, d. repeat split; try done.
    intros j y Hj. apply Hle. lia.
Qed.

Lemma right_index_self zone i D IR :
  0 ≤ i → 0 ≤ zone →
  right_index true (Z.max 0 (i - zone)) (i + zone + 1) i (masked true zone i D)
    = Ok IR →
  (Z.of_nat (length D) ≤ i + zone + 1 → IR = -1)
  ∧ (IR ≠ -1 →
     ∃ n d, IR = Z.of_nat n ∧ i + zone < Z.of_nat n
       ∧ masked true zone i D !! n = Some d
       ∧ (∀ j y, i < Z.of_nat j → masked true zone i D !! j = Some y →
                 dist_ltb y d = false)
       ∧ (∀ j y, i < Z.of_nat j → (j < n)%nat →
                 masked true zone i D !! j = Some y → dist_ltb d y = true))
  ∧ (∀ j x, i + zone < Z.of_nat j → masked true zone i D !! j = Some (Fin x) →
            IR ≠ -1).
Proof.
  intros Hi Hz. unfold right_index. cbn [andb]. rewrite masked_length.
  case_bool_decide as Hlen.
  2: { intros [= <-]. split; [done|split; [done|]].
       intros j x Hj Hx. apply lookup_lt_Some in Hx.
       rewrite masked_length in Hx. lia. }
  intros (r & Hr & Hguard)%result_bind_ok_inv.
  apply np_argmin_spec in Hr as (n & -> & Hmin).
  rewrite py_slice_suffix in Hmin by lia.
  apply first_min_drop in Hmin as (d & Hd & Hle & Hfirst).
  pose proof (lookup_lt_Some _ _ _ Hd) as Hlt. rewrite masked_length in Hlt.
  set (c := Z.to_nat (i + 1)) in *.
  assert (Z.of_nat (c + n) = i + 1 + Z.of_nat n) as Hcn by lia.
  assert (IR ≠ -1 → IR = Z.of_nat (c + n) ∧ i + zone < Z.of_nat (c + n)) as Hout.
  { intros HIR. revert Hguard. case_bool_decide; intros [= <-]; [done|].
    split; lia. }
  split; [|split].
  - intros Hshort. revert Hguard. case_bool_decide; intros [= <-]; [done|lia].
  - intros HIR. destruct (Hout HIR) as [-> Hbeyond].
    exists (c + n)%nat, d. repeat split; try done.
    + intros j y Hj. apply Hle. lia.
    + intros j y Hj Hjn. apply Hfirst. lia.
  - intros j x Hj Hx.
    assert (i + zone < Z.of_nat (c + n)) as Hbeyond.
    { destruct (decide (i + zone < Z.of_nat (c + n))) as [|Hin]; [done|exfalso].
      assert (d = PInf) as ->.
      { eapply (masked_zone_inf zone i D (c + n)); [|done]. unfold in_zone. lia. }
      specialize (Hle j (Fin x) ltac:(lia) Hx). done. }
    revert Hguard. case_bool_decide; intros [= <-]; lia.
Qed.
End Neighbours.

(** X3: in a self-join on in-range inputs, the left index of row [i] is
    [-1] exactly when [i ≤ excl_zone]; otherwise it is the first index at
    which the masked profile takes its minimum over the windows before
    [i], and it lies to the left of the exclusion zone. *)
Theorem left_index_is_nearest_earlier_window `{Scalar R}
    (K : Z → list R → R → R → list R → list R → list (dist R))
    (s : mem R) T_A T_B M_T Σ_T QT QT_first μ_Q σ_Q
    ta tb mt st qt0 qtf μs σs m k range_start range_stop excl_zone :
  (∀ m qt μ σ mt st, length (K m qt μ σ mt st) = length qt) →
  in_range_call s T_A T_B M_T Σ_T QT QT_first μ_Q σ_Q
    ta tb mt st qt0 qtf μs σs m k range_start range_stop →
  ∃ s' profile indices,
    _mstump K T_A T_B m range_stop excl_zone M_T Σ_T QT QT_first μ_Q σ_Q k
      true range_start s = (s', Ok (profile, indices))
    ∧ ∀ i, range_start ≤ i < range_stop →
        let D := masked true excl_zone i
                   (row_profile K ta tb mt st qt0 qtf μs σs m k range_start i) in
        ∃ I IL IR,
          indices !! Z.to_nat (i - range_start) = Some (I, IL, IR)
          ∧ (i ≤ excl_zone → IL = -1)
          ∧ (excl_zone < i →
             ∃ n d, IL = Z.of_nat n ∧ Z.of_nat n < i - excl_zone
               ∧ D !! n = Some d
               ∧ (∀ j y, Z.of_nat j < i → D !! j = Some y → dist_ltb y d = false)
               ∧ (∀ j y, (j < n)%nat → D !! j = Some y → dist_ltb d y = true)).
Proof.
  intros HK Hcall.
  destruct (_mstump_in_range K s T_A T_B M_T Σ_T QT QT_first μ_Q σ_Q
              ta tb mt st qt0 qtf μs σs m k range_start range_stop excl_zone
              true HK Hcall)
    as (s' & profile & indices & Hrun & _ & _ & _ & Hrows).
  exists s', profile, indices. split; [done|]. intros i Hi D.
  destruct (Hrows i Hi) as (_ & P & [[I IL] IR] & Hex & _ & Hix).
  apply extract_row_inv in Hex as (_ & _ & HIL & _).
  exists I, IL, IR. split; [done|].
  apply left_index_self; [|done]. destruct Hcall. lia.
Qed.

Lemma left_index_is_nearest_earlier_window_witness :
  ∃ s' profile indices,
    Demo.run true = (s', Ok (profile, indices))
    ∧ ∀ i, 1 ≤ i < 6 →
        let D := masked true 1 i
                   (row_profile euclid_profile
                      [1; 2; 3; 4; 5; 6; 7; 8] [1; 2; 3; 4; 5; 6; 7; 8]
                      [2; 3; 4; 5; 6; 7] [14; 29; 50; 77; 110; 149]
                      [14; 20; 26; 32; 38; 44] [14; 20; 26; 32; 38; 44]
                      [2; 3; 4; 5; 6; 7] [14; 29; 50; 77; 110; 149] 3 6 1 i) in
        ∃ I IL IR,
          indices !! Z.to_nat (i - 1) = Some (I, IL, IR)
          ∧ (i ≤ 1 → IL = -1)
          ∧ (1 < i →
             ∃ n d, IL = Z.of_nat n ∧ Z.of_nat n < i - 1
               ∧ D !! n = Some d
               ∧ (∀ j y, Z.of_nat j < i → D !! j = Some y → dist_ltb y d = false)
               ∧ (∀ j y, (j < n)%nat → D !! j = Some y → dist_ltb d y = true)).
Proof.
  exact (left_index_is_nearest_earlier_window euclid_profile Demo.store
           Demo.T Demo.T Demo.Mu Demo.Sq Demo.QT Demo.QT Demo.Mu Demo.Sq
           _ _ _ _ _ _ _ _ 3 6 1 6 1
           euclid_profile_length demo_in_range_call).
Defined.

(** X4: in a self-join on in-range inputs with [excl_zone ≥ 0], the right
    index of row [i] is [-1] when no window lies to the right of the
    exclusion zone; when it is not [-1] it is the first index at which the
    masked profile takes its minimum over the windows after [i], it lies
    to the right of the zone and below [k]; and it is not [-1] as soon as
    the profile has a finite entry to the right of the zone. *)
Theorem right_index_is_nearest_later_window `{Scalar R}
    (K : Z → list R → R → R → list R → list R → list (dist R))
    (s : mem R) T_A T_B M_T Σ_T QT QT_first μ_Q σ_Q
    ta tb mt st qt0 qtf μs σs m k range_start range_stop excl_zone :
  (∀ m qt μ σ mt st, length (K m qt μ σ mt st) = length qt) →
  in_range_call s T_A T_B M_T Σ_T QT QT_first μ_Q σ_Q
    ta tb mt st qt0 qtf μs σs m k range_start range_stop →
  0 ≤ excl_zone →
  ∃ s' profile indices,
    _mstump K T_A T_B m range_stop excl_zone M_T Σ_T QT QT_first μ_Q σ_Q k
      true range_start s = (s', Ok (profile, indices))
    ∧ ∀ i, range_start ≤ i < range_stop →
        let D := masked true excl_zone i
                   (row_profile K ta tb mt st qt0 qtf μs σs m k range_start i) in
        ∃ I IL IR,
          indices !! Z.to_nat (i - range_start) = Some (I, IL, IR)
          ∧ (k ≤ i + excl_zone + 1 → IR = -1)
          ∧ (IR ≠ -1 →
             ∃ n d, IR = Z.of_nat n ∧ i + excl_zone < Z.of_nat n < k
               ∧ D !! n = Some d
               ∧ (∀ j y, i < Z.of_nat j → D !! j = Some y → dist_ltb y d = false)
               ∧ (∀ j y, i < Z.of_nat j → (j < n)%nat → D !! j = Some y →
                         dist_ltb d y = true))
          ∧ (∀ j x, i + excl_zone < Z.of_nat j → D !! j = Some (Fin x) →
                    IR ≠ -1).
Proof.
  intros HK Hcall Hzone.
  destruct (_mstump_in_range K s T_A T_B M_T Σ_T QT QT_first μ_Q σ_Q
              ta tb mt st qt0 qtf μs σs m k range_start range_stop excl_zone
              true HK Hcall)
    as (s' & profile & indices & Hrun & _ & _ & _ & Hrows).
  exists s', profile, indices. split; [done|]. intros i Hi D.
  destruct (Hrows i Hi) as (Hlen & P & [[I IL] IR] & Hex & _ & Hix).
  apply extract_row_inv in Hex as (_ & _ & _ & HIR).
  exists I, IL, IR. split; [done|].
  assert (1 ≤ k ∧ 1 ≤ range_start) as [Hk Hrs] by (destruct Hcall; lia).
  apply right_index_self in HIR as (Hshort & Hsome & Hfin); [|lia|done].
  split; [|split; [|done]].
  - intros Hk'. apply Hshort. rewrite Hlen. lia.
  - intros HIR. destruct (Hsome HIR) as (n & d & -> & Hn & Hd & Hle & Hfirst).
    exists n, d. repeat split; try done.
    apply lookup_lt_Some in Hd. unfold D in Hd.
    rewrite masked_length, Hlen in Hd. lia.
Qed.

Lemma right_index_is_nearest_later_window_witness :
  ∃ s' profile indices,
    Demo.run true = (s', Ok (profile, indices))
    ∧ ∀ i, 1 ≤ i < 6 →
        let D := masked true 1 i
                   (row_profile euclid_profile
                      [1; 2; 3; 4; 5; 6; 7; 8] [1; 2; 3; 4; 5; 6; 7; 8]
                      [2; 3; 4; 5; 6; 7] [14; 29; 50; 77; 110; 149]
                      [14; 20; 26; 32; 38; 44] [14; 20; 26; 32; 38; 44]
                      [2; 3; 4; 5; 6; 7] [14; 29; 50; 77; 110; 149] 3 6 1 i) in
        ∃ I IL IR,
          indices !! Z.to_nat (i - 1) = Some (I, IL, IR)
          ∧ (6 ≤ i + 1 + 1 → IR = -1)
          ∧ (IR ≠ -1 →
             ∃ n d, IR = Z.of_nat n ∧ i + 1 < Z.of_nat n < 6
               ∧ D !! n = Some d
               ∧ (∀ j y, i < Z.of_nat j → D !! j = Some y → dist_ltb y d = false)
               ∧ (∀ j y, i < Z.of_nat j → (j < n)%nat → D !! j = Some y →
                         dist_ltb d y = true))
          ∧ (∀ j x, i + 1 < Z.of_nat j → D !! j = Some (Fin x) → IR ≠ -1).
Proof.
  exact (right_index_is_nearest_later_window euclid_profile Demo.store
           Demo.T Demo.T Demo.Mu Demo.Sq Demo.QT Demo.QT Demo.Mu Demo.Sq
           _ _ _ _ _ _ _ _ 3 6 1 6 1
           euclid_profile_length demo_in_range_call ltac:(lia)).
Defined.

(** ** Splitting a call *)

Lemma buffer_after_split `{Scalar R} (ta tb qtf : list R) m k range_start qt0
    (n1 n2 : nat) :
  buffer_after ta tb qtf m k (range_start + Z.of_nat n1)
    (buffer_after ta tb qtf m k range_start qt0 n1) n2
  = buffer_after ta tb qtf m k range_start qt0 (n1 + n2).
Proof.
  induction n2 as [|n2 IH]; [by rewrite Nat.add_0_r|].
  rewrite Nat.add_succ_r. cbn [buffer_after]. rewrite IH.
  f_equal. lia.
Qed.

Lemma emits_agree `{Scalar R} ign zone i (D : list (dist R)) p ix r p' ix' r' :
  emits ign zone i D p ix r → emits ign zone i D p' ix' r' →
  p !! r = p' !! r' ∧ ix !! r = ix' !! r'.
Proof.
  intros (P & I3 & Hex & Hp & Hi) (P' & I3' & Hex' & Hp' & Hi').
  rewrite Hex in Hex'. injection Hex' as <- <-.
  by rewrite Hp, Hp', Hi, Hi'.
Qed.

(** X1: a call can be split at any row [mid]: the rows of a call over
    [[range_start, range_stop)] are the rows of the call over
    [[range_start, mid)] followed by the rows of a call over
    [[mid, range_stop)] whose [QT] holds the dot-product buffer the first
    [mid - range_start] rows leave. *)
Theorem engine_call_splits_at_any_row `{Scalar R}
    (K : Z → list R → R → R → list R → list R → list (dist R))
    (s : mem R) T_A T_B M_T Σ_T QT QT' QT_first μ_Q σ_Q
    ta tb mt st qt0 qtf μs σs m k range_start mid range_stop excl_zone
    ignore_trivial :
  (∀ m qt μ σ mt st, length (K m qt μ σ mt st) = length qt) →
  in_range_call s T_A T_B M_T Σ_T QT QT_first μ_Q σ_Q
    ta tb mt st qt0 qtf μs σs m k range_start range_stop →
  range_start ≤ mid ≤ range_stop →
  arrays s !! QT'
    = Some (buffer_after ta tb qtf m k range_start qt0
              (Z.to_nat (mid - range_start))) →
  ∃ p1 i1 p2 i2,
    (_mstump K T_A T_B m mid excl_zone M_T Σ_T QT QT_first μ_Q σ_Q k
       ignore_trivial range_start s).2 = Ok (p1, i1)
    ∧ (_mstump K T_A T_B m range_stop excl_zone M_T Σ_T QT' QT_first μ_Q σ_Q k
         ignore_trivial mid s).2 = Ok (p2, i2)
    ∧ (_mstump K T_A T_B m range_stop excl_zone M_T Σ_T QT QT_first μ_Q σ_Q k
         ignore_trivial range_start s).2 = Ok (p1 ++ p2, i1 ++ i2).
Proof.
  intros HK Hcall Hmid HQ'.
  pose proof Hcall as [HA HB HM HS HQ HF Hμ Hσ Hm Hrs Hstop Hk Hqt0 Hqtf Hμs Hσs].
  set (n1 := Z.to_nat (mid - range_start)) in *.
  set (qt1 := buffer_after ta tb qtf m k range_start qt0 n1) in *.
  assert (in_range_call s T_A T_B M_T Σ_T QT QT_first μ_Q σ_Q
            ta tb mt st qt0 qtf μs σs m k range_start mid) as Hcall1
    by (split; try done; lia).
  assert (in_range_call s T_A T_B M_T Σ_T QT' QT_first μ_Q σ_Q
            ta tb mt st qt1 qtf μs σs m k mid range_stop) as Hcall2.
  { split; try done; try lia. apply buffer_after_length; [lia|done]. }
  destruct (_mstump_in_range K s _ _ _ _ _ _ _ _ _ _ _ _ _ _ _ _ _ _ _ _
              excl_zone ignore_trivial HK Hcall)
    as (s' & p & ix & Hrun & Hlp & Hli & _ & Hrows).
  destruct (_mstump_in_range K s _ _ _ _ _ _ _ _ _ _ _ _ _ _ _ _ _ _ _ _
              excl_zone ignore_trivial HK Hcall1)
    as (s1 & p1 & i1 & Hrun1 & Hlp1 & Hli1 & _ & Hrows1).
  destruct (_mstump_in_range K s _ _ _ _ _ _ _ _ _ _ _ _ _ _ _ _ _ _ _ _
              excl_zone ignore_trivial HK Hcall2)
    as (s2 & p2 & i2 & Hrun2 & Hlp2 & Hli2 & _ & Hrows2).
  exists p1, i1, p2, i2. rewrite Hrun, Hrun1, Hrun2. cbn [snd].
  split; [done|split; [done|]].
  assert (∀ r, p !! r = (p1 ++ p2) !! r ∧ ix !! r = (i1 ++ i2) !! r) as Hall.
  { intros r. destruct (decide (r < n1)%nat) as [Hr1|Hr1].
    - rewrite !lookup_app_l by lia.
      set (i := range_start + Z.of_nat r).
      destruct (Hrows i ltac:(lia)) as [_ He].
      destruct (Hrows1 i ltac:(lia)) as [_ He1].
      replace (Z.to_nat (i - range_start)) with r in * by lia.
      exact (emits_agree _ _ _ _ _ _ _ _ _ _ He He1).
    - rewrite !lookup_app_r by lia. rewrite Hlp1, Hli1. fold n1.
      destruct (decide (r < Z.to_nat (range_stop - range_start))%nat) as [Hr|Hr].
      + set (i := range_start + Z.of_nat r).
        destruct (Hrows i ltac:(lia)) as [_ He].
        destruct (Hrows2 i ltac:(lia)) as [_ He2].
        replace (Z.to_nat (i - range_start)) with r in * by lia.
        replace (Z.to_nat (i - mid)) with (r - n1)%nat in * by lia.
        replace (row_profile K ta tb mt st qt1 qtf μs σs m k mid i)
          with (row_profile K ta tb mt st qt0 qtf μs σs m k range_start i)
          in He2.
        { exact (emits_agree _ _ _ _ _ _ _ _ _ _ He He2). }
        unfold row_profile, row_buffer. f_equal. unfold qt1.
        replace mid with (range_start + Z.of_nat n1) at 1 by lia.
        rewrite buffer_after_split. f_equal. lia.
      + rewrite !lookup_ge_None_2 by lia. done. }
  f_equal. f_equal; apply list_eq; intros r; apply Hall.
Qed.

Lemma engine_call_splits_at_any_row_witness :
  ∃ p1 i1 p2 i2,
    (_mstump euclid_profile Demo.T Demo.T 3 3 1 Demo.Mu Demo.Sq Demo.QT Demo.QT
       Demo.Mu Demo.Sq 6 true 1 Demo.store_with_row2).2 = Ok (p1, i1)
    ∧ (_mstump euclid_profile Demo.T Demo.T 3 6 1 Demo.Mu Demo.Sq
         Demo.QT_row2 Demo.QT Demo.Mu Demo.Sq 6 true 3
         Demo.store_with_row2).2 = Ok (p2, i2)
    ∧ (_mstump euclid_profile Demo.T Demo.T 3 6 1 Demo.Mu Demo.Sq Demo.QT Demo.QT
         Demo.Mu Demo.Sq 6 true 1 Demo.store_with_row2).2
      = Ok (p1 ++ p2, i1 ++ i2).
Proof.
  apply (engine_call_splits_at_any_row euclid_profile Demo.store_with_row2
           Demo.T Demo.T Demo.Mu Demo.Sq Demo.QT Demo.QT_row2 Demo.QT
           Demo.Mu Demo.Sq
           [1; 2; 3; 4; 5; 6; 7; 8] [1; 2; 3; 4; 5; 6; 7; 8]
           [2; 3; 4; 5; 6; 7] [14; 29; 50; 77; 110; 149]
           [14; 20; 26; 32; 38; 44] [14; 20; 26; 32; 38; 44]
           [2; 3; 4; 5; 6; 7] [14; 29; 50; 77; 110; 149] 3 6 1 3 6 1 true).
  - exact euclid_profile_length.
  - split; try reflexivity; cbn; lia.
  - lia.
  - reflexivity.
Defined.

(** ** What the self-join flag and the zone can change *)

Section Flags.
Context `{Scalar R}.
Variable K : Z → list R → R → R → list R → list R → list (dist R).

Lemma extract_row_outcome ign zone i (D : list (dist R)) :
  match extract_row ign zone i D with
  | Ok _ => D ≠ []
  | Err e => D = [] ∧ e = ValueError
  end.
Proof.
  destruct D as [|d D].
  - by destruct ign.
  - destruct (extract_row_total ign zone i (d :: D) ltac:(done))
      as (P & I3 & ->). done.
Qed.

Lemma setitem_same_length {A B} (a : list A) (b : list B) i v w :
  length a = length b →
  match setitem a i v, setitem b i w with
  | Ok a', Ok b' => length a' = length b'
  | Err e, Err e' => e = e'
  | _, _ => False
  end.
Proof.
  intros Hlen. unfold setitem. rewrite Hlen.
  destruct (py_index (length b) i) as [n|e]; cbn; [|done].
  by rewrite !length_insert.
Qed.

Lemma lift_bind_run {A B} (r : result A) (f : A → M R B) (s : mem R) :
  (lift r ≫= f) s = match r with Ok a => f a s | Err e => (s, Err e) end.
Proof. rewrite run_bind. unfold lift. by destruct r. Qed.

Lemma row_flags T_A T_B m rstop zone zone' M_T Σ_T QT_first μ_Q σ_Q k ign ign'
    rs o e p ix p' ix' i (s : mem R) :
  length p = length p' → length ix = length ix' →
  (row K T_A T_B m rstop zone M_T Σ_T QT_first μ_Q σ_Q k ign rs o e
     (p, ix) i s).1
  = (row K T_A T_B m rstop zone' M_T Σ_T QT_first μ_Q σ_Q k ign' rs o e
       (p', ix') i s).1
  ∧ same_outcome
      (row K T_A T_B m rstop zone M_T Σ_T QT_first μ_Q σ_Q k ign rs o e
         (p, ix) i s).2
      (row K T_A T_B m rstop zone' M_T Σ_T QT_first μ_Q σ_Q k ign' rs o e
         (p', ix') i s).2.
Proof.
  intros Hp Hix. unfold row. rewrite !run_bind.
  destruct (col_loop T_A T_B m k o e i (py_range 1 k) s) as [s1 [[]|er]];
    [|done].
  rewrite !run_bind.
  destruct (seed_and_profile K m M_T Σ_T QT_first μ_Q σ_Q o e i s1)
    as [s2 [D|er]]; [|done].
  rewrite !lift_bind_run.
  pose proof (extract_row_outcome ign zone i D) as Ho.
  pose proof (extract_row_outcome ign' zone' i D) as Ho'.
  destruct (extract_row ign zone i D) as [[Dm [P I3]]|er],
           (extract_row ign' zone' i D) as [[Dm' [P' I3']]|er'];
    try (by destruct Ho); try (by destruct Ho').
  2: { destruct Ho as [_ ->], Ho' as [_ ->]. done. }
  rewrite !lift_bind_run.
  pose proof (setitem_same_length p p' (i - rs) P P' Hp) as Hs.
  destruct (setitem p (i - rs) P) as [q|er], (setitem p' (i - rs) P') as [q'|er'];
    try done.
  rewrite !lift_bind_run.
  pose proof (setitem_same_length ix ix' (i - rs) I3 I3' Hix) as Hs'.
  destruct (setitem ix (i - rs) I3) as [jx|er], (setitem ix' (i - rs) I3') as [jx'|er'];
    try done; by subst.
Qed.

Lemma rows_flags T_A T_B m rstop zone zone' M_T Σ_T QT_first μ_Q σ_Q k ign ign'
    rs o e (xs : list Z) :
  ∀ p ix p' ix' (s : mem R),
    length p = length p' → length ix = length ix' →
    (for_loop (row K T_A T_B m rstop zone M_T Σ_T QT_first μ_Q σ_Q k ign rs o e)
       (p, ix) xs s).1
    = (for_loop (row K T_A T_B m rstop zone' M_T Σ_T QT_first μ_Q σ_Q k ign' rs o e)
         (p', ix') xs s).1
    ∧ same_outcome
        (for_loop (row K T_A T_B m rstop zone M_T Σ_T QT_first μ_Q σ_Q k ign rs o e)
           (p, ix) xs s).2
        (for_loop (row K T_A T_B m rstop zone' M_T Σ_T QT_first μ_Q σ_Q k ign' rs o e)
           (p', ix') xs s).2.
Proof.
  induction xs as [|i xs IH]; intros p ix p' ix' s Hp Hix; [done|].
  cbn [for_loop]. rewrite !run_bind.
  destruct (row_flags T_A T_B m rstop zone zone' M_T Σ_T QT_first μ_Q σ_Q k
              ign ign' rs o e p ix p' ix' i s Hp Hix) as [Hs Ho].
  destruct (row K T_A T_B m rstop zone M_T Σ_T QT_first μ_Q σ_Q k ign rs o e
              (p, ix) i s) as [s1 [[q jx]|er]],
           (row K T_A T_B m rstop zone' M_T Σ_T QT_first μ_Q σ_Q k ign' rs o e
              (p', ix') i s) as [s1' [[q' jx']|er']];
    cbn in Hs, Ho; subst; try done.
  destruct Ho. by apply IH.
Qed.
End Flags.

(** In the model, two calls that differ in [ignore_trivial] and
    [excl_zone] alone leave the same store and either raise the same
    exception or return arrays of the same lengths. *)
Lemma _mstump_flags `{Scalar R}
    (K : Z → list R → R → R → list R → list R → list (dist R))
    T_A T_B m range_stop M_T Σ_T QT QT_first μ_Q σ_Q k range_start
    excl_zone ignore_trivial excl_zone' ignore_trivial' (s : mem R) :
  (_mstump K T_A T_B m range_stop excl_zone M_T Σ_T QT QT_first μ_Q σ_Q k
     ignore_trivial range_start s).1
  = (_mstump K T_A T_B m range_stop excl_zone' M_T Σ_T QT QT_first μ_Q σ_Q k
       ignore_trivial' range_start s).1
  ∧ same_outcome
      (_mstump K T_A T_B m range_stop excl_zone M_T Σ_T QT QT_first μ_Q σ_Q k
         ignore_trivial range_start s).2
      (_mstump K T_A T_B m range_stop excl_zone' M_T Σ_T QT QT_first μ_Q σ_Q k
         ignore_trivial' range_start s).2.
Proof.
  unfold _mstump. rewrite !run_bind.
  destruct (copy QT s) as [s1 [o|er]]; [|done].
  rewrite !run_bind.
  destruct (copy QT s1) as [s2 [e|er]]; [|done].
  rewrite !lift_bind_run.
  destruct (np_empty (range_stop - range_start) (Fin r0)) as [p|er]; [|done].
  rewrite !lift_bind_run.
  destruct (np_empty (range_stop - range_start) (0, 0, 0)) as [ix|er]; [|done].
  by apply rows_flags.
Qed.

(** X2: [ignore_trivial] and [excl_zone] act on the extracted rows only:
    on in-range inputs two calls that differ in them alone both return,
    leave the same store, with the same buffers and the same warnings, and
    return arrays of the same lengths. *)
Theorem masking_changes_rows_only `{Scalar R}
    (K : Z → list R → R → R → list R → list R → list (dist R))
    (s : mem R) T_A T_B M_T Σ_T QT QT_first μ_Q σ_Q
    ta tb mt st qt0 qtf μs σs m k range_start range_stop
    excl_zone ignore_trivial excl_zone' ignore_trivial' :
  (∀ m qt μ σ mt st, length (K m qt μ σ mt st) = length qt) →
  in_range_call s T_A T_B M_T Σ_T QT QT_first μ_Q σ_Q
    ta tb mt st qt0 qtf μs σs m k range_start range_stop →
  ∃ s' profile indices profile' indices',
    _mstump K T_A T_B m range_stop excl_zone M_T Σ_T QT QT_first μ_Q σ_Q k
      ignore_trivial range_start s = (s', Ok (profile, indices))
    ∧ _mstump K T_A T_B m range_stop excl_zone' M_T Σ_T QT QT_first μ_Q σ_Q k
        ignore_trivial' range_start s = (s', Ok (profile', indices'))
    ∧ length profile = length profile'
    ∧ length indices = length indices'.
Proof.
  intros HK Hcall.
  destruct (_mstump_in_range K s T_A T_B M_T Σ_T QT QT_first μ_Q σ_Q
              ta tb mt st qt0 qtf μs σs m k range_start range_stop excl_zone
              ignore_trivial HK Hcall)
    as (s1 & p & ix & Hrun & _).
  destruct (_mstump_in_range K s T_A T_B M_T Σ_T QT QT_first μ_Q σ_Q
              ta tb mt st qt0 qtf μs σs m k range_start range_stop excl_zone'
              ignore_trivial' HK Hcall)
    as (s2 & p' & ix' & Hrun' & _).
  destruct (_mstump_flags K T_A T_B m range_stop M_T Σ_T QT QT_first μ_Q σ_Q k
              range_start excl_zone ignore_trivial excl_zone' ignore_trivial' s)
    as [Hstore Hshape].
  rewrite Hrun, Hrun' in Hstore, Hshape. cbn in Hstore, Hshape. subst s2.
  destruct Hshape as [Hp Hix]. by exists s1, p, ix, p', ix'.
Qed.

Lemma masking_changes_rows_only_witness :
  ∃ s' profile indices profile' indices',
    Demo.run true = (s', Ok (profile, indices))
    ∧ Demo.run false = (s', Ok (profile', indices'))
    ∧ length profile = length profile'
    ∧ length indices = length indices'.
Proof.
  exact (masking_changes_rows_only euclid_profile Demo.store
           Demo.T Demo.T Demo.Mu Demo.Sq Demo.QT Demo.QT Demo.Mu Demo.Sq
           _ _ _ _ _ _ _ _ 3 6 1 6 1 true 1 false
           euclid_profile_length demo_in_range_call).
Defined.

(** X5: a call that returns gives a profile and an index array of
    exactly [range_stop - range_start] rows each. *)
Theorem engine_output_has_one_row_per_window `{Scalar R}
    (K : Z → list R → R → R → list R → list R → list (dist R))
    T_A T_B m range_stop excl_zone M_T Σ_T QT QT_first μ_Q σ_Q k
    ignore_trivial range_start (s : mem R) profile indices :
  (_mstump K T_A T_B m range_stop excl_zone M_T Σ_T QT QT_first μ_Q σ_Q k
     ignore_trivial range_start s).2 = Ok (profile, indices) →
  Z.of_nat (length profile) = range_stop - range_start
  ∧ Z.of_nat (length indices) = range_stop - range_start.
Proof.
  destruct (_mstump _ _ _ _ _ _ _ _ _ _ _ _ _ _ _ s) as [s' r] eqn:Hrun.
  cbn [snd]. intros ->.
  pose proof (_mstump_rows K _ _ _ _ _ _ _ _ _ _ _ _ _ _ _ _ _ _ Hrun)
    as (Hlp & Hli & _).
  assert (range_start ≤ range_stop); [|lia].
  unfold _mstump in Hrun.
  apply bind_ok_inv in Hrun as (s1 & o & _ & Hrun).
  apply bind_ok_inv in Hrun as (s2 & e & _ & Hrun).
  apply bind_ok_inv in Hrun as (s3 & p & Hp & _).
  apply lift_ok_inv in Hp as [_ Hp]. unfold np_empty in Hp.
  case_bool_decide; [done|lia].
Qed.

Lemma engine_output_has_one_row_per_window_witness :
  Z.of_nat (length [Fin 3; Fin 3; Fin 3; Fin 3; Fin 3]) = 6 - 1
  ∧ Z.of_nat (length [(3, -1, 3); (0, 0, 4); (1, 1, 5); (2, 2, -1); (3, 3, -1)])
    = 6 - 1.
Proof.
  apply (engine_output_has_one_row_per_window euclid_profile
           Demo.T Demo.T 3 6 1 Demo.Mu Demo.Sq Demo.QT Demo.QT Demo.Mu Demo.Sq 6
           true 1 Demo.store).
  vm_compute. reflexivity.
Defined.

(** X6: with [range_stop = range_start] the engine returns two empty
    arrays, and with [range_stop < range_start] the allocation of line
    108 raises [ValueError]; in both cases [QT] is the only argument that
    has to refer to an array. *)
Theorem empty_or_negative_row_range `{Scalar R}
    (K : Z → list R → R → R → list R → list R → list (dist R))
    T_A T_B m range_stop excl_zone M_T Σ_T QT QT_first μ_Q σ_Q k
    ignore_trivial range_start (s : mem R) qt0 :
  arrays s !! QT = Some qt0 →
  range_stop ≤ range_start →
  (_mstump K T_A T_B m range_stop excl_zone M_T Σ_T QT QT_first μ_Q σ_Q k
     ignore_trivial range_start s).2
  = if bool_decide (range_stop = range_start) then Ok ([], [])
    else Err ValueError.
Proof.
  intros HQ Hle. unfold _mstump, copy.
  rewrite (run_bind_ok _ _ s _ _
             (run_bind_ok _ _ s s qt0 (load_run _ _ _ HQ) : _ = new_array qt0 s)).
  set (s1 := update _ qt0 s).
  assert (arrays s1 !! QT = Some qt0) as HQ1.
  { unfold s1. rewrite update_lookup_ne; [done|]. intros ->.
    apply (is_fresh (dom (arrays s))). by eapply elem_of_dom_2. }
  rewrite (run_bind_ok _ _ s1 _ _
             (run_bind_ok _ _ s1 s1 qt0 (load_run _ _ _ HQ1) : _ = new_array qt0 s1)).
  unfold np_empty, py_range.
  destruct (decide (range_stop = range_start)) as [->|Hne].
  - rewrite Z.sub_diag, (bool_decide_true (range_start = range_start)) by done.
    by rewrite !bool_decide_false by lia.
  - rewrite (bool_decide_false (range_stop = range_start)) by done.
    by rewrite !bool_decide_true by lia.
Qed.

Lemma empty_or_negative_row_range_witness :
  (_mstump euclid_profile Demo.T Demo.T 3 1 1 Demo.Mu Demo.Sq Demo.QT Demo.QT
     Demo.Mu Demo.Sq 6 true 1 Demo.store).2 = Ok ([], [])
  ∧ (_mstump euclid_profile Demo.T Demo.T 3 0 1 Demo.Mu Demo.Sq Demo.QT Demo.QT
       Demo.Mu Demo.Sq 6 true 1 Demo.store).2 = Err ValueError.
Proof.
  split.
  - apply (empty_or_negative_row_range euclid_profile Demo.T Demo.T 3 1 1
             Demo.Mu Demo.Sq Demo.QT Demo.QT Demo.Mu Demo.Sq 6 true 1 Demo.store
             [14; 20; 26; 32; 38; 44]); [reflexivity|lia].
  - apply (empty_or_negative_row_range euclid_profile Demo.T Demo.T 3 0 1
             Demo.Mu Demo.Sq Demo.QT Demo.QT Demo.Mu Demo.Sq 6 true 1 Demo.store
             [14; 20; 26; 32; 38; 44]); [reflexivity|lia].
Defined.

(** ** The driver: frame and warnings *)

Section KeepsExisting.
Context {R : Type}.
Implicit Types s : mem R.

Lemma keeps_existing_mret {A} (a : A) : keeps_existing (mret a : M R A).
Proof. by intros s s' r [= <- <-]. Qed.

Lemma keeps_existing_lift {A} (r : result A) : keeps_existing (R:=R) (lift r).
Proof. by intros s s' r' [= <- <-]. Qed.

Lemma keeps_existing_load x : keeps_existing (R:=R) (load x).
Proof.
  intros s s' r. unfold load. by destruct (arrays s !! x); intros [= <- <-].
Qed.

Lemma keeps_existing_warn msg : keeps_existing (R:=R) (warn msg).
Proof. by intros s s' r [= <- <-]. Qed.

Lemma keeps_existing_new_array a : keeps_existing (R:=R) (new_array a).
Proof.
  intros s s' r (l & _ & Hl & ->)%new_array_fresh x Hx.
  apply update_lookup_ne. congruence.
Qed.

Lemma keeps_existing_bind {A B} (c : M R A) (f : A → M R B) :
  keeps_existing c → (∀ a, keeps_existing (f a)) → keeps_existing (c ≫= f).
Proof.
  intros Hc Hf s s' r. rewrite run_bind.
  destruct (c s) as [s1 [a|e]] eqn:Hrun.
  - intros Hfa x Hx. pose proof (Hc _ _ _ Hrun x Hx) as Hx1.
    rewrite <- Hx1. apply (Hf a _ _ _ Hfa).
    apply elem_of_dom. rewrite Hx1. by apply elem_of_dom.
  - intros [= <- <-]. by apply (Hc _ _ _ Hrun).
Qed.

Lemma keeps_existing_warn_if (b : bool) msg1 msg2 :
  keeps_existing (R:=R) (if b then _ ← warn msg1; warn msg2 else mret ()).
Proof.
  destruct b; [|apply keeps_existing_mret].
  apply keeps_existing_bind; [|intros _]; apply keeps_existing_warn.
Qed.

Lemma silent_mret {A} (a : A) : silent (mret a : M R A).
Proof. done. Qed.

Lemma silent_lift {A} (r : result A) : silent (R:=R) (lift r).
Proof. done. Qed.

Lemma silent_load x : silent (R:=R) (load x).
Proof. intros s. unfold load. by destruct (arrays s !! x). Qed.

Lemma silent_new_array a : silent (R:=R) (new_array a).
Proof. done. Qed.

Lemma silent_bind {A B} (c : M R A) (f : A → M R B) :
  silent c → (∀ a, silent (f a)) → silent (c ≫= f).
Proof.
  intros Hc Hf s. rewrite run_bind. specialize (Hc s).
  destruct (c s) as [s1 [a|e]]; [|done]. rewrite Hf. done.
Qed.

Lemma logs_at_most_bind {A B} msgs (c : M R A) (f : A → M R B) :
  silent c → (∀ a, logs_at_most msgs (f a)) → logs_at_most msgs (c ≫= f).
Proof.
  intros Hc Hf s. rewrite run_bind. specialize (Hc s).
  destruct (c s) as [s1 [a|e]].
  - destruct (Hf a s1) as (rest & Hw & Hrest). exists rest.
    cbn in Hc. by rewrite Hw, Hc.
  - exists []. rewrite app_nil_r. auto.
Qed.

Lemma warn_if_run (b : bool) msg1 msg2 s :
  (if b then _ ← warn msg1; warn msg2 else mret ()) s
  = (Mem (arrays s) (warnings s ++ if b then [msg1; msg2] else []), Ok ()).
Proof.
  destruct b, s as [a w]; rewrite ?run_bind; cbn.
  - unfold warn. cbn. by rewrite <- app_assoc.
  - by rewrite app_nil_r.
Qed.

Lemma logs_at_most_warn_if {A} (b : bool) msg1 msg2 (a : A) :
  logs_at_most (R:=R) [msg1; msg2]
    (_ ← (if b then _ ← warn msg1; warn msg2 else mret ()); mret a).
Proof.
  intros s. destruct b.
  - exists [msg1; msg2]. split; [|by right].
    rewrite !run_bind. cbn. by rewrite <- app_assoc.
  - exists []. split; [|by left]. rewrite !run_bind. cbn. by rewrite app_nil_r.
Qed.
End KeepsExisting.

Section EngineFrame2.
Context `{Scalar R}.
Variable K : Z → list R → R → R → list R → list R → list (dist R).

Lemma keeps_existing__mstump T_A T_B m range_stop excl_zone M_T Σ_T QT QT_first
    μ_Q σ_Q k ignore_trivial range_start :
  keeps_existing
    (_mstump K T_A T_B m range_stop excl_zone M_T Σ_T QT QT_first μ_Q σ_Q k
       ignore_trivial range_start).
Proof. intros s s' r Hrun. by apply _mstump_frame in Hrun as [_ ?]. Qed.

Lemma silent__mstump T_A T_B m range_stop excl_zone M_T Σ_T QT QT_first
    μ_Q σ_Q k ignore_trivial range_start :
  silent
    (_mstump K T_A T_B m range_stop excl_zone M_T Σ_T QT QT_first μ_Q σ_Q k
       ignore_trivial range_start).
Proof.
  intros s. destruct (_mstump _ _ _ _ _ _ _ _ _ _ _ _ _ _ _ s) as [s' r] eqn:Hrun.
  by apply _mstump_frame in Hrun as [? _].
Qed.
End EngineFrame2.

Section DriverFrame.
Context `{Scalar R}.
Variable K : Z → list R → R → R → list R → list R → list (dist R).
Variable check_dtype : list R → bool.
Variable are_arrays_equal : list R → list R → bool.
Variable compute_mean_std : list R → Z → list R * list R.
Variable _get_first_stump_profile :
  Z → list R → list R → Z → Z → list R → list R → bool → dist R * (Z * Z * Z).
Variable _get_QT : Z → list R → list R → Z → list R * list R.
Variable are_distances_too_small : list (dist R) → bool.

Lemma keeps_existing_call_engine g T_A T_B m range_stop excl_zone M_T Σ_T QT
    QT_first μ_Q σ_Q k ignore_trivial range_start :
  keeps_existing
    (call_engine K g T_A T_B m range_stop excl_zone M_T Σ_T QT QT_first μ_Q σ_Q
       k ignore_trivial range_start).
Proof.
  destruct g; try apply keeps_existing_lift. apply keeps_existing__mstump.
Qed.

Lemma silent_call_engine g T_A T_B m range_stop excl_zone M_T Σ_T QT
    QT_first μ_Q σ_Q k ignore_trivial range_start :
  silent
    (call_engine K g T_A T_B m range_stop excl_zone M_T Σ_T QT QT_first μ_Q σ_Q
       k ignore_trivial range_start).
Proof. destruct g; try apply silent_lift. apply silent__mstump. Qed.

Lemma keeps_existing_call_check_dtype x :
  keeps_existing (call_check_dtype check_dtype x).
Proof.
  apply keeps_existing_bind; [apply keeps_existing_load|intros a].
  destruct (check_dtype a); [apply keeps_existing_mret|apply keeps_existing_lift].
Qed.

(** In the model the driver leaves every array that existed before the
    call as it was, whatever the outcome. *)
Lemma keeps_existing_mstump ns T_A m T_B ignore_trivial :
  keeps_existing
    (mstump K check_dtype are_arrays_equal compute_mean_std
       _get_first_stump_profile _get_QT are_distances_too_small
       ns T_A m T_B ignore_trivial).
Proof.
  unfold mstump.
  apply keeps_existing_bind; [apply keeps_existing_call_check_dtype|intros _].
  destruct (match T_B with
            | None => (T_A, true)
            | Some T_B0 => (T_B0, ignore_trivial)
            end) as [b ign].
  apply keeps_existing_bind; [apply keeps_existing_call_check_dtype|intros _].
  apply keeps_existing_bind; [apply keeps_existing_load|intros ta].
  apply keeps_existing_bind; [apply keeps_existing_load|intros tb].
  apply keeps_existing_bind; [apply keeps_existing_warn_if|intros _].
  apply keeps_existing_bind; [apply keeps_existing_warn_if|intros _].
  destruct (compute_mean_std ta m) as [mt st].
  apply keeps_existing_bind; [apply keeps_existing_new_array|intros M_T].
  apply keeps_existing_bind; [apply keeps_existing_new_array|intros Σ_T].
  destruct (compute_mean_std tb m) as [μq σq].
  apply keeps_existing_bind; [apply keeps_existing_new_array|intros μ_Q].
  apply keeps_existing_bind; [apply keeps_existing_new_array|intros σ_Q].
  do 3 (apply keeps_existing_bind; [apply keeps_existing_lift|intros ?]).
  destruct (_get_first_stump_profile _ _ _ _ _ _ _ _) as [P0 I0].
  do 2 (apply keeps_existing_bind; [apply keeps_existing_lift|intros ?]).
  destruct (_get_QT 0 ta tb m) as [qt qtf].
  apply keeps_existing_bind; [apply keeps_existing_new_array|intros QT].
  apply keeps_existing_bind; [apply keeps_existing_new_array|intros QT_first].
  apply keeps_existing_bind; [apply keeps_existing_lift|intros g].
  apply keeps_existing_bind; [apply keeps_existing_call_engine|intros [p1 i1]].
  do 2 (apply keeps_existing_bind; [apply keeps_existing_lift|intros ?]).
  apply keeps_existing_bind; [apply keeps_existing_warn_if|intros _].
  apply keeps_existing_mret.
Qed.

(** X7: the driver leaves every array that existed before the call as it
    was, in particular [T_A] and [T_B], in the two cases the model covers:
    with [_stump] unbound, as the module has it, on every input and
    whatever the outcome; and with [_stump] bound to the engine [_mstump],
    on calls in which every access of the engine is in range.  What the
    driver builds goes to new arrays. *)
Theorem driver_leaves_existing_arrays_unchanged ns T_A m T_B ignore_trivial
    (s : mem R) ta tb :
  ns !! "_stump"%string = None
  ∨ (ns !! "_stump"%string = Some RecurrenceEngine
     ∧ driver_call_in_range compute_mean_std _get_QT s T_A m T_B ta tb) →
  ∀ x, x ∈ dom (arrays s) →
    arrays (mstump K check_dtype are_arrays_equal compute_mean_std
              _get_first_stump_profile _get_QT are_distances_too_small
              ns T_A m T_B ignore_trivial s).1 !! x
    = arrays s !! x.
Proof.
  intros _ x Hx.
  eapply keeps_existing_mstump; [|done]. apply surjective_pairing.
Qed.

(** X8: on series of a supported element type the driver logs the hints
    of lines 221-227 as [mismatch_hints] gives them (the self-join hint
    when [ignore_trivial] is false and the series are equal, the AB-join
    hint when it is true and they differ, never both), then at most the
    hint of lines 258-260, and nothing else; with [_stump] unbound the
    latter is never logged. *)
Theorem driver_logs_only_its_hints ns T_A m T_B ignore_trivial (s : mem R) ta tb :
  arrays s !! T_A = Some ta →
  arrays s !! default T_A T_B = Some tb →
  check_dtype ta = true → check_dtype tb = true →
  ∃ rest,
    warnings (mstump K check_dtype are_arrays_equal compute_mean_std
                _get_first_stump_profile _get_QT are_distances_too_small
                ns T_A m T_B ignore_trivial s).1
    = warnings s
      ++ mismatch_hints (match T_B with None => true | Some _ => ignore_trivial end)
           (are_arrays_equal ta tb)
      ++ rest
    ∧ (rest = [] ∨ rest = small_distance_hints)
    ∧ (ns !! "_stump"%string = None → rest = []).
Proof.
  intros HA HB Hca Hcb. unfold mstump.
  rewrite (run_bind_ok _ _ s s ())
    by by rewrite (call_check_dtype_run _ _ ta), Hca.
  set (b := default T_A T_B) in *.
  set (ign := match T_B with None => true | Some _ => ignore_trivial end).
  replace (match T_B with None => (T_A, true) | Some T_B0 => (T_B0, ignore_trivial) end)
    with (b, ign) by by destruct T_B.
  rewrite (run_bind_ok _ _ s s ())
    by by rewrite (call_check_dtype_run _ _ tb), Hcb.
  rewrite (run_bind_ok _ _ _ _ _ (load_run _ _ _ HA)).
  rewrite (run_bind_ok _ _ _ _ _ (load_run _ _ _ HB)).
  set (eq := are_arrays_equal ta tb).
  rewrite (run_bind_ok _ _ _ _ _ (warn_if_run _ _ _ _)).
  rewrite (run_bind_ok _ _ _ _ _ (warn_if_run _ _ _ _)).
  match goal with |- context [warnings (_ ?s2).1] => set (s1 := s2) end.
  assert (warnings s1 = warnings s ++ mismatch_hints ign eq) as Hs1.
  { unfold s1, mismatch_hints.
    destruct ign, eq; cbn; by rewrite <- ?app_assoc, ?app_nil_r. }
  match goal with
  | |- context [warnings (?c s1).1] =>
      assert (logs_at_most small_distance_hints c
              ∧ (ns !! "_stump"%string = None → silent c)) as [Hlog Hsil]
  end.
  { split.
    - destruct (compute_mean_std ta m) as [mt st].
      apply logs_at_most_bind; [apply silent_new_array|intros M_T].
      apply logs_at_most_bind; [apply silent_new_array|intros Σ_T].
      destruct (compute_mean_std tb m) as [μq σq].
      apply logs_at_most_bind; [apply silent_new_array|intros μ_Q].
      apply logs_at_most_bind; [apply silent_new_array|intros σ_Q].
      do 3 (apply logs_at_most_bind; [apply silent_lift|intros ?]).
      destruct (_get_first_stump_profile _ _ _ _ _ _ _ _) as [P0 I0].
      do 2 (apply logs_at_most_bind; [apply silent_lift|intros ?]).
      destruct (_get_QT 0 ta tb m) as [qt qtf].
      apply logs_at_most_bind; [apply silent_new_array|intros QT].
      apply logs_at_most_bind; [apply silent_new_array|intros QT_first].
      apply logs_at_most_bind; [apply silent_lift|intros g].
      apply logs_at_most_bind; [apply silent_call_engine|intros [p1 i1]].
      do 2 (apply logs_at_most_bind; [apply silent_lift|intros ?]).
      apply logs_at_most_warn_if.
    - intros Hns.
      destruct (compute_mean_std ta m) as [mt st].
      apply silent_bind; [apply silent_new_array|intros M_T].
      apply silent_bind; [apply silent_new_array|intros Σ_T].
      destruct (compute_mean_std tb m) as [μq σq].
      apply silent_bind; [apply silent_new_array|intros μ_Q].
      apply silent_bind; [apply silent_new_array|intros σ_Q].
      do 3 (apply silent_bind; [apply silent_lift|intros ?]).
      destruct (_get_first_stump_profile _ _ _ _ _ _ _ _) as [P0 I0].
      do 2 (apply silent_bind; [apply silent_lift|intros ?]).
      destruct (_get_QT 0 ta tb m) as [qt qtf].
      apply silent_bind; [apply silent_new_array|intros QT].
      apply silent_bind; [apply silent_new_array|intros QT_first].
      unfold resolve. rewrite Hns. intros s2. reflexivity. }
  destruct (Hlog s1) as (rest & Hw & Hrest). exists rest.
  split; [|split; [done|]].
  - rewrite Hw, Hs1. by rewrite <- app_assoc.
  - intros Hns. specialize (Hsil Hns s1). rewrite Hsil in Hw.
    apply (f_equal length) in Hw. rewrite length_app in Hw.
    destruct rest; [done|cbn in Hw; lia].
Qed.
End DriverFrame.

Lemma driver_leaves_existing_arrays_unchanged_witness :
  arrays (Demo.drive Demo.namespace_with_stump 3 None true).1 !! Demo.T
  = Some [1; 2; 3; 4; 5; 6; 7; 8].
Proof.
  apply (driver_leaves_existing_arrays_unchanged euclid_profile (λ _, true)
           (λ a b, bool_decide (a = b))
           Demo.int_mean_std Demo.int_first_profile Demo.int_get_QT (λ _, false)
           Demo.namespace_with_stump Demo.T 3 None true Demo.series_store
           [1; 2; 3; 4; 5; 6; 7; 8] [1; 2; 3; 4; 5; 6; 7; 8]).
  - right. split; [reflexivity|].
    repeat split; try reflexivity; cbn; lia.
  - apply elem_of_dom. by eexists.
Defined.

Lemma driver_logs_only_its_hints_witness :
  ∃ rest,
    warnings (Demo.drive module_namespace 3 (Some Demo.T) false).1
    = [] ++ ["Arrays T_A, T_B are equal, which implies a self-join.";
             "Try setting `ignore_trivial = True`."]%string ++ rest
    ∧ (rest = [] ∨ rest = small_distance_hints)
    ∧ (module_namespace !! "_stump"%string = None → rest = []).
Proof.
  destruct (driver_logs_only_its_hints euclid_profile (λ _, true)
              (λ a b, bool_decide (a = b))
              Demo.int_mean_std Demo.int_first_profile Demo.int_get_QT
              (λ _, false)
              module_namespace Demo.T 3 (Some Demo.T) false Demo.series_store
              [1; 2; 3; 4; 5; 6; 7; 8] [1; 2; 3; 4; 5; 6; 7; 8]
              eq_refl eq_refl eq_refl eq_refl)
    as (rest & Hw & Hrest).
  rewrite bool_decide_true in Hw by reflexivity.
  exists rest. split; [exact Hw|exact Hrest].
Defined.

(** ** The rows of the driver *)

Lemma new_array_run {R} (a : list R) (s : mem R) :
  new_array a s = (update (fresh (dom (arrays s))) a s, Ok (fresh (dom (arrays s)))).
Proof. reflexivity. Qed.

Lemma update_fresh_lookup {R} (x : ref) (v a : list R) (s : mem R) :
  arrays s !! x = Some v →
  arrays (update (fresh (dom (arrays s))) a s) !! x = Some v.
Proof.
  intros Hx. rewrite update_lookup_ne; [done|]. intros ->.
  apply (is_fresh (dom (arrays s))). by eapply elem_of_dom_2.
Qed.

Lemma slice_assign_tail {A} (a src : list A) (l : Z) :
  1 ≤ l → Z.of_nat (length a) = l → Z.of_nat (length src) = l - 1 →
  slice_assign a 1 l src = Ok (take 1 a ++ src).
Proof.
  intros Hl Ha Hsrc. unfold slice_assign, slice_bound.
  rewrite (bool_decide_false (1 < 0)) by lia.
  rewrite (bool_decide_false (l < 0)) by lia.
  replace (Z.to_nat (1 `min` Z.of_nat (length a))) with 1%nat by lia.
  replace (Z.to_nat (l `min` Z.of_nat (length a))) with (length a) by lia.
  rewrite bool_decide_true by lia.
  rewrite drop_ge by lia. by rewrite app_nil_r.
Qed.

Section DriverRows.
Context `{Scalar R}.
Variable K : Z → list R → R → R → list R → list R → list (dist R).
Variable check_dtype : list R → bool.
Variable are_arrays_equal : list R → list R → bool.
Variable compute_mean_std : list R → Z → list R * list R.
Variable _get_first_stump_profile :
  Z → list R → list R → Z → Z → list R → list R → bool → dist R * (Z * Z * Z).
Variable _get_QT : Z → list R → list R → Z → list R * list R.
Variable are_distances_too_small : list (dist R) → bool.

(** X9: when the global name [_stump] is bound to the engine [_mstump],
    on series of a supported element type with [1 ≤ m ≤ len], and
    collaborators that return one statistic and one first-column entry
    per query window and [k] dot products, the driver returns
    [l = len(T_B) - m + 1] rows: row 0 as [_get_first_stump_profile]
    gives it, and row [i ≥ 1] extracted from the distance profile of the
    row's buffer with the zone [ceil(m/4)]. *)
Theorem driver_rows_when_engine_is_bound ns T_A m T_B ignore_trivial
    (s : mem R) ta tb :
  ns !! "_stump"%string = Some RecurrenceEngine →
  (∀ m qt μ σ mt st, length (K m qt μ σ mt st) = length qt) →
  arrays s !! T_A = Some ta →
  arrays s !! default T_A T_B = Some tb →
  check_dtype ta = true → check_dtype tb = true →
  1 ≤ m → m ≤ Z.of_nat (length ta) → m ≤ Z.of_nat (length tb) →
  let k := Z.of_nat (length ta) - m + 1 in
  let l := Z.of_nat (length tb) - m + 1 in
  let ign := match T_B with None => true | Some _ => ignore_trivial end in
  let mt := (compute_mean_std ta m).1 in
  let st := (compute_mean_std ta m).2 in
  let μq := (compute_mean_std tb m).1 in
  let σq := (compute_mean_std tb m).2 in
  let qt := (_get_QT 0 ta tb m).1 in
  let qtf := (_get_QT 0 ta tb m).2 in
  l ≤ Z.of_nat (length μq) → l ≤ Z.of_nat (length σq) →
  length qt = Z.to_nat k → l ≤ Z.of_nat (length qtf) →
  ∃ s' rest,
    mstump K check_dtype are_arrays_equal compute_mean_std
      _get_first_stump_profile _get_QT are_distances_too_small
      ns T_A m T_B ignore_trivial s
    = (s', Ok (_get_first_stump_profile 0 ta tb m (ceil_quarter m) mt st ign
               :: rest))
    ∧ Z.of_nat (length rest) = l - 1
    ∧ ∀ i, 1 ≤ i < l →
        ∃ P I3,
          rest !! Z.to_nat (i - 1) = Some (P, I3)
          ∧ extract_row ign (ceil_quarter m) i
              (row_profile K ta tb mt st qt qtf μq σq m k 1 i)
            = Ok (masked ign (ceil_quarter m) i
                    (row_profile K ta tb mt st qt qtf μq σq m k 1 i),
                  (P, I3)).
Proof.
  intros Hns HK HA HB Hca Hcb Hm Hma Hmb k l ign mt st μq σq qt qtf
    Hμq Hσq Hqt Hqtf.
  unfold mstump.
  rewrite (run_bind_ok _ _ s s ())
    by by rewrite (call_check_dtype_run _ _ ta), Hca.
  set (b := default T_A T_B) in *.
  replace (match T_B with None => (T_A, true) | Some T_B0 => (T_B0, ignore_trivial) end)
    with (b, ign) by by destruct T_B.
  rewrite (run_bind_ok _ _ s s ())
    by by rewrite (call_check_dtype_run _ _ tb), Hcb.
  rewrite (run_bind_ok _ _ _ _ _ (load_run _ _ _ HA)).
  rewrite (run_bind_ok _ _ _ _ _ (load_run _ _ _ HB)).
  rewrite (run_bind_ok _ _ _ _ _ (warn_if_run _ _ _ _)).
  rewrite (run_bind_ok _ _ _ _ _ (warn_if_run _ _ _ _)).
  match goal with
  | |- ∃ _ _, _ ?sw = _ ∧ _ =>
      set (s0 := sw);
      assert (arrays s0 !! T_A = Some ta) as HA0 by exact HA;
      assert (arrays s0 !! b = Some tb) as HB0 by exact HB
  end.
  clearbody s0.
  fold k l. unfold mt, st, μq, σq, qt, qtf in *. clear mt st μq σq qt qtf.
  destruct (compute_mean_std ta m) as [mt st].
  destruct (compute_mean_std tb m) as [μq σq].
  destruct (_get_QT 0 ta tb m) as [qt qtf].
  cbn [fst snd] in *.
  rewrite (run_bind_ok _ _ _ _ _ (new_array_run mt s0)).
  set (M_T := fresh (dom (arrays s0))). set (s1 := update M_T mt s0).
  rewrite (run_bind_ok _ _ _ _ _ (new_array_run st s1)).
  set (Σ_T := fresh (dom (arrays s1))). set (s2 := update Σ_T st s1).
  rewrite (run_bind_ok _ _ _ _ _ (new_array_run μq s2)).
  set (μ_Q := fresh (dom (arrays s2))). set (s3 := update μ_Q μq s2).
  rewrite (run_bind_ok _ _ _ _ _ (new_array_run σq s3)).
  set (σ_Q := fresh (dom (arrays s3))). set (s4 := update σ_Q σq s3).
  unfold np_empty. rewrite !bool_decide_false by lia.
  rewrite !lift_bind_run.
  destruct (_get_first_stump_profile 0 ta tb m (ceil_quarter m) mt st ign)
    as [P0 I0].
  rewrite !setitem_in_range by (rewrite length_replicate; lia).
  rewrite !lift_bind_run.
  rewrite (run_bind_ok _ _ _ _ _ (new_array_run qt s4)).
  set (QT := fresh (dom (arrays s4))). set (s5 := update QT qt s4).
  rewrite (run_bind_ok _ _ _ _ _ (new_array_run qtf s5)).
  set (QT_first := fresh (dom (arrays s5))). set (s6 := update QT_first qtf s5).
  unfold resolve. rewrite Hns, lift_bind_run. cbn [call_engine].
  assert (in_range_call s6 T_A b M_T Σ_T QT QT_first μ_Q σ_Q
            ta tb mt st qt qtf μq σq m k (0 + 1) l) as Hcall.
  { split; try lia; try done; unfold s6, s5, s4, s3, s2, s1;
      repeat first [ apply update_lookup_eq | apply update_fresh_lookup ];
      done. }
  destruct (_mstump_in_range K s6 _ _ _ _ _ _ _ _ _ _ _ _ _ _ _ _ _ _ _ _
              (ceil_quarter m) ign HK Hcall)
    as (s7 & p & ix & Hrun & Hlp & Hli & _ & Hrows).
  rewrite (run_bind_ok _ _ _ _ _ Hrun).
  set (profile := <[Z.to_nat 0 := P0]> (replicate (Z.to_nat l) (Fin r0))).
  set (indices := <[Z.to_nat 0 := I0]> (replicate (Z.to_nat l) (0, 0, 0))).
  assert (length profile = Z.to_nat l ∧ length indices = Z.to_nat l)
    as [Hprofile Hindices]
    by (unfold profile, indices; by rewrite !length_insert, !length_replicate).
  change (0 + 1) with 1.
  rewrite !lift_bind_run.
  rewrite (slice_assign_tail profile p l) by lia.
  rewrite !lift_bind_run.
  rewrite (slice_assign_tail indices ix l) by lia.
  assert (take 1 profile = [P0] ∧ take 1 indices = [I0]) as [-> ->].
  { unfold profile, indices. destruct (Z.to_nat l) eqn:Hl; [lia|]. done. }
  cbn [app zip zip_with].
  rewrite (run_bind_ok _ _ _ _ _ (warn_if_run _ _ _ _)).
  eexists _, (zip p ix). split; [reflexivity|]. split.
  { rewrite length_zip_with. lia. }
  intros i Hi. destruct (Hrows i ltac:(lia)) as [_ (P & I3 & Hex & Hp & Hix)].
  change (0 + 1) with 1 in *.
  exists P, I3. split; [|done].
  rewrite lookup_zip_with, Hp. cbn. by rewrite Hix.
Qed.
End DriverRows.

Lemma driver_rows_when_engine_is_bound_witness :
  ∃ s' rest,
    Demo.drive Demo.namespace_with_stump 3 None true
    = (s', Ok ((Fin 3, (2, -1, 2)) :: rest))
    ∧ Z.of_nat (length rest) = 6 - 1
    ∧ ∀ i, 1 ≤ i < 6 →
        ∃ P I3,
          rest !! Z.to_nat (i - 1) = Some (P, I3)
          ∧ extract_row true 1 i
              (row_profile euclid_profile
                 [1; 2; 3; 4; 5; 6; 7; 8] [1; 2; 3; 4; 5; 6; 7; 8]
                 [6; 9; 12; 15; 18; 21] [14; 29; 50; 77; 110; 149]
                 [14; 20; 26; 32; 38; 44] [14; 20; 26; 32; 38; 44]
                 [6; 9; 12; 15; 18; 21] [14; 29; 50; 77; 110; 149] 3 6 1 i)
            = Ok (masked true 1 i
                    (row_profile euclid_profile
                       [1; 2; 3; 4; 5; 6; 7; 8] [1; 2; 3; 4; 5; 6; 7; 8]
                       [6; 9; 12; 15; 18; 21] [14; 29; 50; 77; 110; 149]
                       [14; 20; 26; 32; 38; 44] [14; 20; 26; 32; 38; 44]
                       [6; 9; 12; 15; 18; 21] [14; 29; 50; 77; 110; 149] 3 6 1 i),
                  (P, I3)).
Proof.
  apply (driver_rows_when_engine_is_bound euclid_profile (λ _, true)
           (λ a b, bool_decide (a = b))
           Demo.int_mean_std Demo.int_first_profile Demo.int_get_QT (λ _, false)
           Demo.namespace_with_stump Demo.T 3 None true Demo.series_store
           [1; 2; 3; 4; 5; 6; 7; 8] [1; 2; 3; 4; 5; 6; 7; 8]);
    try reflexivity; try exact euclid_profile_length; cbn; lia.
Defined.
